(** * Oink parity-game driver and the experimental recursive solver

    A shallow embedding of [oink.cpp] (driver, reductions, flush) and
    [experimental.cpp] (attractor, bounded-precision Zielonka recursion,
    memoisation), with the properties of the specification stated and
    settled against it.

    Conventions.
    - A vertex is a dense index, a [nat]; every C++ [int] value is a [Z].
      Signed overflow is undefined in C++ and no counter of the program
      leaves the range of [int] on the inputs considered, so [int]
      arithmetic is the arithmetic of [Z].
    - [std::vector<int>], [int*] arrays and bitsets are lists, read with
      [zat]/[bat]/[adj] and written with stdpp's [<[i:=x]>].  Reads and
      writes out of range are undefined in C++; here a read yields the
      default and a write does nothing, and well-formedness hypotheses
      keep the indices in range.
    - Loops whose length the data do not bound syntactically take fuel. *)

From Stdlib Require Import ZArith Lia Bool.
From stdpp Require Import base option list strings gmap.

Local Open Scope Z_scope.

(** ** Arrays *)

Definition zat (l : list Z) (i : nat) : Z := default 0 (l !! i).
Definition bat (l : list bool) (i : nat) : bool := default false (l !! i).
Definition adj (l : list (list nat)) (i : nat) : list nat := default [] (l !! i).

(** ** Outcomes of the driver's routines

    [LOGIC_ERROR] is the macro of the source: it aborts the process. *)

Inductive outcome (A : Type) : Type :=
  | Ok (a : A)
  | LOGIC_ERROR
  | OutOfFuel
  | ForeignSolver.
Arguments Ok {A} a.
Arguments LOGIC_ERROR {A}.
Arguments OutOfFuel {A}.
Arguments ForeignSolver {A}.

#[global] Instance outcome_ret : MRet outcome := fun A a => Ok a.
#[global] Instance outcome_bind : MBind outcome := fun A B f m =>
  match m with
  | Ok a => f a
  | LOGIC_ERROR => LOGIC_ERROR
  | OutOfFuel => OutOfFuel
  | ForeignSolver => ForeignSolver
  end.

(** A [for] loop over a sequence whose body may abort. *)
Fixpoint foldM {A B : Type} (f : A -> B -> outcome A) (l : list B) (a : A) : outcome A :=
  match l with
  | [] => Ok a
  | x :: l => a ← f a x; foldM f l a
  end.

(** ** The game and its solution (class [Game]) *)

Record Game := mkGame {
  n_nodes : nat;
  owner : list Z;
  priority : list Z;
  out : list (list nat);
  in_ : list (list nat);
  solved : list bool;
  winner : list Z;
  strategy : list Z }.

Definition set_out (g : Game) (x : list (list nat)) : Game :=
  mkGame (n_nodes g) (owner g) (priority g) x (in_ g) (solved g) (winner g) (strategy g).
Definition set_in (g : Game) (x : list (list nat)) : Game :=
  mkGame (n_nodes g) (owner g) (priority g) (out g) x (solved g) (winner g) (strategy g).
Definition set_solved (g : Game) (x : list bool) : Game :=
  mkGame (n_nodes g) (owner g) (priority g) (out g) (in_ g) x (winner g) (strategy g).
Definition set_winner (g : Game) (x : list Z) : Game :=
  mkGame (n_nodes g) (owner g) (priority g) (out g) (in_ g) (solved g) x (strategy g).
Definition set_strategy (g : Game) (x : list Z) : Game :=
  mkGame (n_nodes g) (owner g) (priority g) (out g) (in_ g) (solved g) (winner g) x.

(** Modelled from the spec: [Game::gameSolved] is not under src/; the
    driver uses it as "no unsolved vertex remains". *)
Definition gameSolved (g : Game) : bool :=
  forallb (fun v => bat (solved g) v) (seq 0 (n_nodes g)).

(** ** The driver object (class [Oink])

    [todo] is a [uintqueue], whose header is not under src/: a buffer of
    vertices with [push], [pop] and [nonempty]; [pop] takes the element
    pushed last, so the head of the list is the top. *)

Record Oink := mkOink {
  game : Game;
  todo : list nat;
  disabled : list bool;
  outcount : list Z;
  solver : Z;
  inflate : bool;
  compress : bool;
  renumber : bool;
  solveSingle : bool;
  removeLoops : bool;
  removeWCWC : bool;
  bottomSCC : bool }.

Definition set_game (o : Oink) (x : Game) : Oink :=
  mkOink x (todo o) (disabled o) (outcount o) (solver o) (inflate o) (compress o)
    (renumber o) (solveSingle o) (removeLoops o) (removeWCWC o) (bottomSCC o).
Definition set_todo (o : Oink) (x : list nat) : Oink :=
  mkOink (game o) x (disabled o) (outcount o) (solver o) (inflate o) (compress o)
    (renumber o) (solveSingle o) (removeLoops o) (removeWCWC o) (bottomSCC o).
Definition set_disabled (o : Oink) (x : list bool) : Oink :=
  mkOink (game o) (todo o) x (outcount o) (solver o) (inflate o) (compress o)
    (renumber o) (solveSingle o) (removeLoops o) (removeWCWC o) (bottomSCC o).
Definition set_outcount (o : Oink) (x : list Z) : Oink :=
  mkOink (game o) (todo o) (disabled o) x (solver o) (inflate o) (compress o)
    (renumber o) (solveSingle o) (removeLoops o) (removeWCWC o) (bottomSCC o).

(** [Oink::solve] *)
Definition solve (node : nat) (win strat : Z) (o : Oink) : outcome Oink :=
  let g := game o in
  if bat (solved g) node || bat (disabled o) node then LOGIC_ERROR
  else
    let g := set_solved g (<[node := true]> (solved g)) in
    let g := set_winner g (<[node := win]> (winner g)) in
    let g := set_strategy g
               (<[node := if win =? zat (owner g) node then strat else -1]> (strategy g)) in
    let o := set_game o g in
    let o := set_disabled o (<[node := true]> (disabled o)) in
    Ok (set_todo o (node :: todo o)).

(** The record of a vertex decided inside [Oink::flush]: the four
    assignments shared by both branches and, for a vertex of the winner,
    the strategy. *)
Definition flush_mark (i : nat) (w : Z) (o : Oink) : Oink :=
  let g := game o in
  let g := set_solved g (<[i := true]> (solved g)) in
  let g := set_winner g (<[i := w]> (winner g)) in
  let o := set_game o g in
  let o := set_disabled o (<[i := true]> (disabled o)) in
  set_todo o (i :: todo o).

(** Body of [for (int in : game->in[v])] in [Oink::flush]. *)
Definition flush_pred (v : nat) (w : Z) (o : Oink) (i : nat) : Oink :=
  let g := game o in
  if bat (solved g) i then o
  else if zat (owner g) i =? w then
    flush_mark i w (set_game o (set_strategy g (<[i := Z.of_nat v]> (strategy g))))
  else
    let c := zat (outcount o) i - 1 in
    let o := set_outcount o (<[i := c]> (outcount o)) in
    if c =? 0 then flush_mark i w o else o.

(** [Oink::flush].  [bool winner = game->winner[v]] converts to 0 or 1. *)
Fixpoint flush (fuel : nat) (o : Oink) : outcome Oink :=
  match todo o with
  | [] => Ok o
  | v :: rest =>
    let o := set_todo o rest in
    if zat (outcount o) v =? -1 then Ok o
    else
      match fuel with
      | O => OutOfFuel
      | S fuel =>
        let o := set_outcount o (<[v := -1]> (outcount o)) in
        let w := if zat (winner (game o)) v =? 0 then 0 else 1 in
        flush fuel (fold_left (flush_pred v w) (adj (in_ (game o)) v) o)
      end
  end.

(** ** [Oink::solveSingleParity] *)

(** First loop: [None] is the [return false] on a second parity. *)
Fixpoint single_scan (g : Game) (dis : list bool) (ixs : list nat) (parity : Z)
  : option Z :=
  match ixs with
  | [] => Some parity
  | i :: ixs =>
    if bat dis i then single_scan g dis ixs parity
    else if parity =? -1 then single_scan g dis ixs (Z.land (zat (priority g) i) 1)
    else if parity =? Z.land (zat (priority g) i) 1 then single_scan g dis ixs parity
    else None
  end.

(** [for (int to : game->out[i]) { if (disabled[to]) continue; solve(i, parity, to); break; }] *)
Fixpoint single_pick (i : nat) (parity : Z) (tos : list nat) (o : Oink) : outcome Oink :=
  match tos with
  | [] => Ok o
  | to :: tos =>
    if bat (disabled o) to then single_pick i parity tos o
    else solve i parity (Z.of_nat to) o
  end.

Definition single_body (parity : Z) (o : Oink) (i : nat) : outcome Oink :=
  if bat (disabled o) i then Ok o
  else if zat (owner (game o)) i =? parity then
    single_pick i parity (adj (out (game o)) i) o
  else solve i parity (-1) o.

Definition single_assign (parity : Z) (ixs : list nat) (o : Oink) : outcome Oink :=
  foldM (single_body parity) ixs o.

Definition solveSingleParity (fuel : nat) (o : Oink) : outcome (bool * Oink) :=
  match single_scan (game o) (disabled o) (seq 0 (n_nodes (game o))) (-1) with
  | None => Ok (false, o)
  | Some parity =>
    if (parity =? 0) || (parity =? 1) then
      o ← single_assign parity (seq 0 (n_nodes (game o))) o;
      o ← flush fuel o;
      Ok (true, o)
    else Ok (false, o)
  end.

(** ** [Oink::solveSelfloops] *)

(** [out.erase(it)] at the first position holding [n]. *)
Fixpoint erase_first (n : nat) (l : list nat) : list nat :=
  match l with
  | [] => []
  | x :: l => if decide (x = n) then l else x :: erase_first n l
  end.

(** Body of the loop over [n]; the inner loop stops at the first
    self-loop ([break]). *)
Definition selfloop_body (acc : Oink * Z) (n : nat) : outcome (Oink * Z) :=
  let '(o, res) := acc in
  if bat (disabled o) n then Ok (o, res)
  else
    let g := game o in
    let outn := adj (out g) n in
    if bool_decide (n ∈ outn) then
      o ← (if zat (owner g) n =? Z.land (zat (priority g) n) 1 then
             solve n (zat (owner g) n) (Z.of_nat n) o
           else if (length outn =? 1)%nat then
             solve n (1 - zat (owner g) n) (-1) o
           else
             let g := set_out g (<[n := erase_first n outn]> (out g)) in
             let g := set_in g (<[n := filter (fun x => x ≠ n) (adj (in_ g) n)]> (in_ g)) in
             Ok (set_outcount (set_game o g)
                   (<[n := zat (outcount o) n - 1]> (outcount o))));
      Ok (o, res + 1)
    else Ok (o, res).

Definition solveSelfloops (fuel : nat) (o : Oink) : outcome (Z * Oink) :=
  '(o, res) ← foldM selfloop_body (seq 0 (n_nodes (game o))) (o, 0);
  o ← flush fuel o;
  Ok (res, o).

(** ** [Oink::solveTrivialCycles]

    The local variables of the routine.  [res] is a vector used as a
    stack (its head is [res.back()]); [scc] keeps insertion order; the
    head of [st] is [st.top()]. *)

Record tc_state := mkTC {
  tc_oink : Oink;
  done : list Z;
  low : list Z;
  res : list nat;
  scc : list nat;
  st : list nat;
  pre : Z;
  count : Z }.

Definition tc_set_oink (s : tc_state) (x : Oink) : tc_state :=
  mkTC x (done s) (low s) (res s) (scc s) (st s) (pre s) (count s).
Definition tc_set_done (s : tc_state) (x : list Z) : tc_state :=
  mkTC (tc_oink s) x (low s) (res s) (scc s) (st s) (pre s) (count s).
Definition tc_set_low (s : tc_state) (x : list Z) : tc_state :=
  mkTC (tc_oink s) (done s) x (res s) (scc s) (st s) (pre s) (count s).
Definition tc_set_res (s : tc_state) (x : list nat) : tc_state :=
  mkTC (tc_oink s) (done s) (low s) x (scc s) (st s) (pre s) (count s).
Definition tc_set_scc (s : tc_state) (x : list nat) : tc_state :=
  mkTC (tc_oink s) (done s) (low s) (res s) x (st s) (pre s) (count s).
Definition tc_set_st (s : tc_state) (x : list nat) : tc_state :=
  mkTC (tc_oink s) (done s) (low s) (res s) (scc s) x (pre s) (count s).
Definition tc_set_pre (s : tc_state) (x : Z) : tc_state :=
  mkTC (tc_oink s) (done s) (low s) (res s) (scc s) (st s) x (count s).
Definition tc_set_count (s : tc_state) (x : Z) : tc_state :=
  mkTC (tc_oink s) (done s) (low s) (res s) (scc s) (st s) (pre s) x.

(** The loop [for (auto to : out[idx])]: the vertex pushed, if any, and
    the running minimum.  The first test reads [disabled[i]], the root
    of the search, as the source does. *)
Fixpoint tc_edges (s : tc_state) (i : nat) (pr pl bot : Z) (tos : list nat) (min : Z)
  : option nat * Z :=
  match tos with
  | [] => (None, min)
  | to :: tos =>
    if bat (disabled (tc_oink s)) i then tc_edges s i pr pl bot tos min
    else if bool_decide (i < to)%nat || (zat (done s) to =? -2) || (zat (done s) to =? pr)
            || negb (zat (owner (game (tc_oink s))) to =? pl)
    then tc_edges s i pr pl bot tos min
    else if zat (low s) to <=? bot then (Some to, min)
    else tc_edges s i pr pl bot tos (if zat (low s) to <? min then zat (low s) to else min)
  end.

(** The loop [for (;;)] that moves the component from [res] to [scc].
    It returns the state with the three maxima, or [None] for the
    [LOGIC_ERROR] on an empty [res]. *)
Fixpoint tc_collect (g : Game) (pr pl min : Z) (idx : nat) (rs : list nat)
    (s : tc_state) (max_pr max_pr_pl max_pr_n : Z) : option (tc_state * Z * Z * Z) :=
  match rs with
  | [] => None
  | n :: rs =>
    let s := tc_set_res s rs in
    let s := tc_set_scc s (scc s ++ [n]) in
    let s := tc_set_done s (<[n := pr]> (done s)) in
    let s := if zat (low s) n =? min then s else tc_set_low s (<[n := min]> (low s)) in
    let d := zat (priority g) n in
    let max_pr := if max_pr <? d then d else max_pr in
    let '(max_pr_pl, max_pr_n) :=
      if (Z.land d 1 =? pl) && (max_pr_pl <? d) then (d, Z.of_nat n)
      else (max_pr_pl, max_pr_n) in
    if decide (n = idx) then Some (s, max_pr, max_pr_pl, max_pr_n)
    else tc_collect g pr pl min idx rs s max_pr max_pr_pl max_pr_n
  end.

(** Body of [for (int from : in[cur])] in the backward search; [q] is
    the queue, its head the front. *)
Definition tc_back_edge (lw : list Z) (pl min : Z) (cur : nat)
    (acc : Oink * list nat) (from : nat) : outcome (Oink * list nat) :=
  let '(o, q) := acc in
  if negb (zat lw from =? min) || bat (disabled o) from then Ok (o, q)
  else
    o ← solve from pl (Z.of_nat cur) o;
    Ok (o, q ++ [from]).

(** [while (!q.empty())] of the backward search. *)
Fixpoint tc_back (fuel : nat) (lw : list Z) (pl min : Z) (q : list nat) (o : Oink)
  : outcome Oink :=
  match q with
  | [] => Ok o
  | cur :: q =>
    match fuel with
    | O => OutOfFuel
    | S fuel =>
      '(o, q) ← foldM (tc_back_edge lw pl min cur) (adj (in_ (game o)) cur) (o, q);
      tc_back fuel lw pl min q o
    end
  end.

(** [for (auto n : scc) if (priority[n] > max_pr_pl) done[n] = -2;] *)
Definition tc_reject (g : Game) (max_pr_pl : Z) (s : tc_state) : tc_state :=
  tc_set_done s
    (fold_left (fun d n => if max_pr_pl <? zat (priority g) n then <[n := -2]> d else d)
       (scc s) (done s)).

(** One iteration of [while (!st.empty())] with [idx = st.top()], in the
    search from root [i] with [pr], [pl] and [bot]. *)
Definition tc_iter (fuel : nat) (i : nat) (pr pl bot : Z) (idx : nat) (s : tc_state)
  : outcome tc_state :=
  let g := game (tc_oink s) in
  s ← (if zat (low s) idx <=? bot then
         let s := tc_set_pre s (pre s + 1) in
         let s := tc_set_low s (<[idx := pre s]> (low s)) in
         if pre s <? 0 then LOGIC_ERROR
         else Ok (tc_set_res s (idx :: res s))
       else Ok s);
  match tc_edges s i pr pl bot (adj (out g) idx) (zat (low s) idx) with
  | (Some to, _) => Ok (tc_set_st s (to :: st s))
  | (None, min) =>
    if min <? zat (low s) idx then
      Ok (tc_set_st (tc_set_low s (<[idx := min]> (low s))) (tail (st s)))
    else
      match tc_collect g pr pl min idx (res s) s (-1) (-1) (-1) with
      | None => LOGIC_ERROR
      | Some (s, max_pr, max_pr_pl, max_pr_n) =>
        if (length (scc s) =? 1)%nat && negb (bool_decide (idx ∈ adj (out g) idx)) then
          let s := tc_set_done s (<[idx := -2]> (done s)) in
          Ok (tc_set_st (tc_set_scc s []) (tail (st s)))
        else if negb (Z.land max_pr 1 =? pl) then
          let s := tc_reject g max_pr_pl s in
          Ok (tc_set_st (tc_set_scc s []) (tail (st s)))
        else
          o ← tc_back fuel (low s) pl min [Z.to_nat max_pr_n] (tc_oink s);
          o ← flush fuel o;
          let s := tc_set_oink s o in
          let s := tc_set_st s [] in
          let s := tc_set_res s [] in
          let s := tc_set_scc s [] in
          Ok (tc_set_count s (count s + 1))
      end
  end.

(** [while (!st.empty())] *)
Fixpoint tc_while (fuel : nat) (i : nat) (pr pl bot : Z) (s : tc_state)
  : outcome tc_state :=
  match st s with
  | [] => Ok s
  | idx :: _ =>
    match fuel with
    | O => OutOfFuel
    | S fuel =>
      s ← tc_iter fuel i pr pl bot idx s;
      tc_while fuel i pr pl bot s
    end
  end.

(** Body of [for (int i=n_nodes-1; i>=0; i--)]. *)
Definition tc_root (fuel : nat) (s : tc_state) (i : nat) : outcome tc_state :=
  let o := tc_oink s in
  if bat (disabled o) i then Ok s
  else if zat (done s) i =? -2 then Ok s
  else
    let pr := zat (priority (game o)) i in
    let pl := Z.land pr 1 in
    if negb (zat (owner (game o)) i =? pl) then Ok (tc_set_done s (<[i := -2]> (done s)))
    else if zat (done s) i =? pr then Ok s
    else tc_while fuel i pr pl (pre s) (tc_set_st s (i :: st s)).

Definition tc_init (o : Oink) : tc_state :=
  let n := n_nodes (game o) in
  mkTC o (map (fun i => if bat (disabled o) i then -2 else -1) (seq 0 n))
       (replicate n 0) [] [] [] 0 0.

Definition solveTrivialCycles (fuel : nat) (o : Oink) : outcome (Z * Oink) :=
  s ← foldM (tc_root fuel) (rev (seq 0 (n_nodes (game o)))) (tc_init o);
  Ok (count s, tc_oink s).

(** ** The experimental solver ([experimental.cpp]) *)

(** Flag bits of [experimental.hpp]. *)
Definition zielonka : Z := 1.
Definition memoize : Z := 2.
Definition quick_priority : Z := 4.
Definition auto_reduce : Z := 8.

(** [flags & bit] used as a condition. *)
Definition has_flag (flags bit : Z) : bool := negb (Z.land flags bit =? 0).

(** [std::array<int, 2>] read and decremented at index [i]. *)
Definition prec_at (p : Z * Z) (i : Z) : Z := if i =? 0 then fst p else snd p.
Definition prec_dec (p : Z * Z) (i : Z) : Z * Z :=
  if i =? 0 then (fst p - 1, snd p) else (fst p, snd p - 1).

Module zsolver.

(** The members of [struct zsolver] that change, together with the two
    globals of the translation unit that its methods use:
    [last_category] and [memo].  The members [g] and [flags] are set once
    and are parameters here. *)
Record state := mk {
  iters : Z;
  vtype : list Z;
  strategy : list Z;
  degs : list Z;
  last_category : Z;
  memo : gmap (Z * Z * list nat) (list Z) }.

Definition set_iters (s : state) (x : Z) : state :=
  mk x (vtype s) (strategy s) (degs s) (last_category s) (memo s).
Definition set_vtype (s : state) (x : list Z) : state :=
  mk (iters s) x (strategy s) (degs s) (last_category s) (memo s).
Definition set_strategy (s : state) (x : list Z) : state :=
  mk (iters s) (vtype s) x (degs s) (last_category s) (memo s).
Definition set_degs (s : state) (x : list Z) : state :=
  mk (iters s) (vtype s) (strategy s) x (last_category s) (memo s).
Definition set_last_category (s : state) (x : Z) : state :=
  mk (iters s) (vtype s) (strategy s) (degs s) x (memo s).
Definition set_memo (s : state) (x : gmap (Z * Z * list nat) (list Z)) : state :=
  mk (iters s) (vtype s) (strategy s) (degs s) (last_category s) x.

(** [new_category()]: the value returned and the state after. *)
Definition new_category (s : state) : Z * state :=
  (last_category s, set_last_category s (last_category s + 1)).

Section Solver.

Variable g : Game.
Variable flags : Z.

(** *** [zsolver::attractor] *)

(** First loop: seeds [aqueue] and initialises [degs]. *)
Definition attr_seed (whose cat_no cat_yes : Z) (acc : state * list nat) (v : nat)
  : state * list nat :=
  let '(s, aqueue) := acc in
  if zat (vtype s) v =? cat_yes then (s, aqueue ++ [v])
  else if zat (owner g) v =? whose then (set_degs s (<[v := 1]> (degs s)), aqueue)
  else
    let d := fold_left
               (fun d w => if (zat (vtype s) w =? cat_no) || (zat (vtype s) w =? cat_yes)
                           then d + 1 else d)
               (adj (out g) v) 0 in
    (set_degs s (<[v := d]> (degs s)), aqueue).

(** Body of [for (auto w : g->in[v])]; the second component collects
    what is pushed on [aqueue]. *)
Definition attr_edge (whose cat_yes : Z) (v : nat) (acc : state * list nat) (w : nat)
  : state * list nat :=
  let '(s, pushed) := acc in
  let d := zat (degs s) w - 1 in
  let s := set_degs s (<[w := d]> (degs s)) in
  if d =? 0 then
    let s := set_vtype s (<[w := cat_yes]> (vtype s)) in
    let s := set_strategy s
               (<[w := if zat (owner g) w =? whose then Z.of_nat v else -1]> (strategy s)) in
    (s, pushed ++ [w])
  else (s, pushed).

(** [for (int i = 0; i < int(aqueue.size()); i++)]: [pending] is the part
    of [aqueue] from index [i] on. *)
Fixpoint attr_loop (fuel : nat) (whose cat_yes : Z) (pending : list nat) (s : state)
  : option state :=
  match pending with
  | [] => Some s
  | v :: pending =>
    match fuel with
    | O => None
    | S fuel =>
      let '(s, pushed) := fold_left (attr_edge whose cat_yes v) (adj (in_ g) v) (s, []) in
      attr_loop fuel whose cat_yes (pending ++ pushed) s
    end
  end.

Definition attractor (fuel : nat) (vs : list nat) (whose cat_no cat_yes : Z) (s : state)
  : option state :=
  let s := set_degs s (resize (n_nodes g) (-1) (degs s)) in
  let '(s, aqueue) := fold_left (attr_seed whose cat_no cat_yes) vs (s, []) in
  s ← attr_loop fuel whose cat_yes aqueue s;
  Some (set_degs s (fold_left (fun d v => <[v := -1]> d) vs (degs s))).

(** *** [zsolver::run] *)

(** [for (i...) strategy[vs[i]] = m[i]] *)
Definition memo_load (vs : list nat) (m : list Z) (s : state) : state :=
  set_strategy s
    (fold_left (fun str i => <[default 0%nat (vs !! i) := zat m i]> str)
       (seq 0 (length vs)) (strategy s)).

(** [auto& m = memo[{precision, vs}]; for (i...) m.push_back(strategy[vs[i]])] *)
Definition memo_store (precision : Z * Z) (vs : list nat) (s : state) : state :=
  let key := (precision, vs) in
  set_memo s
    (<[key := default [] (memo s !! key) ++ map (zat (strategy s)) vs]> (memo s)).

(** The two loops that concede a frame. *)
Definition concede (vs : list nat) (who for_who other : Z) (s : state) : state :=
  set_strategy s
    (fold_left (fun str v => <[v := if zat (owner g) v =? who then for_who else other]> str)
       vs (strategy s)).

(** [for (auto v : vs) if (g->priority[v] == maxprio) vtype[v] = cat_hiprio, strategy[v] = -2;] *)
Definition mark_hiprio (vs : list nat) (maxprio cat_hiprio : Z) (s : state) : state :=
  fold_left
    (fun s v =>
       if zat (priority g) v =? maxprio then
         set_strategy (set_vtype s (<[v := cat_hiprio]> (vtype s))) (<[v := -2]> (strategy s))
       else s)
    vs s.

(** The loop after the first recursive call: the state and [subgame_won]. *)
Definition partition (subgame : list nat) (us cat_hiprio cat_opponent_wins : Z)
    (s : state) : state * bool :=
  fold_left
    (fun '(s, won) v =>
       if (if zat (owner g) v =? us then zat (strategy s) v =? -1
           else 0 <=? zat (strategy s) v)
       then (set_vtype s (<[v := cat_opponent_wins]> (vtype s)), false)
       else (set_vtype s (<[v := cat_hiprio]> (vtype s)), won))
    subgame (s, true).

(** The loop "strategy not specified for maxprio yet". *)
Definition fill_hiprio (vs : list nat) (maxprio us cat_hiprio : Z) (s : state) : state :=
  fold_left
    (fun s v =>
       if zat (priority g) v =? maxprio then
         if zat (owner g) v =? us then
           fold_left
             (fun s e => if zat (vtype s) e =? cat_hiprio
                         then set_strategy s (<[v := Z.of_nat e]> (strategy s)) else s)
             (adj (out g) v) s
         else set_strategy s (<[v := -1]> (strategy s))
       else s)
    vs s.

Definition memoizing (precision : Z * Z) (vs : list nat) (s : state) : state :=
  if has_flag flags memoize then memo_store precision vs s else s.

Fixpoint run (fuel : nat) (vs : list nat) (cat_base : Z) (precision : Z * Z)
    (mode mprio : Z) (s : state) : option state :=
  match fuel with
  | O => None
  | S fuel =>
    match (if has_flag flags memoize then memo s !! (precision, vs) else None) with
    | Some m => Some (memo_load vs m s)
    | None =>
      let s := set_iters s (iters s + 1) in
      if (length vs =? 0)%nat then Some s
      else
        let maxprio :=
          if mprio <? 0 then fold_left (fun m v => Z.max m (zat (priority g) v)) vs mprio
          else mprio in
        let us := Z.land maxprio 1 in
        let opponent := Z.lxor us 1 in
        if prec_at precision us <=? 0 then
          Some (concede vs (Z.land maxprio 1) (-1) 999 s)
        else
          let '(cat_hiprio, s) := new_category s in
          let s := mark_hiprio vs maxprio cat_hiprio s in
          s ← attractor fuel vs us cat_base cat_hiprio s;
          let subprecision :=
            if (mode =? 0) || (mode =? 2) then prec_dec precision opponent else precision in
          let subgame := filter (fun v => zat (vtype s) v = cat_base) vs in
          s ← (if prec_at subprecision opponent =? 0 then Some (concede vs us 999 (-1) s)
               else run fuel subgame cat_base subprecision (if mode =? 3 then 3 else 0)
                        (mprio - 1) s);
          let '(cat_opponent_wins, s) := new_category s in
          let '(s, subgame_won) := partition subgame us cat_hiprio cat_opponent_wins s in
          if subgame_won then
            if mode =? 0 then run fuel vs cat_hiprio precision 1 mprio s
            else Some (memoizing precision vs (fill_hiprio vs maxprio us cat_hiprio s))
          else
            s ← attractor fuel vs opponent cat_hiprio cat_opponent_wins s;
            let subgame := filter (fun v => zat (vtype s) v = cat_hiprio) vs in
            s ← run fuel subgame cat_hiprio precision (if mode =? 1 then 2 else mode) mprio s;
            Some (memoizing precision vs s)
    end
  end.

End Solver.
End zsolver.

(** ** [ExperimentalSolver::run] *)

(** The two globals of [experimental.cpp], which outlive the solver
    object. *)
Record Process := mkProcess {
  last_category : Z;
  memo : gmap (Z * Z * list nat) (list Z) }.

(** [int prec = 0; while ((1 << prec) < n_nodes) prec++;]  The loop runs
    at most [n_nodes] times. *)
Fixpoint prec_loop (fuel : nat) (n : Z) (prec : Z) : Z :=
  match fuel with
  | O => prec
  | S fuel => if Z.shiftl 1 prec <? n then prec_loop fuel n (prec + 1) else prec
  end.

Definition initial_precision (n : nat) : Z := prec_loop n (Z.of_nat n) 0.

(** The solver object as [run] sets it up, with the category of the
    whole vertex set. *)
Definition zs_init (g : Game) (p : Process) : Z * zsolver.state :=
  let n := n_nodes g in
  let '(cat, s) :=
    zsolver.new_category (zsolver.mk 0 (replicate n 0) (replicate n 0) []
                            (last_category p) (memo p)) in
  (cat, zsolver.set_vtype s (replicate n cat)).

(** The part of [run] up to and including the call of [zs.run]. *)
Definition zs_solve (fuel : nat) (flags : Z) (g : Game) (p : Process)
  : option zsolver.state :=
  let n := n_nodes g in
  let '(cat, s) := zs_init g p in
  let vset := seq 0 n in
  let prec := initial_precision n in
  let maxprio := fold_left (fun m v => Z.max m (zat (priority g) v)) vset 0 in
  let s := zsolver.set_iters s 0 in
  zsolver.run g flags fuel vset cat (prec, prec)
    (if has_flag flags zielonka then 3 else 0)
    (if has_flag flags quick_priority then -1 else maxprio) s.

(** Body of the final loop of [run]; [!owner[i]] is 1 for owner 0 and 0
    otherwise. *)
Definition absorb (zstrategy : list Z) (o : Oink) (i : nat) : outcome Oink :=
  if bat (solved (game o)) i then Ok o
  else if 0 <=? zat zstrategy i then
    solve i (zat (owner (game o)) i) (zat zstrategy i) o
  else
    solve i (if zat (owner (game o)) i =? 0 then 1 else 0) (-1) o.

Definition ExperimentalSolver_run (fuel : nat) (flags : Z) (op : Oink * Process)
  : outcome (Oink * Process) :=
  let '(o, p) := op in
  match zs_solve fuel flags (game o) p with
  | None => OutOfFuel
  | Some s =>
    o ← foldM (absorb (zsolver.strategy s)) (seq 0 (n_nodes (game o))) o;
    Ok (o, mkProcess (zsolver.last_category s) (zsolver.memo s))
  end.

(** ** The registry ([Solvers::Solvers])

    Label, parallel flag, and the flags of the experimental solver the
    entry constructs; [None] for the solvers whose classes are not part
    of the core. *)
Definition Solvers : list (string * Z * option Z) :=
  [ ("zlk", 1, None);
    ("ez", 1, Some (Z.lor zielonka quick_priority));
    ("ezm", 1, Some (Z.lor (Z.lor zielonka quick_priority) memoize));
    ("ep", 1, Some 0);
    ("epq", 1, Some quick_priority);
    ("epqm", 1, Some (Z.lor quick_priority memoize));
    ("epm", 1, Some memoize);
    ("epqa", 1, Some (Z.lor quick_priority auto_reduce));
    ("epqma", 1, Some (Z.lor (Z.lor quick_priority auto_reduce) memoize));
    ("uzlk", 1, None); ("npp", 0, None); ("pp", 0, None); ("ppp", 0, None);
    ("rr", 0, None); ("dp", 0, None); ("rrdp", 0, None); ("apt", 0, None);
    ("psi", 1, None); ("spm", 0, None); ("tspm", 0, None); ("mspm", 0, None);
    ("sspm", 0, None); ("qpt", 0, None) ]%string.

(** [Solvers::id] *)
Fixpoint Solvers_id_from (l : list (string * Z * option Z)) (lbl : string) (id : Z) : Z :=
  match l with
  | [] => -1
  | (s, _, _) :: l => if decide (s = lbl) then id else Solvers_id_from l lbl (id + 1)
  end.
Definition Solvers_id (lbl : string) : Z := Solvers_id_from Solvers lbl 0.

(** The flags of the experimental solver constructed for a registry id. *)
Definition Solvers_flags (id : Z) : option Z :=
  if id <? 0 then None
  else match Solvers !! Z.to_nat id with
       | Some (_, _, f) => f
       | None => None
       end.

(** ** The driver loop and [Oink::run] *)

(** What the driver calls and src/ does not contain: the three priority
    remappings of [Game] and [Oink::getBottomSCC]. *)
Record Externals := mkExternals {
  Game_inflate : Game -> Game;
  Game_compress : Game -> Game;
  Game_renumber : Game -> Game;
  getBottomSCC : Oink -> list nat }.

(** The constructor [Oink::Oink]: empty [todo], nothing disabled,
    [outcount] the number of enabled successors. *)
Definition Oink_new (g : Game) (solver : Z)
    (inflate compress renumber solveSingle removeLoops removeWCWC bottomSCC : bool) : Oink :=
  let n := n_nodes g in
  let dis := replicate n false in
  mkOink g [] dis
    (map (fun i => Z.of_nat (length (filter (fun t => bat dis t = false) (adj (out g) i))))
       (seq 0 n))
    solver inflate compress renumber solveSingle removeLoops removeWCWC bottomSCC.

Section Driver.

Variable ext : Externals.

(** One iteration of [while (!game->gameSolved())]. *)
Definition solveLoop_body (fuel : nat) (op : Oink * Process) : outcome (Oink * Process) :=
  let '(o, p) := op in
  let o := set_disabled o (solved (game o)) in
  let o :=
    if bottomSCC o then
      let sel := getBottomSCC ext o in
      let all := replicate (length (disabled o)) true in
      set_disabled o (fold_left (fun d i => <[i := false]> d) sel all)
    else o in
  match Solvers_flags (solver o) with
  | None => ForeignSolver
  | Some flags =>
    '(o, p) ← ExperimentalSolver_run fuel flags (o, p);
    o ← flush fuel o;
    Ok (o, p)
  end.

Fixpoint solveLoop (fuel : nat) (op : Oink * Process) : outcome (Oink * Process) :=
  if gameSolved (game (fst op)) then Ok op
  else
    match fuel with
    | O => OutOfFuel
    | S fuel =>
      op ← solveLoop_body fuel op;
      solveLoop fuel op
    end.

(** [Oink::run].  The arrays [outa], [ina], [outs], [ins] are built and
    deleted without being read by the experimental solver; the parallel
    and the sequential branch both call [solveLoop]. *)
Definition Oink_run (fuel : nat) (op : Oink * Process) : outcome (Oink * Process) :=
  let '(o, p) := op in
  let o :=
    if inflate o then set_game o (Game_inflate ext (game o))
    else if compress o then set_game o (Game_compress ext (game o))
    else if renumber o then set_game o (Game_renumber ext (game o))
    else o in
  continue ←
    (if solveSingle o then
       '(r, o') ← solveSingleParity fuel o;
       Ok (if r : bool then inl o' else inr o')
     else Ok (inr o));
  match continue with
  | inl o => Ok (o, p)
  | inr o =>
    o ← (if removeLoops o then '(_, o) ← solveSelfloops fuel o; Ok o else Ok o);
    o ← (if removeWCWC o then '(_, o) ← solveTrivialCycles fuel o; Ok o else Ok o);
    if solver o =? -1 then Ok (o, p)
    else solveLoop fuel (o, p)
  end.

End Driver.


(** * Specification vocabulary

    The notions in which the properties of the specification are stated:
    well-formed games, the attractor as an inductive set, the invariants
    of the loops, and the concrete games used below. *)

(** ** Counting with an [int] counter, as the attractor does *)

Definition zcount (f : nat -> bool) (l : list nat) : Z :=
  fold_left (fun d w => if f w then d + 1 else d) l 0.

(** Successors of [w] inside [vs], and occurrences of [w] in [E]. *)
Definition succs_in (g : Game) (vs : list nat) (w : nat) : Z :=
  zcount (fun x => bool_decide (x ∈ vs)) (adj (out g) w).
Definition hits (w : nat) (E : list nat) : Z :=
  zcount (fun x => bool_decide (x = w)) E.

(** ** Well-formed games *)

(** Edges stay in range and [in] is the reverse adjacency of [out],
    counted with multiplicity. *)
Record graph_wf (g : Game) : Prop := mk_graph_wf {
  gw_out_range : ∀ v w, w ∈ adj (out g) v → (w < n_nodes g)%nat;
  gw_in_range : ∀ v w, w ∈ adj (in_ g) v → (w < n_nodes g)%nat;
  gw_in_out : ∀ v w,
    zcount (fun x => bool_decide (x = w)) (adj (in_ g) v) =
    zcount (fun x => bool_decide (x = v)) (adj (out g) w) }.

Record game_wf (g : Game) : Prop := mk_game_wf {
  gwf_graph : graph_wf g;
  gwf_lsolved : length (solved g) = n_nodes g;
  gwf_lwinner : length (winner g) = n_nodes g;
  gwf_owner : ∀ v, zat (owner g) v = 0 ∨ zat (owner g) v = 1 }.

(** The solution of an input game: nothing decided. *)
Definition unsolved_game (g : Game) : Prop := ∀ v, bat (solved g) v = false.

(** Every vertex has an outgoing edge. *)
Definition total_game (g : Game) : Prop :=
  ∀ v, (v < n_nodes g)%nat → adj (out g) v ≠ [].

(** A priority remapping changes nothing but the priorities. *)
Definition remaps (f : Game → Game) : Prop :=
  ∀ g, n_nodes (f g) = n_nodes g ∧ owner (f g) = owner g ∧ out (f g) = out g ∧
       in_ (f g) = in_ g ∧ solved (f g) = solved g ∧ winner (f g) = winner g ∧
       strategy (f g) = strategy g.

Definition externals_ok (ext : Externals) : Prop :=
  remaps (Game_inflate ext) ∧ remaps (Game_compress ext) ∧ remaps (Game_renumber ext).

(** ** The single-parity reduction *)

Definition unmasked (dis : list bool) (i : nat) : Prop := bat dis i = false.

Definition enabled (o : Oink) (i : nat) : Prop :=
  (i < n_nodes (game o))%nat ∧ bat (disabled o) i = false.

Definition parity_of (g : Game) (i : nat) : Z := Z.land (zat (priority g) i) 1.

(** ** The attractor as a set

    Player [p] forces the play from [v] into the target [T] inside [vs]:
    [v] is a target; or [v] is [p]'s and one edge leads to such a vertex;
    or [v] is the opponent's, has an edge that stays in [vs], and every
    edge that stays in [vs] leads to such a vertex. *)
Inductive Attr (g : Game) (vs : list nat) (p : Z) (T : nat → Prop) : nat → Prop :=
  | Attr_target v : v ∈ vs → T v → Attr g vs p T v
  | Attr_own v w :
      v ∈ vs → zat (owner g) v = p → w ∈ adj (out g) v → Attr g vs p T w →
      Attr g vs p T v
  | Attr_opp v :
      v ∈ vs → zat (owner g) v ≠ p →
      (∃ w, w ∈ adj (out g) v ∧ w ∈ vs) →
      (∀ w, w ∈ adj (out g) v → w ∈ vs → Attr g vs p T w) →
      Attr g vs p T v.

(** The vertices labelled [cat_yes] when the attractor is called. *)
Definition is_target (s0 : zsolver.state) (cat_yes : Z) (v : nat) : Prop :=
  zat (zsolver.vtype s0) v = cat_yes.

(** The invariant of the worklist loop of [zsolver::attractor], entered
    in state [s0]: [aq] is [aqueue], [E] the predecessor occurrences
    handled so far. *)
Record AttrInv (g : Game) (vs : list nat) (whose cat_yes : Z) (s0 : zsolver.state)
    (aq E : list nat) (s : zsolver.state) : Prop := mkAttrInv {
  inv_nodup : NoDup aq;
  inv_sub : ∀ x, x ∈ aq → x ∈ vs;
  inv_lv : length (zsolver.vtype s) = n_nodes g;
  inv_ls : length (zsolver.strategy s) = n_nodes g;
  inv_ld : length (zsolver.degs s) = n_nodes g;
  inv_vtype : ∀ v, zat (zsolver.vtype s) v =
                   if bool_decide (v ∈ aq) then cat_yes else zat (zsolver.vtype s0) v;
  inv_sound : ∀ v, v ∈ aq → Attr g vs whose (is_target s0 cat_yes) v;
  inv_target : ∀ v, v ∈ vs → is_target s0 cat_yes v → v ∈ aq;
  inv_strat_old : ∀ v, v ∉ aq ∨ is_target s0 cat_yes v →
                       zat (zsolver.strategy s) v = zat (zsolver.strategy s0) v;
  inv_strat_new : ∀ j v, aq !! j = Some v → ¬ is_target s0 cat_yes v →
    (zat (owner g) v = whose →
       ∃ k w, (k < j)%nat ∧ aq !! k = Some w ∧ w ∈ adj (out g) v ∧
              zat (zsolver.strategy s) v = Z.of_nat w) ∧
    (zat (owner g) v ≠ whose → zat (zsolver.strategy s) v = -1);
  inv_deg_own : ∀ w, w ∈ vs → w ∉ aq → zat (owner g) w = whose →
                     zat (zsolver.degs s) w = 1 ∧ w ∉ E;
  inv_deg_opp : ∀ w, w ∈ vs → w ∉ aq → zat (owner g) w ≠ whose →
                     zat (zsolver.degs s) w = succs_in g vs w - hits w E ∧
                     (0 < zat (zsolver.degs s) w ∨ succs_in g vs w = 0);
  inv_deg_out : ∀ w, (w < n_nodes g)%nat → w ∉ vs → zat (zsolver.degs s) w < 0;
  inv_deg_in : ∀ w, w ∈ aq → zat (zsolver.degs s) w ≤ 0;
  inv_iters : zsolver.iters s = zsolver.iters s0;
  inv_cat : zsolver.last_category s = zsolver.last_category s0;
  inv_memo : zsolver.memo s = zsolver.memo s0 }.

(** What the first loop of the attractor stores in [degs[w]]. *)
Definition seed_value (g : Game) (whose cat_no cat_yes : Z) (s : zsolver.state)
    (w : nat) : Z :=
  if zat (owner g) w =? whose then 1
  else zcount (fun x => (zat (zsolver.vtype s) x =? cat_no)
                        || (zat (zsolver.vtype s) x =? cat_yes)) (adj (out g) w).

(** ** Invariants of the driver *)

Definition decided (o : Oink) (v : nat) : Prop := bat (solved (game o)) v = true.

Definition winners01 (o : Oink) : Prop :=
  ∀ v, bat (solved (game o)) v = true →
       zat (winner (game o)) v = 0 ∨ zat (winner (game o)) v = 1.

(** What no routine of the driver changes: the size, the owners and the
    configured solver; and the invariant of the solution: a decided
    vertex has a winner in {0,1}. *)
Record Good (n : nat) (ow : list Z) (sv : Z) (o : Oink) : Prop := mkGood {
  good_n : n_nodes (game o) = n;
  good_owner : owner (game o) = ow;
  good_solver : solver o = sv;
  good_winner : winners01 o }.

(** What the single-parity reduction leaves as in the input game [g0]. *)
Record Static (g0 : Game) (o : Oink) : Prop := mkStatic {
  st_n : n_nodes (game o) = n_nodes g0;
  st_owner : owner (game o) = owner g0;
  st_out : out (game o) = out g0;
  st_in : in_ (game o) = in_ g0;
  st_lsolved : length (solved (game o)) = n_nodes g0;
  st_lwinner : length (winner (game o)) = n_nodes g0;
  st_loutcount : length (outcount o) = n_nodes g0 }.

(** After the second loop of [solveSingleParity] has visited [vis]. *)
Record Assigned (g0 : Game) (parity : Z) (oc : list Z) (vis : list nat) (o : Oink)
  : Prop := mkAssigned {
  as_static : Static g0 o;
  as_ldisabled : length (disabled o) = n_nodes g0;
  as_outcount : outcount o = oc;
  as_dis : ∀ v, bat (disabled o) v = bat (solved (game o)) v;
  as_win : ∀ v, decided o v → zat (winner (game o)) v = parity ∧ v ∈ todo o;
  as_nodup : NoDup (todo o);
  as_todo : ∀ v, v ∈ todo o → decided o v;
  as_left : ∀ v, v ∈ vis → ¬ decided o v →
                 zat (owner g0) v = parity ∧ ∀ w, w ∈ adj (out g0) v → decided o w }.

(** The invariant of [flush] after [solveSingleParity]; [pend v u] holds
    for the predecessors [u] of the vertex [v] being processed that the
    inner loop has not reached yet. *)
Record Flushing (g0 : Game) (parity : Z) (pend : nat → nat → Prop) (o : Oink)
  : Prop := mkFlushing {
  fl_static : Static g0 o;
  fl_nodup : NoDup (todo o);
  fl_todo : ∀ v, v ∈ todo o →
                 (v < n_nodes g0)%nat ∧ decided o v ∧ zat (outcount o) v ≠ -1;
  fl_win : ∀ v, decided o v → (if zat (winner (game o)) v =? 0 then 0 else 1) = parity;
  fl_unproc : ∀ v, decided o v → zat (outcount o) v ≠ -1 → v ∈ todo o;
  fl_proc : ∀ v u, decided o v → zat (outcount o) v = -1 → u ∈ adj (in_ g0) v →
                   decided o u ∨ pend v u;
  fl_left : ∀ v, (v < n_nodes g0)%nat → ¬ decided o v →
                 zat (owner g0) v = parity ∧ zat (outcount o) v ≠ -1 ∧
                 ∀ w, w ∈ adj (out g0) v → decided o w }.

(** ** The memo table *)

(** Every entry of [m1] is in [m2], possibly extended at its end. *)
Definition memo_le (m1 m2 : gmap (Z * Z * list nat) (list Z)) : Prop :=
  ∀ k x, m1 !! k = Some x → ∃ y, m2 !! k = Some y ∧ x `prefix_of` y.

(** The cache handed to the next top-level invocation is empty. *)
Definition memo_discarded (fuel : nat) (flags : Z) (o : Oink) (p : Process) : Prop :=
  ∀ o' p', ExperimentalSolver_run fuel flags (o, p) = Ok (o', p') → memo p' = ∅.

(** ** The mask *)

(** The solver leaves its strategy of a masked vertex as it was set up. *)
Definition mask_respected (fuel : nat) (flags : Z) (o : Oink) (p : Process) : Prop :=
  ∀ s, zs_solve fuel flags (game o) p = Some s →
  ∀ v, bat (disabled o) v = true →
       zat (zsolver.strategy s) v = zat (zsolver.strategy (zs_init (game o) p).2) v.

(** ** Concrete processes and games *)

(** A process that has not run the solver yet. *)
Definition fresh_process : Process := mkProcess 0 ∅.

(** No remapping, no bottom-SCC selection. *)
Definition no_externals : Externals :=
  mkExternals (fun g => g) (fun g => g) (fun g => g) (fun _ => []).

(** A driver with every option off. *)
Definition oink_of (g : Game) (lbl : string) : Oink :=
  Oink_new g (Solvers_id lbl) false false false false false false false.

(** Scenario C of the specification: a two-vertex cycle won by player 0. *)
Definition game_alternation : Game :=
  mkGame 2 [0; 1] [2; 1] [[1]; [0]]%nat [[1]; [0]]%nat [false; false] [0; 0] [-1; -1].

(** The same graph with odd priorities only: won by player 1. *)
Definition game_odd_cycle : Game :=
  mkGame 2 [0; 1] [1; 1] [[1]; [0]]%nat [[1]; [0]]%nat [false; false] [0; 0] [-1; -1].

(** A single vertex of owner 0 and priority 1 with a self-loop: player 1
    wins it. *)
Definition game_single_odd : Game :=
  mkGame 1 [0] [1] [[0]]%nat [[0]]%nat [false] [0] [-1].

(** A two-vertex cycle next to a vertex with a winning self-loop. *)
Definition game_side_loop : Game :=
  mkGame 3 [0; 1; 0] [0; 1; 2] [[1]; [0]; [2]]%nat [[1]; [0]; [2]]%nat
    [false; false; false] [0; 0; 0] [-1; -1; -1].

(** The driver's state when it constructs the solver on [game_side_loop]:
    after the self-loop reduction, with the mask synchronised. *)
Definition oink_at_solver_entry : Oink :=
  match solveSelfloops 10 (Oink_new game_side_loop (Solvers_id "epq")
                             false false false true true true false) with
  | Ok (_, o) => set_disabled o (solved (game o))
  | _ => oink_of game_side_loop "epq"
  end.

(** The game on which the trivial-cycle search meets a vertex disabled
    earlier in the same call; priorities ascend with the index. *)
Definition game_late_disabled : Game :=
  mkGame 5 [0; 1; 1; 0; 0] [0; 0; 1; 2; 3]
    [[3]; [3]; [4; 1]; [0]; [2]]%nat [[3]; [2]; [4]; [0; 1]; [2]]%nat
    (replicate 5 false) (replicate 5 0) (replicate 5 (-1)).

Definition oink_late_disabled : Oink :=
  Oink_new game_late_disabled (Solvers_id "epq") false false false true true true false.

(** [Oink::getBottomSCC] returning the component [sel]; no remapping. *)
Definition select_scc (sel : list nat) : Externals :=
  mkExternals (fun g => g) (fun g => g) (fun g => g) (fun _ => sel).

(** The driver on [game_side_loop] with the bottom-SCC option and no
    reduction.  The game has two bottom components, {0,1} and {2}. *)
Definition oink_narrowing : Oink :=
  Oink_new game_side_loop (Solvers_id "epq") false false false false false false true.

(** The solver state in which vertex 0 of [game_alternation] is the
    target (category 1) and vertex 1 is in the base category 0. *)
Definition zs_target_zero : zsolver.state :=
  zsolver.mk 0 [1; 0] [0; 0] [] 2 ∅.

(** The solver after its run on [game_alternation] without memoisation. *)
Definition zs_alternation : zsolver.state :=
  default (zs_init game_alternation fresh_process).2
          (zs_solve 20 quick_priority game_alternation fresh_process).

(** The driver and the process after a memoising run on [game_alternation]. *)
Definition alternation_after_epqm : Oink * Process :=
  match ExperimentalSolver_run 20 (Z.lor quick_priority memoize)
          (oink_of game_alternation "epqm", fresh_process) with
  | Ok x => x
  | _ => (oink_of game_alternation "epqm", fresh_process)
  end.

(** Sixteen vertices with one edge each.  Vertices 1, 3, 5, 8 and 11
    carry a self-loop; vertex 3 (priority 0) is won by player 0, and so
    are vertex 2, which leads to 3, and vertex 4, which leads to 2; every
    other vertex leads to a self-loop of odd priority.  The vertices
    13, 14 and 15 have the three highest priorities, all even. *)
Definition game_ladder : Game :=
  mkGame 16
    [0; 1; 1; 0; 1; 1; 0; 1; 1; 0; 1; 1; 0; 0; 0; 0]
    [2; 1; 1; 0; 3; 5; 6; 7; 9; 10; 11; 13; 14; 16; 18; 20]
    [[1]; [1]; [3]; [3]; [2]; [5]; [5]; [0]; [8]; [8]; [0]; [11]; [11]; [0];
     [0]; [0]]%nat
    [[7; 10; 13; 14; 15]; [0; 1]; [4]; [2; 3]; []; [5; 6]; []; []; [8; 9];
     []; []; [11; 12]; []; []; []; []]%nat
    (replicate 16 false) (replicate 16 0) (replicate 16 (-1)).

(** The same construction one level higher, with each self-loop replaced
    by a cycle of two vertices of the same priority and every vertex
    owned by the player who does not have the parity of its priority, so
    that none of the reductions of the driver applies.  Vertices 3 and 21
    form a cycle of priority 0; player 0 wins 2, 3, 4 and 21. *)
Definition game_ladder_cycles : Game :=
  mkGame 26
    [1; 0; 0; 1; 0; 0; 1; 0; 0; 1; 0; 0; 1; 0; 0; 1; 1; 1; 1; 1; 0; 1; 0; 0;
     0; 0]
    [2; 1; 1; 0; 3; 5; 6; 7; 9; 10; 11; 13; 14; 15; 17; 18; 20; 22; 24; 26;
     1; 0; 5; 9; 13; 17]
    [[1]; [20]; [3]; [21]; [2]; [22]; [5]; [0]; [23]; [8]; [0]; [24]; [11];
     [0]; [25]; [14]; [0]; [0]; [0]; [0]; [1]; [3]; [5]; [8]; [11]; [14]]%nat
    [[7; 10; 13; 16; 17; 18; 19]; [0; 20]; [4]; [2; 21]; []; [6; 22]; []; [];
     [9; 23]; []; []; [12; 24]; []; []; [15; 25]; []; []; []; []; []; [1];
     [3]; [5]; [8]; [11]; [14]]%nat
    (replicate 26 false) (replicate 26 0) (replicate 26 (-1)).

(** A game on which memoisation costs iterations. *)
Definition game_memo_iters : Game :=
  mkGame 6
    [1; 0; 0; 1; 0; 1]
    [2; 2; 1; 4; 6; 1]
    [[0; 3]; [5]; [1; 2]; [2]; [3]; [5]]%nat
    [[0]; [2]; [2; 3]; [0; 4]; []; [1; 5]]%nat
    (replicate 6 false) (replicate 6 0) (replicate 6 (-1)).

(** A game on which memoisation changes a strategy: vertex 3, of
    player 1, can stay on its self-loop or move to vertex 4. *)
Definition game_memo_strategy : Game :=
  mkGame 10
    [0; 0; 0; 1; 1; 1; 0; 0; 1; 1]
    [16; 12; 14; 7; 1; 2; 4; 5; 9; 11]
    [[0]; [1]; [5]; [3; 4]; [4]; [4]; [6]; [6]; [8]; [9]]%nat
    [[0]; [1]; []; [3]; [3; 4; 5]; [2]; [6; 7]; []; [8]; [9]]%nat
    (replicate 10 false) (replicate 10 0) (replicate 10 (-1)).

(** Membership in a list given by its elements. *)
Ltac mem_cases H :=
  repeat (apply elem_of_cons in H as [H|H]; [subst|]);
  try (by apply elem_of_nil in H).

(** ** Vocabulary of the further properties *)

(** [g] has the vertices of [g0], and a vertex decided in [g0] is
    decided in [g] with the same winner and strategy. *)
Definition solution_kept (g0 g : Game) : Prop :=
  n_nodes g = n_nodes g0 ∧
  ∀ v, bat (solved g0) v = true →
       bat (solved g) v = true ∧
       zat (winner g) v = zat (winner g0) v ∧
       zat (strategy g) v = zat (strategy g0) v.

(** Number of vertices not decided yet. *)
Definition unsolved_count (g : Game) : nat :=
  length (filter (fun v => bat (solved g) v = false) (seq 0 (n_nodes g))).

(** What bounds the turns of the loop of [Oink::flush]: a turn pops one
    vertex, and a push comes with a vertex becoming solved. *)
Definition flush_measure (o : Oink) : nat :=
  (length (todo o) + unsolved_count (game o))%nat.

(** What the loop of [Oink::flush] reads besides [todo] and the
    solution. *)
Definition flush_shape (o0 o : Oink) : Prop :=
  n_nodes (game o) = n_nodes (game o0) ∧ in_ (game o) = in_ (game o0) ∧
  length (solved (game o)) = length (solved (game o0)).

(** An enabled vertex with an edge to itself, as [solveSelfloops] tests
    it. *)
Definition has_selfloop (o : Oink) (v : nat) : bool :=
  negb (bat (disabled o) v) && bool_decide (v ∈ adj (out (game o)) v).

(** What [solveSelfloops] keeps while the vertices of [l] are still to
    be visited: they are as in [o0]; and the shape that [flush] relies
    on. *)
Record SelfloopInv (o0 : Oink) (l : list nat) (o : Oink) : Prop := mkSelfloopInv {
  sl_rest : ∀ v, v ∈ l →
              bat (disabled o) v = bat (disabled o0) v ∧
              adj (out (game o)) v = adj (out (game o0)) v ∧
              bat (solved (game o)) v = bat (solved (game o0)) v;
  sl_n : n_nodes (game o) = n_nodes (game o0);
  sl_lsolved : length (solved (game o)) = n_nodes (game o0);
  sl_in : ∀ v u, u ∈ adj (in_ (game o)) v → u ∈ adj (in_ (game o0)) v;
  sl_measure : flush_measure o = flush_measure o0 }.

(** The invariant of [solveSingleParity] on the input game [g0] whose
    priorities all have parity [parity]: what is decided is won by
    [parity], with an edge as strategy where the vertex is the winner's. *)
Record ParityWon (g0 : Game) (parity : Z) (o : Oink) : Prop := mkParityWon {
  pw_n : n_nodes (game o) = n_nodes g0;
  pw_owner : owner (game o) = owner g0;
  pw_out : out (game o) = out g0;
  pw_in : in_ (game o) = in_ g0;
  pw_lsolved : length (solved (game o)) = n_nodes g0;
  pw_lwinner : length (winner (game o)) = n_nodes g0;
  pw_lstrategy : length (strategy (game o)) = n_nodes g0;
  pw_ldisabled : length (disabled o) = n_nodes g0;
  pw_dis : ∀ v, bat (disabled o) v = bat (solved (game o)) v;
  pw_todo : ∀ v, v ∈ todo o → decided o v;
  pw_win : ∀ v, decided o v →
             zat (winner (game o)) v = parity ∧
             (zat (owner g0) v = parity →
                ∃ w, w ∈ adj (out g0) v ∧ zat (strategy (game o)) v = Z.of_nat w) }.

(** The solver's counters are idle: no entry of [degs] is positive. *)
Definition degs_idle (s : zsolver.state) : Prop := ∀ w, zat (zsolver.degs s) w ≤ 0.

(** From [s] to [s'] the labels and strategies outside [vs] stay as they
    are, and idle counters are idle again. *)
Record Frame (vs : list nat) (s s' : zsolver.state) : Prop := mkFrame {
  fr_vtype : ∀ w, w ∉ vs → zat (zsolver.vtype s') w = zat (zsolver.vtype s) w;
  fr_strategy : ∀ w, w ∉ vs → zat (zsolver.strategy s') w = zat (zsolver.strategy s) w;
  fr_degs : degs_idle s → degs_idle s' }.

(** The invariant of the loops of [zsolver::attractor], entered from
    [s0], on the vertices outside [vs]. *)
Definition outside_kept (vs : list nat) (s0 s : zsolver.state) : Prop :=
  ∀ w, w ∉ vs →
       zat (zsolver.degs s) w ≤ 0 ∧
       zat (zsolver.vtype s) w = zat (zsolver.vtype s0) w ∧
       zat (zsolver.strategy s) w = zat (zsolver.strategy s0) w.

(** Vertex 0 is odd's with an even priority, vertex 1 even's with an odd
    one: no vertex belongs to the player its priority favours. *)
Definition game_opposed : Game :=
  mkGame 2 [1; 0] [2; 1] [[1]; [0]]%nat [[1]; [0]]%nat [false; false] [0; 0] [-1; -1].

(** The driver on [game_alternation] after vertex 0 has been decided for
    player 0 with the edge to vertex 1, before the flush. *)
Definition oink_pending : Oink :=
  match solve 0 0 1 (oink_of game_alternation "epq") with
  | Ok o => o
  | _ => oink_of game_alternation "epq"
  end.

(** A solver state on a two-vertex game in which vertex 0 is in the base
    category 0 and vertex 1 carries the label 5 of an enclosing frame. *)
Definition zs_outside : zsolver.state := zsolver.mk 0 [0; 5] [7; 8] [] 6 ∅.

Ltac zs_simpl :=
  cbn [fst snd zsolver.degs zsolver.vtype zsolver.strategy zsolver.iters zsolver.memo
       zsolver.last_category zsolver.set_degs zsolver.set_vtype zsolver.set_strategy
       zsolver.set_iters zsolver.set_memo zsolver.set_last_category] in *.


(** * Lemmas on the arrays and on counting *)

(** ** Reading and writing arrays *)

Lemma zat_insert_eq (l : list Z) (i : nat) (x : Z) :
  (i < length l)%nat → zat (<[i := x]> l) i = x.
Proof. intros H. unfold zat. by rewrite list_lookup_insert_eq. Qed.

Lemma zat_insert_ne (l : list Z) (i j : nat) (x : Z) :
  i ≠ j → zat (<[i := x]> l) j = zat l j.
Proof. intros H. unfold zat. by rewrite list_lookup_insert_ne. Qed.

Lemma bat_insert_eq (l : list bool) (i : nat) (x : bool) :
  (i < length l)%nat → bat (<[i := x]> l) i = x.
Proof. intros H. unfold bat. by rewrite list_lookup_insert_eq. Qed.

Lemma bat_insert_ne (l : list bool) (i j : nat) (x : bool) :
  i ≠ j → bat (<[i := x]> l) j = bat l j.
Proof. intros H. unfold bat. by rewrite list_lookup_insert_ne. Qed.

Lemma bat_insert_true (l : list bool) (i j : nat) :
  bat l j = true → bat (<[i := true]> l) j = true.
Proof.
  intros H. destruct (decide (i = j)) as [->|Hne]; [|by rewrite bat_insert_ne].
  destruct (decide (j < length l)%nat); [by rewrite bat_insert_eq|].
  by rewrite list_insert_ge by lia.
Qed.

Lemma zat_ge (l : list Z) (i : nat) : (length l ≤ i)%nat → zat l i = 0.
Proof. intros H. unfold zat. by rewrite lookup_ge_None_2. Qed.

Lemma bat_true_lt (l : list bool) (i : nat) : bat l i = true → (i < length l)%nat.
Proof.
  unfold bat. intros H. destruct (l !! i) eqn:E; [|done].
  by apply lookup_lt_Some in E.
Qed.

Lemma zat_replicate (n i : nat) (x : Z) : (i < n)%nat → zat (replicate n x) i = x.
Proof. intros H. unfold zat. by rewrite lookup_replicate_2. Qed.

Lemma bat_replicate_false (n i : nat) : bat (replicate n false) i = false.
Proof.
  unfold bat. destruct (replicate n false !! i) eqn:E; [|done].
  by apply lookup_replicate in E as [-> _].
Qed.

(** ** Counting with an [int] counter *)

Lemma zcount_acc (f : nat → bool) (l : list nat) (a : Z) :
  fold_left (fun d w => if f w then d + 1 else d) l a = a + zcount f l.
Proof.
  unfold zcount. revert a. induction l as [|x l IH]; intros a; simpl; [lia|].
  rewrite IH, (IH (if f x then 0 + 1 else 0)). destruct (f x); lia.
Qed.

Lemma zcount_nil (f : nat → bool) : zcount f [] = 0.
Proof. done. Qed.

Lemma zcount_cons (f : nat → bool) (x : nat) (l : list nat) :
  zcount f (x :: l) = (if f x then 1 else 0) + zcount f l.
Proof. unfold zcount at 1. simpl. rewrite zcount_acc. destruct (f x); lia. Qed.

Lemma zcount_app (f : nat → bool) (l1 l2 : list nat) :
  zcount f (l1 ++ l2) = zcount f l1 + zcount f l2.
Proof.
  induction l1 as [|x l1 IH]; simpl; [rewrite zcount_nil; lia|].
  rewrite !zcount_cons, IH. lia.
Qed.

Lemma zcount_nonneg (f : nat → bool) (l : list nat) : 0 ≤ zcount f l.
Proof.
  induction l as [|x l IH]; [done|]. rewrite zcount_cons. destruct (f x); lia.
Qed.

Lemma zcount_ext (f h : nat → bool) (l : list nat) :
  (∀ x, x ∈ l → f x = h x) → zcount f l = zcount h l.
Proof.
  induction l as [|x l IH]; intros H; [done|].
  rewrite !zcount_cons, IH, (H x) by (intros; first [apply H; by right | by left]). done.
Qed.

Lemma zcount_zero (f : nat → bool) (l : list nat) :
  zcount f l = 0 → ∀ x, x ∈ l → f x = false.
Proof.
  induction l as [|y l IH]; intros H x Hx; [by apply elem_of_nil in Hx|].
  rewrite zcount_cons in H. pose proof (zcount_nonneg f l).
  apply elem_of_cons in Hx as [->|Hx].
  - destruct (f y); [lia|done].
  - apply IH; [destruct (f y); lia|done].
Qed.

Lemma zcount_pos (f : nat → bool) (l : list nat) :
  0 < zcount f l → ∃ x, x ∈ l ∧ f x = true.
Proof.
  induction l as [|y l IH]; intros H; [rewrite zcount_nil in H; lia|].
  rewrite zcount_cons in H. destruct (f y) eqn:E.
  - exists y. split; [by left|done].
  - destruct IH as (x & Hx & Hfx); [lia|]. exists x. split; [by right|done].
Qed.

Lemma zcount_le (f h : nat → bool) (l : list nat) :
  (∀ x, f x = true → h x = true) → zcount f l ≤ zcount h l.
Proof.
  intros H. induction l as [|y l IH]; [done|]. rewrite !zcount_cons.
  destruct (f y) eqn:E; [rewrite (H _ E); lia|destruct (h y); lia].
Qed.

Lemma zcount_le_eq (f h : nat → bool) (l : list nat) :
  (∀ x, f x = true → h x = true) → zcount h l ≤ zcount f l →
  ∀ x, x ∈ l → h x = true → f x = true.
Proof.
  intros H. induction l as [|y l IH]; intros Hle x Hx Hh; [by apply elem_of_nil in Hx|].
  rewrite !zcount_cons in Hle. pose proof (zcount_le f h l H) as Hl.
  apply elem_of_cons in Hx as [->|Hx].
  - destruct (f y) eqn:E; [done|]. rewrite Hh in Hle. lia.
  - apply IH; [|done|done]. destruct (f y) eqn:E; [rewrite (H _ E) in Hle; lia|].
    destruct (h y); lia.
Qed.

Lemma zcount_split (P : list nat) (v : nat) (l : list nat) :
  v ∉ P →
  zcount (fun x => bool_decide (x ∈ v :: P)) l =
  zcount (fun x => bool_decide (x ∈ P)) l + zcount (fun x => bool_decide (x = v)) l.
Proof.
  intros Hv. induction l as [|y l IH]; [done|]. rewrite !zcount_cons, IH.
  destruct (decide (y = v)) as [->|Hne].
  - rewrite (bool_decide_eq_true_2 (v ∈ v :: P)) by (by left).
    rewrite (bool_decide_eq_false_2 (v ∈ P)) by done.
    rewrite (bool_decide_eq_true_2 (v = v)) by done. lia.
  - rewrite (bool_decide_eq_false_2 (y = v)) by done.
    destruct (decide (y ∈ P)) as [Hy|Hy].
    + rewrite (bool_decide_eq_true_2 (y ∈ P)) by done.
      rewrite (bool_decide_eq_true_2 (y ∈ v :: P)) by (by right). lia.
    + rewrite (bool_decide_eq_false_2 (y ∈ P)) by done.
      rewrite (bool_decide_eq_false_2 (y ∈ v :: P)); [lia|].
      intros [?|?]%elem_of_cons; done.
Qed.


(** * The single-parity reduction declines *)

Lemma land1_cases (x : Z) : Z.land x 1 = 0 ∨ Z.land x 1 = 1.
Proof.
  assert (H : Z.land x 1 = x `mod` 2) by (apply (Z.land_ones x 1); lia).
  rewrite H. pose proof (Z.mod_pos_bound x 2 ltac:(lia)). lia.
Qed.

Section Scan.
Variables (g : Game) (dis : list bool).

Local Abbreviation en := (unmasked dis).

Lemma single_scan_from_parity (ixs : list nat) (p : Z) :
  p ≠ -1 →
  match single_scan g dis ixs p with
  | Some q => q = p ∧ ∀ i, i ∈ ixs → en i → parity_of g i = p
  | None => ∃ i, i ∈ ixs ∧ en i ∧ parity_of g i ≠ p
  end.
Proof.
  intros Hp. induction ixs as [|i ixs IH]; simpl.
  - split; [done|]. intros i Hi. by apply elem_of_nil in Hi.
  - destruct (bat dis i) eqn:Hd.
    + destruct (single_scan g dis ixs p) as [q|].
      * destruct IH as [-> IH]. split; [done|]. intros j Hj Hen.
        apply elem_of_cons in Hj as [->|Hj]; [unfold unmasked in Hen; congruence|auto].
      * destruct IH as (j & Hj & Hen & Hne). exists j. split; [by right|done].
    + destruct (Z.eqb_spec p (-1)) as [|_]; [done|].
      fold (parity_of g i). destruct (Z.eqb_spec p (parity_of g i)) as [Heq|Hne].
      * destruct (single_scan g dis ixs p) as [q|].
        -- destruct IH as [-> IH]. split; [done|]. intros j Hj Hen.
           apply elem_of_cons in Hj as [->|Hj]; auto.
        -- destruct IH as (j & Hj & Hen & Hne). exists j. split; [by right|done].
      * exists i. split; [by left|]. split; [done|congruence].
Qed.

Lemma single_scan_spec (ixs : list nat) :
  match single_scan g dis ixs (-1) with
  | Some q =>
      (q = -1 ∧ ∀ i, i ∈ ixs → ¬ en i) ∨
      ((q = 0 ∨ q = 1) ∧ (∃ i, i ∈ ixs ∧ en i) ∧ ∀ i, i ∈ ixs → en i → parity_of g i = q)
  | None => ∃ i j, i ∈ ixs ∧ j ∈ ixs ∧ en i ∧ en j ∧ parity_of g i ≠ parity_of g j
  end.
Proof.
  induction ixs as [|i ixs IH]; simpl.
  - left. split; [done|]. intros i Hi. by apply elem_of_nil in Hi.
  - destruct (bat dis i) eqn:Hd.
    + destruct (single_scan g dis ixs (-1)) as [q|].
      * destruct IH as [[-> IH]|(Hq & (j & Hj & Hen) & IH)].
        -- left. split; [done|]. intros j Hj.
           apply elem_of_cons in Hj as [->|Hj]; [unfold unmasked; congruence|auto].
        -- right. split; [done|]. split; [exists j; split; [by right|done]|].
           intros k Hk Hen'. apply elem_of_cons in Hk as [->|Hk];
             [unfold unmasked in Hen'; congruence|auto].
      * destruct IH as (a & b & Ha & Hb & ?). exists a, b.
        split; [by right|]. split; [by right|done].
    + fold (parity_of g i).
      assert (Hp : parity_of g i ≠ -1)
        by (unfold parity_of; destruct (land1_cases (zat (priority g) i)); lia).
      pose proof (single_scan_from_parity ixs _ Hp) as Hs.
      destruct (single_scan g dis ixs (parity_of g i)) as [q|].
      * destruct Hs as [-> Hs]. right.
        split; [unfold parity_of; apply land1_cases|].
        split; [exists i; split; [by left|done]|].
        intros j Hj Hen. apply elem_of_cons in Hj as [->|Hj]; auto.
      * destruct Hs as (j & Hj & Hen & Hne). exists j, i.
        split; [by right|]. split; [by left|]. done.
Qed.
End Scan.

(** C10: [solveSingleParity] returns false, and in that case leaves the
    driver state as it found it, exactly when no vertex is enabled (in
    range and with [disabled] false) or two enabled vertices have
    priorities of different parity; the [disabled] array alone decides
    which vertices are looked at. *)
Theorem solveSingleParity_false (fuel : nat) (o : Oink) :
  ((∃ o', solveSingleParity fuel o = Ok (false, o')) ↔
   ((∀ i, ¬ enabled o i) ∨
    (∃ i j, enabled o i ∧ enabled o j ∧ parity_of (game o) i ≠ parity_of (game o) j)))
  ∧ (∀ o', solveSingleParity fuel o = Ok (false, o') →
       o' = o ∧ game o' = game o ∧ disabled o' = disabled o ∧ outcount o' = outcount o).
Proof.
  assert (Hin : ∀ i, i ∈ seq 0 (n_nodes (game o)) ↔ (i < n_nodes (game o))%nat)
    by (intros i; rewrite elem_of_seq; lia).
  pose proof (single_scan_spec (game o) (disabled o) (seq 0 (n_nodes (game o)))) as Hs.
  unfold solveSingleParity.
  destruct (single_scan (game o) (disabled o) (seq 0 (n_nodes (game o))) (-1)) as [q|].
  - destruct Hs as [[-> Hnone]|(Hq & (k & Hk & Hen) & Hall)].
    + simpl. split; [|by intros o' [= <-]].
      split; [intros _|by eauto]. left. intros i [Hi Hd]. apply (Hnone i); [by apply Hin|done].
    + assert (Hq' : (q =? 0) || (q =? 1) = true) by (destruct Hq as [-> | ->]; done).
      rewrite Hq'. split.
      * split.
        -- intros [o' Ho']. exfalso.
           destruct (single_assign q _ o) as [o1| | |]; simpl in Ho'; try done.
           destruct (flush fuel o1); simpl in Ho'; done.
        -- intros [Hnone|(i & j & [Hi Hdi] & [Hj Hdj] & Hne)].
           ++ exfalso. apply (Hnone k). split; [by apply Hin|done].
           ++ exfalso. apply Hne.
              rewrite (Hall i), (Hall j); try done; by apply Hin.
      * intros o' Ho'. exfalso.
        destruct (single_assign q _ o) as [o1| | |]; simpl in Ho'; try done.
        destruct (flush fuel o1); simpl in Ho'; done.
  - split; [|by intros o' [= <-]].
    split; [intros _|by eauto]. right.
    destruct Hs as (i & j & Hi & Hj & Hei & Hej & Hne).
    exists i, j. split; [split; [by apply Hin|done]|]. split; [split; [by apply Hin|done]|done].
Qed.


(** * The attractor *)

Lemma Attr_in_vs g vs p T v : Attr g vs p T v → v ∈ vs.
Proof. by destruct 1. Qed.

Lemma zcount_eq_pos (v : nat) (l : list nat) :
  v ∈ l ↔ 0 < zcount (fun x => bool_decide (x = v)) l.
Proof.
  split.
  - induction l as [|y l IH]; intros H; [by apply elem_of_nil in H|].
    rewrite zcount_cons. pose proof (zcount_nonneg (fun x => bool_decide (x = v)) l).
    apply elem_of_cons in H as [->|H].
    + rewrite bool_decide_eq_true_2 by done. lia.
    + specialize (IH H). case_bool_decide; lia.
  - intros H. apply zcount_pos in H as (x & Hx & Hb).
    apply bool_decide_eq_true in Hb. by subst.
Qed.

Lemma in_out g : graph_wf g → ∀ v w, w ∈ adj (in_ g) v ↔ v ∈ adj (out g) w.
Proof. intros Hwf v w. rewrite !zcount_eq_pos, (gw_in_out g Hwf). done. Qed.

Lemma zcount_snoc_set (P : list nat) (v : nat) (l : list nat) :
  v ∉ P →
  zcount (fun x => bool_decide (x ∈ P ++ [v])) l =
  zcount (fun x => bool_decide (x ∈ P)) l + zcount (fun x => bool_decide (x = v)) l.
Proof.
  intros Hv. rewrite <- zcount_split by done. apply zcount_ext. intros x _.
  apply bool_decide_ext. rewrite elem_of_app, list_elem_of_singleton, elem_of_cons. tauto.
Qed.

(** Decrements applied to [w] after processing the vertices of [P]. *)
Lemma zcount_processed g (Hwf : graph_wf g) (P : list nat) (w : nat) :
  NoDup P →
  zcount (fun x => bool_decide (x = w)) (concat (map (adj (in_ g)) P)) =
  zcount (fun x => bool_decide (x ∈ P)) (adj (out g) w).
Proof.
  induction P as [|v P IH] using rev_ind; intros Hnd.
  - simpl. rewrite zcount_nil. symmetry.
    apply Z.le_antisymm; [|apply zcount_nonneg]. apply Z.nlt_ge. intros H.
    apply zcount_pos in H as (x & _ & Hb). discriminate Hb.
  - apply NoDup_app in Hnd as (Hnd & Hdisj & _).
    rewrite map_app, concat_app, zcount_app, IH by done. simpl. rewrite app_nil_r.
    rewrite zcount_snoc_set; [|intros Hv; apply (Hdisj v Hv); by left].
    by rewrite (gw_in_out g Hwf).
Qed.

Section AttractorProof.

Variables (g : Game) (vs : list nat) (whose cat_no cat_yes : Z) (s0 : zsolver.state).
Hypothesis Hwf : graph_wf g.
Hypothesis Hvs : ∀ v, v ∈ vs → (v < n_nodes g)%nat.

Local Abbreviation T := (is_target s0 cat_yes).
Local Abbreviation A := (Attr g vs whose T).
Local Abbreviation cvs := (succs_in g vs).
Local Abbreviation Inv := (AttrInv g vs whose cat_yes s0).

Lemma hits_snoc_ne (w w' : nat) (E : list nat) : w' ≠ w → hits w' (E ++ [w]) = hits w' E.
Proof.
  intros H. unfold hits. rewrite zcount_app, zcount_cons, zcount_nil.
  rewrite bool_decide_eq_false_2 by congruence. lia.
Qed.

Lemma hits_snoc_eq (w : nat) (E : list nat) : hits w (E ++ [w]) = hits w E + 1.
Proof.
  unfold hits. rewrite zcount_app, zcount_cons, zcount_nil.
  rewrite bool_decide_eq_true_2 by done. lia.
Qed.

(** A decrement that does not reach zero. *)
Lemma edge_skip (aq E : list nat) (s : zsolver.state) (w : nat) :
  Inv aq E s → (w < n_nodes g)%nat →
  zat (zsolver.degs s) w - 1 ≠ 0 →
  (w ∈ vs → w ∉ aq → zat (owner g) w ≠ whose) →
  Inv aq (E ++ [w])
      (zsolver.set_degs s (<[w := zat (zsolver.degs s) w - 1]> (zsolver.degs s))).
Proof.
  intros HI Hw Hd Hown. destruct HI. constructor; simpl; try done.
  - by rewrite length_insert.
  - intros w' Hvs' Haq' Ho'. destruct (decide (w' = w)) as [->|Hne].
    { exfalso. by apply Hown. }
    rewrite zat_insert_ne by done. destruct (inv_deg_own0 w' Hvs' Haq' Ho') as [H1 H2].
    split; [done|]. rewrite elem_of_app, list_elem_of_singleton. tauto.
  - intros w' Hvs' Haq' Ho'. destruct (inv_deg_opp0 w' Hvs' Haq' Ho') as [H1 H2].
    destruct (decide (w' = w)) as [->|Hne].
    + rewrite zat_insert_eq by lia. rewrite hits_snoc_eq. split; [lia|].
      destruct H2 as [H2|H2]; [left; lia|by right].
    + rewrite zat_insert_ne by done. rewrite hits_snoc_ne by done. done.
  - intros w' Hn' Hvs'. destruct (decide (w' = w)) as [->|Hne].
    + rewrite zat_insert_eq by lia. specialize (inv_deg_out0 w Hn' Hvs'). lia.
    + rewrite zat_insert_ne by done. auto.
  - intros w' Haq'. destruct (decide (w' = w)) as [->|Hne].
    + rewrite zat_insert_eq by lia. specialize (inv_deg_in0 w Haq'). lia.
    + rewrite zat_insert_ne by done. auto.
Qed.

(** A decrement that reaches zero attracts the vertex. *)
Lemma edge_attract (aq E : list nat) (s : zsolver.state) (v w : nat) :
  Inv aq E s → (w < n_nodes g)%nat → v ∈ aq → v ∈ adj (out g) w →
  w ∈ vs → w ∉ aq →
  zat (zsolver.degs s) w - 1 = 0 →
  (zat (owner g) w ≠ whose → ∀ x, x ∈ adj (out g) w → x ∈ vs → x ∈ aq) →
  Inv (aq ++ [w]) (E ++ [w])
    (zsolver.set_strategy
       (zsolver.set_vtype
          (zsolver.set_degs s (<[w := zat (zsolver.degs s) w - 1]> (zsolver.degs s)))
          (<[w := cat_yes]> (zsolver.vtype s)))
       (<[w := if zat (owner g) w =? whose then Z.of_nat v else -1]> (zsolver.strategy s))).
Proof.
  intros HI Hw Hv Hvw Hwvs Hwaq Hd Hall. destruct HI.
  assert (HnT : ¬ T w) by (intros HT; apply Hwaq; by apply inv_target0).
  assert (Hin : ∀ x, x ∈ aq ++ [w] ↔ x ∈ aq ∨ x = w)
    by (intros x; rewrite elem_of_app, list_elem_of_singleton; done).
  constructor; simpl.
  - apply NoDup_app. split; [done|]. split; [|apply NoDup_singleton].
    intros x Hx Hx'. apply list_elem_of_singleton in Hx'. by subst.
  - intros x Hx. apply Hin in Hx as [Hx| ->]; auto.
  - by rewrite length_insert.
  - by rewrite length_insert.
  - by rewrite length_insert.
  - intros v'. destruct (decide (v' = w)) as [->|Hne].
    + rewrite zat_insert_eq by lia. rewrite bool_decide_eq_true_2; [done|]. apply Hin; by right.
    + rewrite zat_insert_ne by done. rewrite inv_vtype0.
      destruct (decide (v' ∈ aq)) as [Hm|Hm].
      * rewrite !bool_decide_eq_true_2; [done| |done]. apply Hin; by left.
      * rewrite !bool_decide_eq_false_2; [done| |done]. rewrite Hin. tauto.
  - intros v' Hv'. apply Hin in Hv' as [Hv'| ->]; [auto|].
    destruct (decide (zat (owner g) w = whose)) as [Ho|Ho].
    + apply (Attr_own g vs whose T w v); [done|done|done|by apply inv_sound0].
    + apply Attr_opp; [done|done| |].
      * destruct (inv_deg_opp0 w Hwvs Hwaq Ho) as [H1 [H2|H2]].
        -- assert (Hc : 0 < cvs w).
           { pose proof (zcount_nonneg (fun x => bool_decide (x = w)) E).
             unfold hits in H1. lia. }
           apply zcount_pos in Hc as (x & Hx & Hb). apply bool_decide_eq_true in Hb. eauto.
        -- pose proof (zcount_nonneg (fun x => bool_decide (x = w)) E).
           unfold hits in H1. lia.
      * intros x Hx Hxvs. apply inv_sound0. by apply Hall.
  - intros v' Hv' HT. apply Hin. left. by apply inv_target0.
  - intros v' Hv'. assert (v' ≠ w) as Hne.
    { intros ->. destruct Hv' as [Hv'|Hv']; [apply Hv', Hin; by right|done]. }
    rewrite zat_insert_ne by done. apply inv_strat_old0.
    destruct Hv' as [Hv'|Hv']; [left; intros ?; apply Hv', Hin; by left|by right].
  - intros j v' Hj HT. apply lookup_app_Some in Hj as [Hj|[Hlen Hj]].
    + assert (v' ≠ w) as Hne by (intros ->; apply Hwaq; by eapply list_elem_of_lookup_2).
      rewrite zat_insert_ne by done. destruct (inv_strat_new0 j v' Hj HT) as [H1 H2].
      split; [|done]. intros Ho. destruct (H1 Ho) as (k & x & Hk & Hkx & Hx & Hs).
      exists k, x. split; [done|]. split; [by apply lookup_app_l_Some|done].
    + apply list_lookup_singleton_Some in Hj as [Hj ->].
      rewrite zat_insert_eq by lia. split.
      * intros Ho. apply list_elem_of_lookup in Hv as [k Hk]. exists k, v.
        split; [apply lookup_lt_Some in Hk; lia|]. split; [by apply lookup_app_l_Some|].
        split; [done|]. by rewrite (proj2 (Z.eqb_eq _ _) Ho).
      * intros Ho. by rewrite (proj2 (Z.eqb_neq _ _) Ho).
  - intros w' Hvs' Haq' Ho'. assert (w' ≠ w) as Hne by (intros ->; apply Haq', Hin; by right).
    rewrite zat_insert_ne by done.
    destruct (inv_deg_own0 w' Hvs') as [H1 H2]; [intros ?; apply Haq', Hin; by left|done|].
    split; [done|]. rewrite elem_of_app, list_elem_of_singleton. tauto.
  - intros w' Hvs' Haq' Ho'. assert (w' ≠ w) as Hne by (intros ->; apply Haq', Hin; by right).
    rewrite zat_insert_ne by done. rewrite hits_snoc_ne by done.
    apply inv_deg_opp0; [done| |done]. intros ?; apply Haq', Hin; by left.
  - intros w' Hn' Hvs'. assert (w' ≠ w) as Hne by (intros ->; done).
    rewrite zat_insert_ne by done. auto.
  - intros w' Haq'. apply Hin in Haq' as [Haq'| ->].
    + assert (w' ≠ w) as Hne by (intros ->; done). rewrite zat_insert_ne by done. auto.
    + rewrite zat_insert_eq by lia. lia.
  - done.
  - done.
  - done.
Qed.

(** One predecessor edge: the body of the inner loop. *)
Lemma edge_step (aq E Pc : list nat) (s : zsolver.state) (v w : nat) (acc : list nat) :
  Inv aq E s → v ∈ aq → w ∈ adj (in_ g) v →
  (∀ x, x ∈ Pc → x ∈ aq) →
  hits w (E ++ [w]) ≤ zcount (fun x => bool_decide (x ∈ Pc)) (adj (out g) w) →
  ∃ new s',
    zsolver.attr_edge g whose cat_yes v (s, acc) w = (s', acc ++ new) ∧
    Inv (aq ++ new) (E ++ [w]) s'.
Proof.
  intros HI Hv Hw HPc Hb.
  assert (Hwn : (w < n_nodes g)%nat) by (by eapply gw_in_range).
  assert (Hvw : v ∈ adj (out g) w) by (by apply in_out).
  unfold zsolver.attr_edge. simpl.
  destruct (Z.eqb_spec (zat (zsolver.degs s) w - 1) 0) as [Hd|Hd].
  - assert (Hwvs : w ∈ vs).
    { destruct (decide (w ∈ vs)) as [|Hn]; [done|].
      pose proof (inv_deg_out _ _ _ _ _ _ _ _ HI w Hwn Hn). lia. }
    assert (Hwaq : w ∉ aq).
    { intros Hin. pose proof (inv_deg_in _ _ _ _ _ _ _ _ HI w Hin). lia. }
    exists [w]. eexists. split; [reflexivity|].
    apply edge_attract; try done.
    intros Ho x Hx Hxvs. apply HPc.
    destruct (inv_deg_opp _ _ _ _ _ _ _ _ HI w Hwvs Hwaq Ho) as [H1 _].
    rewrite hits_snoc_eq in Hb.
    assert (Hle : cvs w ≤ zcount (fun x => bool_decide (x ∈ Pc)) (adj (out g) w)) by lia.
    pose (f := fun y : nat => bool_decide (y ∈ Pc)).
    pose (h := fun y : nat => bool_decide (y ∈ vs)).
    assert (Hx' : f x = true).
    { apply (zcount_le_eq f h (adj (out g) w)); [|done|done|by apply bool_decide_eq_true_2].
      intros y Hy. apply bool_decide_eq_true_1 in Hy. apply bool_decide_eq_true_2.
      by apply (inv_sub _ _ _ _ _ _ _ _ HI), HPc. }
    by apply bool_decide_eq_true_1 in Hx'.
  - exists []. eexists. split; [by rewrite app_nil_r|]. rewrite app_nil_r.
    apply edge_skip; try done.
    intros Hwvs Hwaq Ho. destruct (inv_deg_own _ _ _ _ _ _ _ _ HI w Hwvs Hwaq Ho) as [H1 _]. lia.
Qed.

Lemma hits_mono (w : nat) (E1 E2 : list nat) : hits w E1 ≤ hits w (E1 ++ E2).
Proof.
  unfold hits. rewrite zcount_app.
  pose proof (zcount_nonneg (fun x => bool_decide (x = w)) E2). lia.
Qed.

Lemma edges_fold (Pc : list nat) (v : nat) (rem : list nat) :
  ∀ (aq E : list nat) (s : zsolver.state) (acc : list nat),
  Inv aq E s → v ∈ aq → (∀ x, x ∈ rem → x ∈ adj (in_ g) v) →
  (∀ x, x ∈ Pc → x ∈ aq) →
  (∀ w, hits w (E ++ rem) ≤ zcount (fun x => bool_decide (x ∈ Pc)) (adj (out g) w)) →
  ∃ new s',
    fold_left (zsolver.attr_edge g whose cat_yes v) rem (s, acc) = (s', acc ++ new) ∧
    Inv (aq ++ new) (E ++ rem) s'.
Proof.
  induction rem as [|w rem IH]; intros aq E s acc HI Hv Hrem HPc Hb.
  - exists [], s. simpl. by rewrite !app_nil_r.
  - destruct (edge_step aq E Pc s v w acc HI Hv) as (new1 & s1 & Hstep & HI1).
    + apply Hrem. by left.
    + done.
    + etrans; [|apply (Hb w)].
      replace (E ++ w :: rem) with ((E ++ [w]) ++ rem) by (by rewrite <- app_assoc).
      apply hits_mono.
    + destruct (IH (aq ++ new1) (E ++ [w]) s1 (acc ++ new1) HI1) as (new2 & s2 & Hfold & HI2).
      * apply elem_of_app. by left.
      * intros x Hx. apply Hrem. by right.
      * intros x Hx. apply elem_of_app. left. by apply HPc.
      * intros w'. rewrite <- app_assoc. apply Hb.
      * exists (new1 ++ new2), s2. cbn [fold_left]. rewrite Hstep, Hfold.
        rewrite !app_assoc in *. split; [done|].
        replace ((E ++ [w]) ++ rem) with (E ++ w :: rem) in HI2
          by (by rewrite <- app_assoc). done.
Qed.

Lemma concat_map_snoc (P : list nat) (v : nat) :
  concat (map (adj (in_ g)) (P ++ [v])) = concat (map (adj (in_ g)) P) ++ adj (in_ g) v.
Proof. rewrite map_app, concat_app. simpl. by rewrite app_nil_r. Qed.

Lemma queue_bound (aq E : list nat) (s : zsolver.state) :
  Inv aq E s → (length aq ≤ length vs)%nat.
Proof.
  intros HI. apply submseteq_length, NoDup_submseteq; [apply HI|]. apply HI.
Qed.

(** The worklist loop: with fuel for the vertices not yet processed it
    ends with every queued vertex processed. *)
Lemma loop_inv (fuel : nat) :
  ∀ (P Q : list nat) (s : zsolver.state),
  Inv (P ++ Q) (concat (map (adj (in_ g)) P)) s →
  (length vs ≤ fuel + length P)%nat →
  ∃ P' s',
    zsolver.attr_loop g fuel whose cat_yes Q s = Some s' ∧
    Inv P' (concat (map (adj (in_ g)) P')) s'.
Proof.
  induction fuel as [|fuel IH]; intros P Q s HI Hlen.
  - destruct Q as [|v Q].
    + exists P, s. by rewrite app_nil_r in HI.
    + apply queue_bound in HI. rewrite length_app in HI. simpl in *. lia.
  - destruct Q as [|v Q].
    + exists P, s. by rewrite app_nil_r in HI.
    + simpl.
      assert (Hnd : NoDup (P ++ [v])).
      { pose proof (inv_nodup _ _ _ _ _ _ _ _ HI) as Hnd.
        replace (P ++ v :: Q) with ((P ++ [v]) ++ Q) in Hnd by (by rewrite <- app_assoc).
        by apply NoDup_app in Hnd as [? _]. }
      destruct (edges_fold (P ++ [v]) v (adj (in_ g) v) (P ++ v :: Q)
                  (concat (map (adj (in_ g)) P)) s [] HI) as (new & s1 & Hfold & HI1).
      * apply elem_of_app. right. by left.
      * done.
      * intros x Hx. apply elem_of_app in Hx as [Hx|Hx]; apply elem_of_app; [by left|].
        right. apply list_elem_of_singleton in Hx as ->. by left.
      * intros w. rewrite <- concat_map_snoc. unfold hits.
        rewrite (zcount_processed g Hwf) by done. done.
      * rewrite Hfold. simpl.
        apply (IH (P ++ [v]) (Q ++ new) s1).
        -- rewrite concat_map_snoc.
           replace ((P ++ [v]) ++ Q ++ new) with ((P ++ v :: Q) ++ new); [done|].
           rewrite <- !app_assoc. done.
        -- rewrite length_app. simpl. lia.
Qed.

(** When the queue is exhausted the attractor is complete. *)
Lemma inv_complete (P : list nat) (s : zsolver.state) :
  Inv P (concat (map (adj (in_ g)) P)) s → ∀ v, A v → v ∈ P.
Proof.
  intros HI v HA. induction HA as [v Hv HT|v w Hv Ho Hw _ IH|v Hv Ho [x0 [Hx0 Hx0vs]] _ IH].
  - by apply (inv_target _ _ _ _ _ _ _ _ HI).
  - destruct (decide (v ∈ P)) as [|Hn]; [done|]. exfalso.
    destruct (inv_deg_own _ _ _ _ _ _ _ _ HI v Hv Hn Ho) as [_ HE]. apply HE.
    apply list_elem_of_In, in_concat. exists (adj (in_ g) w). split.
    + apply in_map. by apply list_elem_of_In.
    + apply list_elem_of_In. by apply in_out.
  - destruct (decide (v ∈ P)) as [|Hn]; [done|]. exfalso.
    destruct (inv_deg_opp _ _ _ _ _ _ _ _ HI v Hv Hn Ho) as [H1 H2].
    unfold hits in H1. rewrite (zcount_processed g Hwf) in H1 by apply HI.
    assert (Heq : zcount (fun x => bool_decide (x ∈ P)) (adj (out g) v) = cvs v).
    { apply zcount_ext. intros x Hx. apply bool_decide_ext. split.
      - apply (inv_sub _ _ _ _ _ _ _ _ HI).
      - by apply IH. }
    assert (Hc : cvs v = 0) by lia.
    pose proof (zcount_zero _ _ Hc x0 Hx0) as Hf. simpl in Hf.
    by rewrite bool_decide_eq_true_2 in Hf.
Qed.

End AttractorProof.

Section AttractorSeed.

Variables (g : Game) (vs : list nat) (whose cat_no cat_yes : Z) (s : zsolver.state).

Local Abbreviation seedval := (seed_value g whose cat_no cat_yes s).

Lemma seed_fold (l : list nat) :
  ∀ (st : zsolver.state) (q : list nat),
  zsolver.vtype st = zsolver.vtype s →
  (∀ x, x ∈ l → (x < length (zsolver.degs st))%nat) →
  ∃ st',
    fold_left (zsolver.attr_seed g whose cat_no cat_yes) l (st, q) =
      (st', q ++ filter (fun v => zat (zsolver.vtype s) v = cat_yes) l) ∧
    zsolver.vtype st' = zsolver.vtype s ∧
    zsolver.strategy st' = zsolver.strategy st ∧
    zsolver.iters st' = zsolver.iters st ∧
    zsolver.last_category st' = zsolver.last_category st ∧
    zsolver.memo st' = zsolver.memo st ∧
    length (zsolver.degs st') = length (zsolver.degs st) ∧
    ∀ w, zat (zsolver.degs st') w =
         if bool_decide (w ∈ l ∧ zat (zsolver.vtype s) w ≠ cat_yes)
         then seedval w else zat (zsolver.degs st) w.
Proof.
  induction l as [|v l IH]; intros st q Hvt Hln.
  - exists st. simpl. rewrite app_nil_r.
    repeat split;
      first [done | intros w; rewrite bool_decide_eq_false_2; [done|];
                    intros [H _]; by apply elem_of_nil in H].
  - cbn [fold_left]. unfold zsolver.attr_seed at 2. rewrite Hvt.
    assert (Hv : (v < length (zsolver.degs st))%nat) by (apply Hln; by left).
    rewrite filter_cons.
    destruct (Z.eqb_spec (zat (zsolver.vtype s) v) cat_yes) as [Hy|Hy].
    + rewrite decide_True by done.
      destruct (IH st (q ++ [v]) Hvt) as (st' & Hf & H1 & H2 & H3 & H4 & H5 & H6 & H7).
      { intros x Hx. apply Hln. by right. }
      exists st'. rewrite Hf, <- app_assoc. repeat split; try done.
      intros w. rewrite H7. destruct (decide (w = v)) as [->|Hne].
      * rewrite !bool_decide_eq_false_2; [done| |]; intros [_ ?]; done.
      * apply (f_equal (fun b : bool => if b then seedval w else zat (zsolver.degs st) w)).
        apply bool_decide_ext. rewrite elem_of_cons.
           split; [intros [? ?]; split; [by right|done]|intros [[?|?] ?]; [done|by split]].
    + rewrite decide_False by done.
      set (st1 := if zat (owner g) v =? whose
                  then zsolver.set_degs st (<[v := 1]> (zsolver.degs st))
                  else zsolver.set_degs st (<[v := seedval v]> (zsolver.degs st))).
      assert (Hst1 : (if zat (owner g) v =? whose
                      then (zsolver.set_degs st (<[v := 1]> (zsolver.degs st)), q)
                      else (zsolver.set_degs st
                              (<[v := fold_left
                                   (fun d w => if (zat (zsolver.vtype s) w =? cat_no)
                                                  || (zat (zsolver.vtype s) w =? cat_yes)
                                               then d + 1 else d) (adj (out g) v) 0]>
                                 (zsolver.degs st)), q)) = (st1, q)).
      { unfold st1, seed_value. destruct (zat (owner g) v =? whose); done. }
      rewrite Hst1.
      assert (Hd1 : zsolver.degs st1 = <[v := seedval v]> (zsolver.degs st)).
      { unfold st1, seed_value. destruct (zat (owner g) v =? whose); done. }
      destruct (IH st1 q) as (st' & Hf & H1 & H2 & H3 & H4 & H5 & H6 & H7).
      { unfold st1. by destruct (zat (owner g) v =? whose). }
      { intros x Hx. rewrite Hd1, length_insert. apply Hln. by right. }
      exists st'. rewrite Hf.
      assert (Hst : zsolver.strategy st1 = zsolver.strategy st ∧
                    zsolver.iters st1 = zsolver.iters st ∧
                    zsolver.last_category st1 = zsolver.last_category st ∧
                    zsolver.memo st1 = zsolver.memo st)
        by (unfold st1; by destruct (zat (owner g) v =? whose)).
      destruct Hst as (E1 & E2 & E3 & E4).
      repeat split; try congruence.
      * rewrite H6, Hd1. by rewrite length_insert.
      * intros w. rewrite H7, Hd1. destruct (decide (w = v)) as [->|Hne].
        -- rewrite zat_insert_eq by done.
           rewrite (bool_decide_eq_true_2 (v ∈ v :: l ∧ _)); [|split; [by left|done]].
           by destruct (bool_decide _).
        -- rewrite zat_insert_ne by done.
           apply (f_equal (fun b : bool => if b then seedval w else zat (zsolver.degs st) w)).
           apply bool_decide_ext. rewrite elem_of_cons.
           split; [intros [? ?]; split; [by right|done]|intros [[?|?] ?]; [done|by split]].
Qed.

End AttractorSeed.

Lemma reset_fold (l : list nat) :
  ∀ d : list Z, (∀ x, x ∈ l → (x < length d)%nat) →
  length (fold_left (fun d v => <[v := -1]> d) l d) = length d ∧
  ∀ w, zat (fold_left (fun d v => <[v := -1]> d) l d) w =
       if bool_decide (w ∈ l) then -1 else zat d w.
Proof.
  induction l as [|v l IH]; intros d Hl.
  - split; [done|]. intros w. by rewrite bool_decide_eq_false_2 by apply not_elem_of_nil.
  - cbn [fold_left]. destruct (IH (<[v := -1]> d)) as [H1 H2].
    { intros x Hx. rewrite length_insert. apply Hl. by right. }
    split; [by rewrite H1, length_insert|]. intros w. rewrite H2.
    destruct (decide (w ∈ l)) as [Hw|Hw].
    + rewrite !bool_decide_eq_true_2; [done|by right|done].
    + rewrite (bool_decide_eq_false_2 (w ∈ l)) by done.
      destruct (decide (w = v)) as [->|Hne].
      * rewrite zat_insert_eq by (apply Hl; by left).
        by rewrite bool_decide_eq_true_2 by (by left).
      * rewrite zat_insert_ne by done. rewrite bool_decide_eq_false_2; [done|].
        intros [?|?]%elem_of_cons; done.
Qed.

Lemma Forall_neg_zat (l : list Z) (i : nat) :
  Forall (fun d => d < 0) l → (i < length l)%nat → zat l i < 0.
Proof.
  intros HF Hi. unfold zat. destruct (lookup_lt_is_Some_2 l i Hi) as [x Hx].
  rewrite Hx. simpl. by apply (Forall_lookup_1 _ _ _ _ HF Hx).
Qed.

(** C8: called on a vertex list [vs] whose members are exactly the
    vertices labelled [cat_no] or [cat_yes], [attractor] relabels to
    [cat_yes] exactly the vertices of [vs] from which player [whose]
    forces the play, inside [vs], into the vertices labelled [cat_yes] at
    the call, and leaves every other label and strategy as it was.  The
    attracted vertices can be listed in the order in which they were
    attracted: a vertex of [whose] that is not a target gets as strategy
    a successor listed before it, a vertex of the opponent gets -1.
    [degs] is all negative again on return. *)
Theorem attractor_correct (g : Game) (fuel : nat) (vs : list nat)
    (whose cat_no cat_yes : Z) (s : zsolver.state) :
  graph_wf g →
  NoDup vs →
  (∀ v, v ∈ vs → (v < n_nodes g)%nat) →
  length (zsolver.vtype s) = n_nodes g →
  length (zsolver.strategy s) = n_nodes g →
  Forall (fun d => d < 0) (zsolver.degs s) →
  (∀ v, (v < n_nodes g)%nat →
        (zat (zsolver.vtype s) v = cat_no ∨ zat (zsolver.vtype s) v = cat_yes) ↔ v ∈ vs) →
  (length vs ≤ fuel)%nat →
  ∃ (s' : zsolver.state) (order : list nat),
    zsolver.attractor g fuel vs whose cat_no cat_yes s = Some s' ∧
    (∀ v, (v < n_nodes g)%nat →
          (zat (zsolver.vtype s') v = cat_yes ↔
           Attr g vs whose (is_target s cat_yes) v)) ∧
    (∀ v, ¬ Attr g vs whose (is_target s cat_yes) v →
          zat (zsolver.vtype s') v = zat (zsolver.vtype s) v ∧
          zat (zsolver.strategy s') v = zat (zsolver.strategy s) v) ∧
    (NoDup order ∧
     ∀ v, v ∈ order ↔ Attr g vs whose (is_target s cat_yes) v) ∧
    (∀ j v, order !! j = Some v → zat (zsolver.vtype s) v ≠ cat_yes →
       (zat (owner g) v = whose →
          ∃ k w, (k < j)%nat ∧ order !! k = Some w ∧ w ∈ adj (out g) v ∧
                 zat (zsolver.strategy s') v = Z.of_nat w) ∧
       (zat (owner g) v ≠ whose → zat (zsolver.strategy s') v = -1)) ∧
    (∀ v, v ∉ vs →
          zat (zsolver.vtype s') v = zat (zsolver.vtype s) v ∧
          zat (zsolver.strategy s') v = zat (zsolver.strategy s) v) ∧
    Forall (fun d => d < 0) (zsolver.degs s') ∧
    length (zsolver.vtype s') = n_nodes g ∧
    length (zsolver.strategy s') = n_nodes g ∧
    zsolver.iters s' = zsolver.iters s ∧
    zsolver.last_category s' = zsolver.last_category s ∧
    zsolver.memo s' = zsolver.memo s.
Proof.
  intros Hwf Hnd Hvs Hlv Hls Hdeg Hpre Hfuel.
  set (A := Attr g vs whose (is_target s cat_yes)).
  set (sr := zsolver.set_degs s (resize (n_nodes g) (-1) (zsolver.degs s))).
  assert (Hlr : length (zsolver.degs sr) = n_nodes g) by apply length_resize.
  assert (Hdr : ∀ w, (w < n_nodes g)%nat → zat (zsolver.degs sr) w < 0).
  { intros w Hw. apply Forall_neg_zat; [|by rewrite Hlr].
    by apply Forall_resize. }
  destruct (seed_fold g whose cat_no cat_yes s vs sr []) as
    (st1 & Hseed & S1 & S2 & S3 & S4 & S5 & S6 & S7); [done| |].
  { intros x Hx. rewrite Hlr. by apply Hvs. }
  simpl in Hseed. unfold seed_value in S7.
  set (Q0 := filter (fun v => zat (zsolver.vtype s) v = cat_yes) vs) in *.
  assert (HQ0 : ∀ v, v ∈ Q0 ↔ zat (zsolver.vtype s) v = cat_yes ∧ v ∈ vs)
    by (intros v; unfold Q0; by rewrite list_elem_of_filter).
  assert (Hcnt : ∀ w,
    zcount (fun x => (zat (zsolver.vtype s) x =? cat_no) || (zat (zsolver.vtype s) x =? cat_yes))
           (adj (out g) w) =
    zcount (fun x => bool_decide (x ∈ vs)) (adj (out g) w)).
  { intros w. apply zcount_ext. intros x Hx.
    assert (Hxn : (x < n_nodes g)%nat) by (by eapply gw_out_range).
    specialize (Hpre x Hxn). destruct (decide (x ∈ vs)) as [Hi|Hi].
    - rewrite bool_decide_eq_true_2 by done. apply Hpre in Hi.
      apply orb_true_iff. rewrite !Z.eqb_eq. done.
    - rewrite bool_decide_eq_false_2 by done. apply orb_false_iff.
      rewrite !Z.eqb_neq. split; intros E; apply Hi, Hpre; auto. }
  assert (HI0 : AttrInv g vs whose cat_yes s ([] ++ Q0) (concat (map (adj (in_ g)) [])) st1).
  { simpl. constructor.
    - by apply NoDup_filter.
    - intros x Hx. by apply HQ0 in Hx as [_ ?].
    - by rewrite S1.
    - by rewrite S2.
    - by rewrite S6.
    - intros v. rewrite S1. destruct (decide (v ∈ Q0)) as [Hv|Hv].
      + rewrite bool_decide_eq_true_2 by done. by apply HQ0 in Hv as [? _].
      + by rewrite bool_decide_eq_false_2.
    - intros v Hv. apply HQ0 in Hv as [? ?]. by apply Attr_target.
    - intros v Hv HT. by apply HQ0.
    - intros v _. by rewrite S2.
    - intros j v Hj HT. exfalso. apply HT.
      apply list_elem_of_lookup_2 in Hj. by apply HQ0 in Hj as [? _].
    - intros w Hw Hq Ho. split; [|apply not_elem_of_nil]. rewrite S7.
      rewrite bool_decide_eq_true_2.
      + by rewrite (proj2 (Z.eqb_eq _ _) Ho).
      + split; [done|]. intros E. apply Hq, HQ0. done.
    - intros w Hw Hq Ho. unfold succs_in, hits. rewrite S7. rewrite bool_decide_eq_true_2.
      + rewrite (proj2 (Z.eqb_neq _ _) Ho), Hcnt, zcount_nil.
        pose proof (zcount_nonneg (fun x => bool_decide (x ∈ vs)) (adj (out g) w)).
        split; lia.
      + split; [done|]. intros E. apply Hq, HQ0. done.
    - intros w Hw Hn. rewrite S7. rewrite bool_decide_eq_false_2; [by apply Hdr|].
      intros [? _]. done.
    - intros w Hq. rewrite S7. apply HQ0 in Hq as [HT Hw].
      rewrite bool_decide_eq_false_2; [|intros [_ ?]; done].
      specialize (Hdr w (Hvs w Hw)). lia.
    - by rewrite S3.
    - by rewrite S4.
    - by rewrite S5. }
  destruct (loop_inv g vs whose cat_yes s Hwf fuel [] Q0 st1 HI0) as (P' & s' & Hloop & HI).
  { simpl. lia. }
  pose proof (inv_complete g vs whose cat_yes s Hwf P' s' HI) as Hcomplete.
  destruct (reset_fold vs (zsolver.degs s')) as [R1 R2].
  { intros x Hx. rewrite (inv_ld _ _ _ _ _ _ _ _ HI). by apply Hvs. }
  assert (HA : ∀ v, v ∈ P' ↔ A v).
  { intros v. split; [apply (inv_sound _ _ _ _ _ _ _ _ HI)|apply Hcomplete]. }
  eexists. exists P'. split.
  { unfold zsolver.attractor. fold sr. rewrite Hseed. simpl. rewrite Hloop. simpl. reflexivity. }
  simpl. repeat split.
  - intros Hy. apply HA. rewrite (inv_vtype _ _ _ _ _ _ _ _ HI) in Hy.
    destruct (decide (v ∈ P')) as [|Hn]; [done|].
    rewrite bool_decide_eq_false_2 in Hy by done.
    apply (inv_target _ _ _ _ _ _ _ _ HI); [|done]. apply Hpre; auto.
  - intros Hv. apply HA in Hv. rewrite (inv_vtype _ _ _ _ _ _ _ _ HI).
    by rewrite bool_decide_eq_true_2.
  - rewrite (inv_vtype _ _ _ _ _ _ _ _ HI). rewrite bool_decide_eq_false_2; [done|].
    by rewrite HA.
  - apply (inv_strat_old _ _ _ _ _ _ _ _ HI). left. by rewrite HA.
  - apply HI.
  - apply HA.
  - apply HA.
  - intros Ho. by apply (inv_strat_new _ _ _ _ _ _ _ _ HI j v).
  - intros Ho. by apply (inv_strat_new _ _ _ _ _ _ _ _ HI j v).
  - rewrite (inv_vtype _ _ _ _ _ _ _ _ HI). rewrite bool_decide_eq_false_2; [done|].
    intros Hv. by apply (inv_sub _ _ _ _ _ _ _ _ HI) in Hv.
  - apply (inv_strat_old _ _ _ _ _ _ _ _ HI). left.
    intros Hv. by apply (inv_sub _ _ _ _ _ _ _ _ HI) in Hv.
  - apply Forall_lookup. intros i x Hix.
    assert (Hi : (i < n_nodes g)%nat).
    { apply lookup_lt_Some in Hix. rewrite R1, (inv_ld _ _ _ _ _ _ _ _ HI) in Hix. done. }
    assert (Hz : zat (fold_left (fun d v => <[v := -1]> d) vs (zsolver.degs s')) i = x)
      by (unfold zat; by rewrite Hix).
    rewrite R2 in Hz. destruct (decide (i ∈ vs)) as [Hv|Hv].
    + rewrite bool_decide_eq_true_2 in Hz by done. lia.
    + rewrite bool_decide_eq_false_2 in Hz by done. subst x.
      by apply (inv_deg_out _ _ _ _ _ _ _ _ HI).
  - apply HI.
  - apply HI.
  - apply HI.
  - apply HI.
  - apply HI.
Qed.


(** * The driver keeps winners in {0,1} *)

(** ** Invariants of the driver *)

Lemma foldM_inv {A B : Type} (P : A → Prop) (f : A → B → outcome A) (l : list B) :
  (∀ a x a', P a → f a x = Ok a' → P a') →
  ∀ a a', P a → foldM f l a = Ok a' → P a'.
Proof.
  intros Hf. induction l as [|x l IH]; intros a a' Ha H; simpl in H.
  - by injection H as <-.
  - destruct (f a x) as [a1| | |] eqn:E; simpl in H; try done.
    eapply IH; [|done]. by eapply Hf.
Qed.

Lemma flush_eq (fuel : nat) (o : Oink) :
  flush fuel o =
  match todo o with
  | [] => Ok o
  | v :: rest =>
    let o := set_todo o rest in
    if zat (outcount o) v =? -1 then Ok o
    else
      match fuel with
      | O => OutOfFuel
      | S fuel =>
        let o := set_outcount o (<[v := -1]> (outcount o)) in
        let w := if zat (winner (game o)) v =? 0 then 0 else 1 in
        flush fuel (fold_left (flush_pred v w) (adj (in_ (game o)) v) o)
      end
  end.
Proof. by destruct fuel. Qed.

Section GoodLemmas.

Variables (n : nat) (ow : list Z) (sv : Z).
Hypothesis How : ∀ v, zat ow v = 0 ∨ zat ow v = 1.

Lemma winners01_mark (sl : list bool) (wn : list Z) (i : nat) (w : Z) :
  (w = 0 ∨ w = 1) →
  (∀ v, bat sl v = true → zat wn v = 0 ∨ zat wn v = 1) →
  ∀ v, bat (<[i := true]> sl) v = true →
       zat (<[i := w]> wn) v = 0 ∨ zat (<[i := w]> wn) v = 1.
Proof.
  intros Hw H v Hv. destruct (decide (i = v)) as [->|Hne].
  - destruct (decide (v < length wn)%nat).
    + by rewrite zat_insert_eq.
    + rewrite list_insert_ge by lia. rewrite zat_ge by lia. by left.
  - rewrite zat_insert_ne by done. rewrite bat_insert_ne in Hv by done. auto.
Qed.

Lemma solve_good (node : nat) (win strat : Z) (o o' : Oink) :
  Good n ow sv o → (win = 0 ∨ win = 1) → solve node win strat o = Ok o' → Good n ow sv o'.
Proof.
  intros [H1 H2 H2b H3] Hw H. unfold solve in H.
  destruct (bat (solved (game o)) node || bat (disabled o) node); [done|].
  injection H as <-. constructor; simpl; try done.
  unfold winners01. simpl. by apply winners01_mark.
Qed.

Lemma flush_mark_good (i : nat) (w : Z) (o : Oink) :
  Good n ow sv o → (w = 0 ∨ w = 1) → Good n ow sv (flush_mark i w o).
Proof.
  intros [H1 H2 H2b H3] Hw. constructor; simpl; try done.
  unfold winners01. simpl. by apply winners01_mark.
Qed.

Lemma flush_pred_good (v : nat) (w : Z) (o : Oink) (i : nat) :
  Good n ow sv o → (w = 0 ∨ w = 1) → Good n ow sv (flush_pred v w o i).
Proof.
  intros HG Hw. unfold flush_pred.
  destruct (bat (solved (game o)) i); [done|].
  destruct (zat (owner (game o)) i =? w).
  - apply flush_mark_good; [|done]. destruct HG. by constructor.
  - destruct (zat (outcount o) i - 1 =? 0).
    + apply flush_mark_good; [|done]. destruct HG. by constructor.
    + destruct HG. by constructor.
Qed.

Lemma fold_flush_pred_good (v : nat) (w : Z) (l : list nat) (o : Oink) :
  Good n ow sv o → (w = 0 ∨ w = 1) → Good n ow sv (fold_left (flush_pred v w) l o).
Proof.
  revert o. induction l as [|i l IH]; intros o HG Hw; [done|].
  simpl. apply IH; [|done]. by apply flush_pred_good.
Qed.

Lemma flush_good (fuel : nat) (o o' : Oink) :
  Good n ow sv o → flush fuel o = Ok o' → Good n ow sv o'.
Proof.
  revert o. induction fuel as [|fuel IH]; intros o HG H; rewrite flush_eq in H;
    (destruct (todo o) as [|v rest]; [by injection H as <-|]); simpl in H;
    (destruct (zat (outcount o) v =? -1);
       [injection H as <-; destruct HG; by constructor|]); [done|].
  eapply IH; [|exact H]. apply fold_flush_pred_good.
  - destruct HG. by constructor.
  - destruct (_ =? 0); auto.
Qed.

Lemma land1_01 (x : Z) : Z.land x 1 = 0 ∨ Z.land x 1 = 1.
Proof. apply land1_cases. Qed.

Lemma single_pick_good (i : nat) (parity : Z) (tos : list nat) (o o' : Oink) :
  Good n ow sv o → (parity = 0 ∨ parity = 1) →
  single_pick i parity tos o = Ok o' → Good n ow sv o'.
Proof.
  intros HG Hp. induction tos as [|to tos IH]; simpl; intros H.
  - by injection H as <-.
  - destruct (bat (disabled o) to); [auto|]. by eapply solve_good.
Qed.

Lemma single_assign_good (parity : Z) (l : list nat) (o o' : Oink) :
  Good n ow sv o → (parity = 0 ∨ parity = 1) →
  single_assign parity l o = Ok o' → Good n ow sv o'.
Proof.
  intros HG Hp. unfold single_assign. apply foldM_inv; [|done].
  intros a x a' Ha H. unfold single_body in H.
  destruct (bat (disabled a) x); [by injection H as <-|].
  destruct (zat (owner (game a)) x =? parity).
  - by eapply single_pick_good.
  - by eapply solve_good.
Qed.

Lemma owner_01 (o : Oink) (v : nat) :
  Good n ow sv o → zat (owner (game o)) v = 0 ∨ zat (owner (game o)) v = 1.
Proof. intros [_ -> _ _]. apply How. Qed.

Lemma selfloop_body_good (acc acc' : Oink * Z) (x : nat) :
  Good n ow sv acc.1 → selfloop_body acc x = Ok acc' → Good n ow sv acc'.1.
Proof.
  destruct acc as [o r]. simpl. intros HG H.
  destruct (bat (disabled o) x); [by injection H as <-|].
  destruct (bool_decide (x ∈ adj (out (game o)) x)); [|by injection H as <-].
  pose proof (owner_01 o x HG) as Hx.
  destruct (zat (owner (game o)) x =? Z.land (zat (priority (game o)) x) 1).
  - destruct (solve x _ _ o) as [o1| | |] eqn:E; simpl in H; try done.
    injection H as <-. simpl. by eapply solve_good.
  - destruct (length (adj (out (game o)) x) =? 1)%nat.
    + destruct (solve x _ _ o) as [o1| | |] eqn:E; simpl in H; try done.
      injection H as <-. simpl. eapply solve_good; [done| |done]. lia.
    + simpl in H. injection H as <-. simpl. destruct HG. by constructor.
Qed.

Lemma solveSelfloops_good (fuel : nat) (o o' : Oink) (r : Z) :
  Good n ow sv o → solveSelfloops fuel o = Ok (r, o') → Good n ow sv o'.
Proof.
  intros HG H. unfold solveSelfloops in H.
  destruct (foldM selfloop_body _ (o, 0)) as [[o1 r1]| | |] eqn:E; simpl in H; try done.
  destruct (flush fuel o1) as [o2| | |] eqn:E2; simpl in H; try done.
  injection H as <- <-. eapply flush_good; [|done].
  apply (foldM_inv (fun a : Oink * Z => Good n ow sv a.1) selfloop_body
           (seq 0 (n_nodes (game o))) (fun a x a' => selfloop_body_good a a' x)
           (o, 0) (o1, r1) HG E).
Qed.

End GoodLemmas.


Section GoodLemmas2.

Variables (n : nat) (ow : list Z) (sv : Z).
Hypothesis How : ∀ v, zat ow v = 0 ∨ zat ow v = 1.

Lemma tc_back_edge_good (lw : list Z) (pl min : Z) (cur : nat)
    (acc acc' : Oink * list nat) (from : nat) :
  (pl = 0 ∨ pl = 1) → Good n ow sv acc.1 →
  tc_back_edge lw pl min cur acc from = Ok acc' → Good n ow sv acc'.1.
Proof.
  destruct acc as [o q]. simpl. intros Hp HG H.
  destruct (negb (zat lw from =? min) || bat (disabled o) from); [by injection H as <-|].
  destruct (solve from pl (Z.of_nat cur) o) as [o1| | |] eqn:E; simpl in H; try done.
  injection H as <-. simpl. by eapply solve_good.
Qed.

Lemma tc_back_good (fuel : nat) (lw : list Z) (pl min : Z) :
  (pl = 0 ∨ pl = 1) →
  ∀ (q : list nat) (o o' : Oink),
  Good n ow sv o → tc_back fuel lw pl min q o = Ok o' → Good n ow sv o'.
Proof.
  intros Hp. induction fuel as [|fuel IH]; intros q o o' HG H.
  - destruct q; simpl in H; [by injection H as <-|done].
  - destruct q as [|cur q]; simpl in H; [by injection H as <-|].
    destruct (foldM _ _ (o, q)) as [[o1 q1]| | |] eqn:E; simpl in H; try done.
    eapply IH; [|exact H].
    apply (foldM_inv (fun a : Oink * list nat => Good n ow sv a.1) _ _
             (fun a x a' Ha Hx => tc_back_edge_good lw pl min cur a a' x Hp Ha Hx)
             (o, q) (o1, q1) HG E).
Qed.

Lemma tc_collect_oink (g : Game) (pr pl min : Z) (idx : nat) (rs : list nat) :
  ∀ (s s' : tc_state) (a b c a' b' c' : Z),
  tc_collect g pr pl min idx rs s a b c = Some (s', a', b', c') →
  tc_oink s' = tc_oink s.
Proof.
  induction rs as [|x rs IH]; intros s s' a b c a' b' c' H; simpl in H; [done|].
  repeat match type of H with
         | context [if ?b then _ else _] => destruct b
         | context [let '(_, _) := ?p in _] => destruct p
         end;
    first [ injection H as <- _ _ _; by repeat (simpl; try done)
          | apply IH in H; rewrite H; by repeat (simpl; try done) ].
Qed.

Lemma tc_iter_good (fuel i : nat) (pr pl bot : Z) (idx : nat) (s s' : tc_state) :
  (pl = 0 ∨ pl = 1) → Good n ow sv (tc_oink s) →
  tc_iter fuel i pr pl bot idx s = Ok s' → Good n ow sv (tc_oink s').
Proof.
  intros Hp HG H. unfold tc_iter in H.
  match type of H with
  | context [mbind _ ?m] => destruct m as [s1| | |] eqn:E1; simpl in H; try done
  end.
  assert (H1 : tc_oink s1 = tc_oink s).
  { destruct (zat (low s) idx <=? bot); [|by injection E1 as <-].
    destruct (_ <? 0) in E1; [done|]. by injection E1 as <-. }
  destruct (tc_edges s1 i pr pl bot _ _) as [[to|] mn].
  { injection H as <-. simpl. by rewrite H1. }
  destruct (mn <? zat (low s1) idx).
  { injection H as <-. simpl. by rewrite H1. }
  destruct (tc_collect _ pr pl mn idx (res s1) s1 (-1) (-1) (-1))
    as [[[[s2 a] b] c]|] eqn:E2; [|done].
  apply tc_collect_oink in E2.
  destruct (_ && _).
  { injection H as <-. simpl. by rewrite E2, H1. }
  destruct (negb _).
  { injection H as <-. simpl. by rewrite E2, H1. }
  destruct (tc_back fuel (low s2) pl mn _ (tc_oink s2)) as [o1| | |] eqn:E3;
    simpl in H; try done.
  destruct (flush fuel o1) as [o2| | |] eqn:E4; simpl in H; try done.
  injection H as <-. simpl. eapply flush_good; [|done].
  eapply tc_back_good; [done| |done]. by rewrite E2, H1.
Qed.

Lemma tc_while_good (fuel i : nat) (pr pl bot : Z) :
  (pl = 0 ∨ pl = 1) →
  ∀ s s', Good n ow sv (tc_oink s) →
          tc_while fuel i pr pl bot s = Ok s' → Good n ow sv (tc_oink s').
Proof.
  intros Hp. induction fuel as [|fuel IH]; intros s s' HG H.
  - simpl in H. destruct (st s); [by injection H as <-|done].
  - simpl in H. destruct (st s) as [|idx rest]; [by injection H as <-|].
    destruct (tc_iter fuel i pr pl bot idx s) as [s1| | |] eqn:E; simpl in H; try done.
    eapply IH; [|done]. by eapply tc_iter_good.
Qed.

Lemma tc_root_good (fuel : nat) (s s' : tc_state) (i : nat) :
  Good n ow sv (tc_oink s) → tc_root fuel s i = Ok s' → Good n ow sv (tc_oink s').
Proof.
  intros HG H. unfold tc_root in H.
  destruct (bat _ i); [by injection H as <-|].
  destruct (zat (done s) i =? -2); [by injection H as <-|].
  destruct (negb _); [by injection H as <-|].
  destruct (zat (done s) i =? _); [by injection H as <-|].
  eapply tc_while_good; [apply land1_cases| |done]. done.
Qed.

Lemma solveTrivialCycles_good (fuel : nat) (o o' : Oink) (r : Z) :
  Good n ow sv o → solveTrivialCycles fuel o = Ok (r, o') → Good n ow sv o'.
Proof.
  intros HG H. unfold solveTrivialCycles in H.
  destruct (foldM (tc_root fuel) _ (tc_init o)) as [s| | |] eqn:E; simpl in H; try done.
  injection H as _ <-.
  apply (foldM_inv (fun a : tc_state => Good n ow sv (tc_oink a)) _ _
           (fun a x a' Ha Hx => tc_root_good fuel a a' x Ha Hx) (tc_init o) s HG E).
Qed.

Lemma absorb_good (zstr : list Z) (o o' : Oink) (i : nat) :
  Good n ow sv o → absorb zstr o i = Ok o' → Good n ow sv o'.
Proof.
  intros HG H. unfold absorb in H.
  destruct (bat _ i); [by injection H as <-|].
  destruct (0 <=? zat zstr i).
  - eapply solve_good; [done| |done]. by apply (owner_01 n ow sv How).
  - eapply solve_good; [done| |done]. destruct (_ =? 0); auto.
Qed.

Lemma ExperimentalSolver_run_good (fuel : nat) (flags : Z) (o o' : Oink) (p p' : Process) :
  Good n ow sv o → ExperimentalSolver_run fuel flags (o, p) = Ok (o', p') → Good n ow sv o'.
Proof.
  intros HG H. unfold ExperimentalSolver_run in H.
  destruct (zs_solve fuel flags (game o) p) as [s|]; [|done].
  destruct (foldM _ _ o) as [o1| | |] eqn:E; simpl in H; try done.
  injection H as <- _.
  apply (foldM_inv (Good n ow sv) _ _
           (fun a x a' Ha Hx => absorb_good (zsolver.strategy s) a a' x Ha Hx) _ _ HG E).
Qed.

Section Loop.
Variable ext : Externals.

Lemma solveLoop_body_good (fuel : nat) (o o' : Oink) (p p' : Process) :
  Good n ow sv o → solveLoop_body ext fuel (o, p) = Ok (o', p') → Good n ow sv o'.
Proof.
  intros HG H. unfold solveLoop_body in H.
  match type of H with
  | context [ExperimentalSolver_run _ _ (?x, _)] =>
      assert (HG1 : Good n ow sv x) by (destruct HG; destruct (bottomSCC _); by constructor);
      generalize dependent x; intros o1 H HG1
  end.
  destruct (Solvers_flags (solver o1)) as [fl|]; [|done].
  destruct (ExperimentalSolver_run fuel fl (o1, p)) as [[o2 p2]| | |] eqn:E;
    simpl in H; try done.
  destruct (flush fuel o2) as [o3| | |] eqn:E3; simpl in H; try done.
  injection H as <- <-. eapply flush_good; [|exact E3].
  by eapply ExperimentalSolver_run_good.
Qed.

Lemma solveLoop_eq (fuel : nat) (op : Oink * Process) :
  solveLoop ext fuel op =
  if gameSolved (game op.1) then Ok op
  else match fuel with
       | O => OutOfFuel
       | S fuel => op ← solveLoop_body ext fuel op; solveLoop ext fuel op
       end.
Proof. by destruct fuel. Qed.

Lemma solveLoop_good (fuel : nat) :
  ∀ (o o' : Oink) (p p' : Process),
  Good n ow sv o → solveLoop ext fuel (o, p) = Ok (o', p') → Good n ow sv o'.
Proof.
  induction fuel as [|fuel IH]; intros o o' p p' HG H; rewrite solveLoop_eq in H;
    (destruct (gameSolved (game (o, p).1)); [by injection H as <- <-|]); [done|].
  destruct (solveLoop_body ext fuel (o, p)) as [[o1 p1]| | |] eqn:E; simpl in H; try done.
  eapply IH; [|exact H]. by eapply solveLoop_body_good.
Qed.

Lemma solveLoop_solved (fuel : nat) :
  ∀ (op op' : Oink * Process),
  solveLoop ext fuel op = Ok op' → gameSolved (game op'.1) = true.
Proof.
  induction fuel as [|fuel IH]; intros op op' H; rewrite solveLoop_eq in H;
    (destruct (gameSolved (game op.1)) eqn:E; [by injection H as <-|]); [done|].
  destruct (solveLoop_body ext fuel op) as [op1| | |]; simpl in H; try done. eauto.
Qed.

End Loop.
End GoodLemmas2.

Lemma gameSolved_all (g : Game) :
  gameSolved g = true → ∀ v, (v < n_nodes g)%nat → bat (solved g) v = true.
Proof.
  unfold gameSolved. intros H v Hv. rewrite forallb_forall in H. apply H.
  apply list_elem_of_In, elem_of_seq. lia.
Qed.


(** ** The single-parity shortcut decides every vertex *)

Section SingleParity.

Variables (g0 : Game) (parity : Z).
Hypothesis Hwf : graph_wf g0.
Hypothesis Hpar : parity = 0 ∨ parity = 1.
Hypothesis Htotal : ∀ v, (v < n_nodes g0)%nat → adj (out g0) v ≠ [].

Local Abbreviation n := (n_nodes g0).
Local Abbreviation sol := decided.
Local Abbreviation Static := (Static g0).
Local Abbreviation Assigned := (Assigned g0 parity).
Local Abbreviation Flushing := (Flushing g0 parity).

Lemma solve_assigned (oc : list Z) (vis : list nat) (i : nat) (strat : Z) (o o' : Oink) :
  Assigned oc vis o → (i < n)%nat → solve i parity strat o = Ok o' →
  Assigned oc (vis ++ [i]) o'.
Proof.
  intros HA Hi H. unfold solve in H.
  destruct (bat (solved (game o)) i || bat (disabled o) i) eqn:E; [done|].
  apply orb_false_iff in E as [Es Ed]. injection H as <-.
  destruct HA as [[S1 S2 S3 S4 S5 S6 S7] A1 A2 A3 A4 A5 A6 A7].
  assert (Hmono : ∀ v, bat (solved (game o)) v = true →
                       bat (<[i := true]> (solved (game o))) v = true)
    by (intros v; apply bat_insert_true).
  constructor; [constructor|..]; simpl; try done; try (by rewrite length_insert).
  - intros v. destruct (decide (v = i)) as [->|Hne].
    + rewrite !bat_insert_eq by lia. done.
    + rewrite !bat_insert_ne by done. auto.
  - unfold decided. simpl. intros v Hv. destruct (decide (v = i)) as [->|Hne].
    + rewrite zat_insert_eq by lia. split; [done|by left].
    + rewrite bat_insert_ne in Hv by done. rewrite zat_insert_ne by done.
      destruct (A4 v Hv). split; [done|by right].
  - apply NoDup_cons. split; [|done]. intros Hin. apply A6 in Hin. unfold decided in Hin. congruence.
  - unfold decided. simpl. intros v [->|Hv]%elem_of_cons.
    + by rewrite bat_insert_eq by lia.
    + apply Hmono. by apply A6.
  - unfold decided. simpl. intros v Hv Hns.
    apply elem_of_app in Hv as [Hv|Hv].
    + destruct (A7 v Hv) as [H1 H2]; [intros Hs; apply Hns; by apply Hmono|].
      split; [done|]. intros w Hw. apply Hmono. by apply H2.
    + apply list_elem_of_singleton in Hv as ->. exfalso. apply Hns.
      by rewrite bat_insert_eq by lia.
Qed.

Lemma single_pick_cases (i : nat) (tos : list nat) (o o' : Oink) :
  single_pick i parity tos o = Ok o' →
  (o' = o ∧ ∀ w, w ∈ tos → bat (disabled o) w = true) ∨
  (∃ to, solve i parity (Z.of_nat to) o = Ok o').
Proof.
  induction tos as [|to tos IH]; simpl; intros H.
  - injection H as <-. left. split; [done|]. intros w Hw. by apply elem_of_nil in Hw.
  - destruct (bat (disabled o) to) eqn:E.
    + destruct (IH H) as [[-> Hall]|Hs]; [|by right].
      left. split; [done|]. intros w [->|Hw]%elem_of_cons; auto.
    + right. eauto.
Qed.

Lemma single_body_assigned (oc : list Z) (vis : list nat) (i : nat) (o o' : Oink) :
  Assigned oc vis o → (i < n)%nat → single_body parity o i = Ok o' →
  Assigned oc (vis ++ [i]) o'.
Proof.
  intros HA Hi H. unfold single_body in H.
  assert (Hskip : (sol o i ∨ (zat (owner g0) i = parity ∧
                              ∀ w, w ∈ adj (out g0) i → sol o w)) →
                  Assigned oc (vis ++ [i]) o).
  { intros Hc. destruct HA. constructor; try done.
    intros v Hv Hns. apply elem_of_app in Hv as [Hv|Hv]; [auto|].
    apply list_elem_of_singleton in Hv as ->. destruct Hc as [Hc|Hc]; [done|done]. }
  destruct (bat (disabled o) i) eqn:Ed.
  { injection H as <-. apply Hskip. left. unfold decided. by rewrite <- (as_dis _ _ _ _ _ HA). }
  rewrite (st_owner _ _ (as_static _ _ _ _ _ HA)) in H.
  destruct (Z.eqb_spec (zat (owner g0) i) parity) as [Ho|Ho].
  - rewrite (st_out _ _ (as_static _ _ _ _ _ HA)) in H.
    apply single_pick_cases in H as [[-> Hall]|[to Hs]].
    + apply Hskip. right. split; [done|]. intros w Hw. unfold decided.
      rewrite <- (as_dis _ _ _ _ _ HA). by apply Hall.
    + by eapply solve_assigned.
  - by eapply solve_assigned.
Qed.

Lemma single_assign_assigned (oc : list Z) (l : list nat) :
  ∀ (vis : list nat) (o o' : Oink),
  Assigned oc vis o → (∀ x, x ∈ l → (x < n)%nat) →
  single_assign parity l o = Ok o' → Assigned oc (vis ++ l) o'.
Proof.
  unfold single_assign.
  induction l as [|i l IH]; intros vis o o' HA Hl H; simpl in H.
  - injection H as <-. by rewrite app_nil_r.
  - destruct (single_body parity o i) as [o1| | |] eqn:E; simpl in H; try done.
    replace (vis ++ i :: l) with ((vis ++ [i]) ++ l) by (by rewrite <- app_assoc).
    eapply IH; [|intros x Hx; apply Hl; by right|exact H].
    eapply single_body_assigned; [done|apply Hl; by left|done].
Qed.

Lemma conv_parity : (if parity =? 0 then 0 else 1) = parity.
Proof. by destruct Hpar as [-> | ->]. Qed.

Lemma flush_pred_flushing (v u : nat) (rem : list nat) (o : Oink) :
  Flushing (fun v' u' => v' = v ∧ u' ∈ u :: rem) o → (u < n)%nat →
  Flushing (fun v' u' => v' = v ∧ u' ∈ rem) (flush_pred v parity o u).
Proof.
  intros HF Hu. unfold flush_pred.
  destruct (bat (solved (game o)) u) eqn:Es.
  { destruct HF. constructor; try done.
    intros v' u' Hv' Hoc Hu'. destruct (fl_proc0 v' u' Hv' Hoc Hu') as [?|[-> Hin]]; [by left|].
    apply elem_of_cons in Hin as [->|Hin]; [by left|by right]. }
  assert (Hns : ¬ sol o u) by (unfold decided; congruence).
  destruct (fl_left _ _ _ _ HF u Hu Hns) as (Ho & Hoc & Hsucc).
  rewrite (st_owner _ _ (fl_static _ _ _ _ HF)), Ho, Z.eqb_refl.
  destruct HF as [[S1 S2 S3 S4 S5 S6 S7] F1 F2 F3 F4 F5 F6].
  assert (Hmono : ∀ x, sol o x → bat (<[u := true]> (solved (game o))) x = true)
    by (intros x; apply bat_insert_true).
  constructor; [constructor|..]; unfold decided in *; simpl; try done;
    try (by rewrite length_insert).
  - apply NoDup_cons. split; [|done]. intros Hin. by apply F2 in Hin as (_ & ? & _).
  - intros x [->|Hx]%elem_of_cons.
    + split; [done|]. split; [by rewrite bat_insert_eq by lia|done].
    + destruct (F2 x Hx) as (? & ? & ?). split; [done|]. split; [by apply Hmono|done].
  - intros x Hx. destruct (decide (x = u)) as [->|Hne].
    + rewrite zat_insert_eq by lia. apply conv_parity.
    + rewrite zat_insert_ne by done. rewrite bat_insert_ne in Hx by done. auto.
  - intros x Hx Hoc'. destruct (decide (x = u)) as [->|Hne]; [by left|].
    rewrite bat_insert_ne in Hx by done. right. auto.
  - intros x y Hx Hoc' Hy. destruct (decide (x = u)) as [->|Hne]; [done|].
    rewrite bat_insert_ne in Hx by done.
    destruct (F5 x y Hx Hoc' Hy) as [?|[-> Hin]]; [left; by apply Hmono|].
    apply elem_of_cons in Hin as [->|Hin]; [left; by rewrite bat_insert_eq by lia|by right].
  - intros x Hx Hnx. destruct (decide (x = u)) as [->|Hne].
    { exfalso. apply Hnx. by rewrite bat_insert_eq by lia. }
    rewrite bat_insert_ne in Hnx by done. destruct (F6 x Hx Hnx) as (? & ? & H3).
    split; [done|]. split; [done|]. intros w Hw. apply Hmono. by apply H3.
Qed.

Lemma fold_flush_pred_flushing (v : nat) (rem : list nat) :
  ∀ o, Flushing (fun v' u' => v' = v ∧ u' ∈ rem) o →
       (∀ u, u ∈ rem → (u < n)%nat) →
       Flushing (fun _ _ => False) (fold_left (flush_pred v parity) rem o).
Proof.
  induction rem as [|u rem IH]; intros o HF Hrem; simpl.
  - destruct HF. constructor; try done.
    intros x y Hx Hoc Hy. destruct (fl_proc0 x y Hx Hoc Hy) as [?|[_ Hin]]; [by left|].
    by apply elem_of_nil in Hin.
  - apply IH; [|intros x Hx; apply Hrem; by right].
    apply flush_pred_flushing; [done|]. apply Hrem. by left.
Qed.

Lemma flush_flushing (fuel : nat) :
  ∀ o o', Flushing (fun _ _ => False) o → flush fuel o = Ok o' →
          Flushing (fun _ _ => False) o' ∧ todo o' = [].
Proof.
  induction fuel as [|fuel IH]; intros o o' HF H; rewrite flush_eq in H;
    (destruct (todo o) as [|v rest] eqn:Et; [injection H as <-; by split|]);
    simpl in H;
    (assert (Hv : (v < n)%nat ∧ sol o v ∧ zat (outcount o) v ≠ -1)
       by (apply (fl_todo _ _ _ _ HF); rewrite Et; by left));
    destruct Hv as (Hvn & Hvs & Hvo);
    rewrite (proj2 (Z.eqb_neq _ _) Hvo) in H; [done|].
  rewrite (fl_win _ _ _ _ HF v Hvs) in H. rewrite (st_in _ _ (fl_static _ _ _ _ HF)) in H.
  eapply IH; [|exact H]. apply fold_flush_pred_flushing.
  - destruct HF as [[S1 S2 S3 S4 S5 S6 S7] F1 F2 F3 F4 F5 F6].
    rewrite Et in *. apply NoDup_cons in F1 as [Hvr F1].
    constructor; [constructor|..]; unfold decided in *; simpl; try done;
      try (by rewrite length_insert).
    + intros x Hx. assert (x ≠ v) by (intros ->; done).
      rewrite zat_insert_ne by done. apply F2. by right.
    + intros x Hx Hoc. destruct (decide (x = v)) as [->|Hne].
      { rewrite zat_insert_eq in Hoc by lia. done. }
      rewrite zat_insert_ne in Hoc by done.
      pose proof (F4 x Hx Hoc) as Hin. apply elem_of_cons in Hin as [?|?]; done.
    + intros x y Hx Hoc Hy. destruct (decide (x = v)) as [->|Hne]; [by right|].
      rewrite zat_insert_ne in Hoc by done. left.
      by destruct (F5 x y Hx Hoc Hy).
    + intros x Hx Hnx. destruct (F6 x Hx Hnx) as (? & ? & ?).
      assert (x ≠ v) by (intros ->; done). rewrite zat_insert_ne by done. done.
  - intros u Hu. by eapply gw_in_range.
Qed.

Lemma flushing_all_solved (o : Oink) :
  Flushing (fun _ _ => False) o → todo o = [] →
  ∀ v, (v < n)%nat → sol o v.
Proof.
  intros HF Ht v Hv. destruct (bat (solved (game o)) v) eqn:E; [done|]. exfalso.
  assert (Hns : ¬ sol o v) by (unfold decided; congruence).
  destruct (fl_left _ _ _ _ HF v Hv Hns) as (_ & _ & Hsucc).
  destruct (adj (out g0) v) as [|w l] eqn:Eo; [by apply (Htotal v Hv)|].
  assert (Hw : w ∈ adj (out g0) v) by (rewrite Eo; by left).
  specialize (Hsucc w ltac:(by left)).
  assert (Hoc : zat (outcount o) w = -1).
  { destruct (decide (zat (outcount o) w = -1)) as [|Hne]; [done|].
    pose proof (fl_unproc _ _ _ _ HF w Hsucc Hne) as Hin. rewrite Ht in Hin.
    by apply elem_of_nil in Hin. }
  destruct (fl_proc _ _ _ _ HF w v Hsucc Hoc) as [?|[]]; [|done].
  by apply in_out.
Qed.

End SingleParity.


Lemma zat_map_seq (f : nat → Z) (n v : nat) :
  (v < n)%nat → zat (map f (seq 0 n)) v = f v.
Proof.
  intros H. unfold zat.
  change (map f (seq 0 n)) with (f <$> seq 0 n).
  rewrite list_lookup_fmap, lookup_seq_lt by done. done.
Qed.

Lemma single_parity_solves (fuel : nat) (o o' : Oink) :
  game_wf (game o) → unsolved_game (game o) → total_game (game o) →
  todo o = [] → disabled o = replicate (n_nodes (game o)) false →
  length (outcount o) = n_nodes (game o) → (∀ v, 0 ≤ zat (outcount o) v) →
  solveSingleParity fuel o = Ok (true, o') →
  ∀ v, (v < n_nodes (game o))%nat → bat (solved (game o')) v = true.
Proof.
  intros [Hg Hls Hlw How] Hun Htot Htodo Hdis Hloc Hoc H.
  unfold solveSingleParity in H.
  destruct (single_scan _ _ _ _) as [parity|]; [|done].
  destruct ((parity =? 0) || (parity =? 1)) eqn:Ep; [|done].
  assert (Hpar : parity = 0 ∨ parity = 1).
  { apply orb_true_iff in Ep as [E|E]; apply Z.eqb_eq in E; auto. }
  destruct (single_assign parity _ o) as [o1| | |] eqn:E1; simpl in H; try done.
  destruct (flush fuel o1) as [o2| | |] eqn:E2; simpl in H; try done.
  injection H as <-.
  assert (HA0 : Assigned (game o) parity (outcount o) [] o).
  { constructor; [constructor|..]; try done.
    - rewrite Hdis. by rewrite length_replicate.
    - intros v. rewrite Hdis, bat_replicate_false. by rewrite Hun.
    - intros v Hv. unfold decided in Hv. by rewrite Hun in Hv.
    - rewrite Htodo. apply NoDup_nil_2.
    - intros v Hv. rewrite Htodo in Hv. by apply elem_of_nil in Hv.
    - intros v Hv. by apply elem_of_nil in Hv. }
  pose proof (single_assign_assigned (game o) parity (outcount o)
                (seq 0 (n_nodes (game o))) [] o o1 HA0) as HA.
  specialize (HA ltac:(intros x Hx; apply elem_of_seq in Hx; lia) E1).
  simpl in HA.
  assert (HF : Flushing (game o) parity (fun _ _ => False) o1).
  { destruct HA as [HS A1 A2 A3 A4 A5 A6 A7]. constructor; try done.
    - intros v Hv. pose proof (A6 v Hv) as Hs. split.
      + apply bat_true_lt in Hs. by rewrite (st_lsolved _ _ HS) in Hs.
      + split; [done|]. rewrite A2. specialize (Hoc v). lia.
    - intros v Hv. destruct (A4 v Hv) as [-> _]. by destruct Hpar as [-> | ->].
    - intros v Hv _. by apply A4.
    - intros v u _ Ho. rewrite A2 in Ho. specialize (Hoc v). lia.
    - intros v Hv Hns. destruct (A7 v) as [H1 H2]; [apply elem_of_seq; lia|done|].
      split; [done|]. split; [|done]. rewrite A2. specialize (Hoc v). lia. }
  destruct (flush_flushing (game o) parity Hg Hpar fuel o1 o2 HF E2) as [HF2 Ht2].
  by apply (flushing_all_solved (game o) parity Hg Htot o2).
Qed.

Lemma Oink_new_good (g : Game) (sv : Z) (b1 b2 b3 b4 b5 b6 b7 : bool) :
  unsolved_game g →
  Good (n_nodes g) (owner g) sv (Oink_new g sv b1 b2 b3 b4 b5 b6 b7).
Proof.
  intros Hun. constructor; simpl; try done.
  intros v Hv. simpl in Hv. by rewrite Hun in Hv.
Qed.

(** C1: when [Oink::run] returns on a well-formed input game in which no
    vertex is decided and every vertex has a successor, every vertex is
    marked solved and its winner is 0 or 1, never both.  The remappings
    of the priorities are assumed to leave the rest of the game alone;
    the solver is one of this repository's ([solver] is not -1). *)
Theorem run_solves_every_vertex (ext : Externals) (fuel : nat) (g : Game) (sv : Z)
    (b1 b2 b3 b4 b5 b6 b7 : bool) (p p' : Process) (o' : Oink) :
  externals_ok ext → game_wf g → unsolved_game g → total_game g →
  sv ≠ -1 →
  Oink_run ext fuel (Oink_new g sv b1 b2 b3 b4 b5 b6 b7, p) = Ok (o', p') →
  ∀ v, (v < n_nodes g)%nat →
    bat (solved (game o')) v = true ∧
    (zat (winner (game o')) v = 0 ∨ zat (winner (game o')) v = 1) ∧
    ¬ (zat (winner (game o')) v = 0 ∧ zat (winner (game o')) v = 1).
Proof.
  intros (Hinf & Hcomp & Hren) Hwf Hun Htot Hsv H v Hv.
  assert (Hresult : Good (n_nodes g) (owner g) sv o' ∧
                    ∀ v, (v < n_nodes g)%nat → bat (solved (game o')) v = true).
  2:{ destruct Hresult as [HG Hs]. split; [by apply Hs|]. split; [|lia].
      apply (good_winner _ _ _ _ HG). by apply Hs. }
  clear v Hv. unfold Oink_run in H.
  set (o0 := Oink_new g sv b1 b2 b3 b4 b5 b6 b7) in *.
  match type of H with
  | context [solveSingle ?x] => set (o1 := x) in *
  end.
  assert (Hg1 : ∃ f, remaps f ∧ o1 = set_game o0 (f g)).
  { unfold o1. simpl.
    destruct b1; [by exists (Game_inflate ext)|].
    destruct b2; [by exists (Game_compress ext)|].
    destruct b3; [by exists (Game_renumber ext)|].
    exists (fun x => x). split; [done|]. done. }
  destruct Hg1 as (f & Hf & Ho1). destruct (Hf g) as (R1 & R2 & R3 & R4 & R5 & R6 & R7).
  assert (Hwf1 : game_wf (f g)).
  { destruct Hwf as [[G1 G2 G3] L1 L2 L3]. constructor; [constructor|..].
    - intros a b. rewrite R3, R1. apply G1.
    - intros a b. rewrite R4, R1. apply G2.
    - intros a b. rewrite R3, R4. apply G3.
    - by rewrite R5, R1.
    - by rewrite R6, R1.
    - intros a. rewrite R2. apply L3. }
  assert (Hun1 : unsolved_game (f g)) by (intros a; by rewrite R5).
  assert (Htot1 : total_game (f g)) by (intros a Ha; rewrite R3; apply Htot; by rewrite <- R1).
  assert (HG1 : Good (n_nodes g) (owner g) sv o1).
  { rewrite Ho1. constructor; simpl; try done. intros a Ha. simpl in Ha.
    by rewrite Hun1 in Ha. }
  assert (How : ∀ a, zat (owner g) a = 0 ∨ zat (owner g) a = 1) by apply Hwf.
  clearbody o1.
  assert (Hcont : ∀ o2, Good (n_nodes g) (owner g) sv o2 →
    (o ← (if removeLoops o2 then '(_, o) ← solveSelfloops fuel o2; Ok o else Ok o2);
     o ← (if removeWCWC o then '(_, o) ← solveTrivialCycles fuel o; Ok o else Ok o);
     if solver o =? -1 then Ok (o, p) else solveLoop ext fuel (o, p)) = Ok (o', p') →
    Good (n_nodes g) (owner g) sv o' ∧
    ∀ v, (v < n_nodes g)%nat → bat (solved (game o')) v = true).
  { intros o2 HG2 H2.
    match type of H2 with
    | context [mbind _ ?m] => destruct m as [o3| | |] eqn:E3; simpl in H2; try done
    end.
    assert (HG3 : Good (n_nodes g) (owner g) sv o3).
    { destruct (removeLoops o2); [|by injection E3 as <-].
      destruct (solveSelfloops fuel o2) as [[r3 o3']| | |] eqn:E; simpl in E3; try done.
      injection E3 as <-. by eapply (solveSelfloops_good _ _ sv How). }
    match type of H2 with
    | context [mbind _ ?m] => destruct m as [o4| | |] eqn:E4; simpl in H2; try done
    end.
    assert (HG4 : Good (n_nodes g) (owner g) sv o4).
    { destruct (removeWCWC o3); [|by injection E4 as <-].
      destruct (solveTrivialCycles fuel o3) as [[r4 o4']| | |] eqn:E; simpl in E4; try done.
      injection E4 as <-. by eapply (solveTrivialCycles_good _ _ sv). }
    rewrite (good_solver _ _ _ _ HG4) in H2.
    rewrite (proj2 (Z.eqb_neq _ _) Hsv) in H2.
    pose proof (solveLoop_good _ _ sv How ext fuel o4 o' p p' HG4 H2) as HG'.
    split; [done|]. intros v Hv. apply solveLoop_solved in H2. simpl in H2.
    apply gameSolved_all; [done|]. by rewrite (good_n _ _ _ _ HG'). }
  destruct (solveSingle o1) eqn:Ess.
  - destruct (solveSingleParity fuel o1) as [[r o2]| | |] eqn:E; simpl in H; try done.
    destruct r.
    + simpl in H. injection H as <- <-. split.
      * unfold solveSingleParity in E.
        destruct (single_scan _ _ _ _) as [parity|]; [|done].
        destruct ((parity =? 0) || (parity =? 1)) eqn:Ep; [|done].
        destruct (single_assign parity _ o1) as [oa| | |] eqn:E1; simpl in E; try done.
        destruct (flush fuel oa) as [ob| | |] eqn:E2; simpl in E; try done.
        injection E as <-. eapply flush_good; [|exact E2].
        eapply single_assign_good; [done| |exact E1].
        apply orb_true_iff in Ep as [Ep|Ep]; apply Z.eqb_eq in Ep; auto.
      * rewrite <- R1. rewrite Ho1 in E.
        apply (single_parity_solves fuel (set_game o0 (f g)) o2); try done; simpl.
        -- by rewrite R1.
        -- by rewrite length_map, length_seq.
        -- intros a. destruct (decide (a < n_nodes g)%nat) as [Ha|Ha].
           ++ rewrite zat_map_seq by done. lia.
           ++ rewrite zat_ge; [done|]. rewrite length_map, length_seq. lia.
    + simpl in H. apply (Hcont o2); [|done].
      destruct (solveSingleParity_false fuel o1) as [_ Hsame].
      by destruct (Hsame o2 E) as [-> _].
  - simpl in H. by apply (Hcont o1).
Qed.


(** ** The memo table only grows *)

Lemma memo_le_refl m : memo_le m m.
Proof. intros k x H. by exists x. Qed.

Lemma memo_le_trans m1 m2 m3 : memo_le m1 m2 → memo_le m2 m3 → memo_le m1 m3.
Proof.
  intros H1 H2 k x Hx. destruct (H1 k x Hx) as (y & Hy & Hxy).
  destruct (H2 k y Hy) as (z & Hz & Hyz). exists z. split; [done|]. by etrans.
Qed.

Section MemoGrowth.
Variables (g : Game) (flags : Z).

Lemma attr_seed_fold_memo (whose cat_no cat_yes : Z) (l : list nat) :
  ∀ acc, zsolver.memo (fold_left (zsolver.attr_seed g whose cat_no cat_yes) l acc).1 =
         zsolver.memo acc.1.
Proof.
  induction l as [|v l IH]; intros acc; [done|]. cbn [fold_left]. rewrite IH.
  destruct acc as [s q]. unfold zsolver.attr_seed.
  destruct (_ =? cat_yes); [done|]. by destruct (_ =? whose).
Qed.

Lemma attr_edge_fold_memo (whose cat_yes : Z) (v : nat) (l : list nat) :
  ∀ acc, zsolver.memo (fold_left (zsolver.attr_edge g whose cat_yes v) l acc).1 =
         zsolver.memo acc.1.
Proof.
  induction l as [|w l IH]; intros acc; [done|]. cbn [fold_left]. rewrite IH.
  destruct acc as [s q]. unfold zsolver.attr_edge. by destruct (_ =? 0).
Qed.

Lemma attr_loop_memo (fuel : nat) (whose cat_yes : Z) :
  ∀ pending s s', zsolver.attr_loop g fuel whose cat_yes pending s = Some s' →
                  zsolver.memo s' = zsolver.memo s.
Proof.
  induction fuel as [|fuel IH]; intros pending s s' H.
  - destruct pending; simpl in H; [by injection H as <-|done].
  - destruct pending as [|v pending]; simpl in H; [by injection H as <-|].
    pose proof (attr_edge_fold_memo whose cat_yes v (adj (in_ g) v) (s, [])) as Hm.
    destruct (fold_left _ _ (s, [])) as [s1 q1]. apply IH in H. rewrite H. done.
Qed.

Lemma attractor_memo (fuel : nat) (vs : list nat) (whose cat_no cat_yes : Z)
    (s s' : zsolver.state) :
  zsolver.attractor g fuel vs whose cat_no cat_yes s = Some s' →
  zsolver.memo s' = zsolver.memo s.
Proof.
  unfold zsolver.attractor. intros H.
  pose proof (attr_seed_fold_memo whose cat_no cat_yes vs
                (zsolver.set_degs s (resize (n_nodes g) (-1) (zsolver.degs s)), [])) as Hm.
  destruct (fold_left _ vs _) as [s1 q1].
  destruct (zsolver.attr_loop g fuel whose cat_yes q1 s1) as [s2|] eqn:E; [|done].
  simpl in H. injection H as <-. simpl. apply attr_loop_memo in E. rewrite E. done.
Qed.

Lemma concede_memo vs a b c s : zsolver.memo (zsolver.concede g vs a b c s) = zsolver.memo s.
Proof. done. Qed.

Lemma mark_hiprio_memo vs a b : ∀ s, zsolver.memo (zsolver.mark_hiprio g vs a b s) = zsolver.memo s.
Proof.
  unfold zsolver.mark_hiprio. induction vs as [|v vs IH]; intros s; [done|].
  cbn [fold_left]. rewrite IH. by destruct (_ =? a).
Qed.

Lemma partition_fold_memo (sub : list nat) (a b c : Z) :
  ∀ acc : zsolver.state * bool,
  zsolver.memo (fold_left
           (fun '((s, won) : zsolver.state * bool) (v : nat) =>
              if (if zat (owner g) v =? a then zat (zsolver.strategy s) v =? -1
                  else 0 <=? zat (zsolver.strategy s) v)
              then (zsolver.set_vtype s (<[v := c]> (zsolver.vtype s)), false)
              else (zsolver.set_vtype s (<[v := b]> (zsolver.vtype s)), won))
           sub acc).1 = zsolver.memo acc.1.
Proof.
  induction sub as [|v sub IH]; intros acc; [done|]. cbn [fold_left]. rewrite IH.
  destruct acc as [s w]. simpl.
  destruct (zat (owner g) v =? a);
    [destruct (zat (zsolver.strategy s) v =? -1)
    |destruct (0 <=? zat (zsolver.strategy s) v)]; done.
Qed.

Lemma partition_memo (sub : list nat) (a b c : Z) (s : zsolver.state) :
  zsolver.memo (zsolver.partition g sub a b c s).1 = zsolver.memo s.
Proof. exact (partition_fold_memo sub a b c (s, true)). Qed.

Lemma fill_hiprio_memo vs a b c : ∀ s, zsolver.memo (zsolver.fill_hiprio g vs a b c s) = zsolver.memo s.
Proof.
  unfold zsolver.fill_hiprio. induction vs as [|v vs IH]; intros s; [done|].
  cbn [fold_left]. rewrite IH. destruct (_ =? a); [|done]. destruct (_ =? b); [|done].
  generalize (adj (out g) v). intros l. revert s. induction l as [|e l IHl]; intros s; [done|].
  cbn [fold_left]. rewrite IHl. by destruct (_ =? c).
Qed.

Lemma memoizing_le precision vs s :
  memo_le (zsolver.memo s) (zsolver.memo (zsolver.memoizing flags precision vs s)).
Proof.
  unfold zsolver.memoizing. destruct (has_flag flags memoize); [|apply memo_le_refl].
  unfold zsolver.memo_store. simpl. intros k x Hk.
  destruct (decide (k = (precision, vs))) as [->|Hne].
  - rewrite lookup_insert_eq. eexists. split; [done|]. rewrite Hk. simpl. by apply prefix_app_r.
  - rewrite lookup_insert_ne by done. by exists x.
Qed.

Lemma run_memo_le (fuel : nat) :
  ∀ vs cat_base precision mode mprio s s',
  zsolver.run g flags fuel vs cat_base precision mode mprio s = Some s' →
  memo_le (zsolver.memo s) (zsolver.memo s').
Proof.
  induction fuel as [|fuel IH]; intros vs cat_base precision mode mprio s s' H; [done|].
  cbn [zsolver.run] in H.
  destruct (if has_flag flags memoize then zsolver.memo s !! (precision, vs) else None) as [m|].
  { injection H as <-. apply memo_le_refl. }
  destruct (length vs =? 0)%nat; [injection H as <-; apply memo_le_refl|].
  destruct (prec_at precision _ <=? 0); [injection H as <-; apply memo_le_refl|].
  cbn [zsolver.new_category] in H.
  match type of H with
  | context [zsolver.attractor g fuel vs ?a ?b ?c ?x] =>
      destruct (zsolver.attractor g fuel vs a b c x) as [s1|] eqn:E1; [|done];
      apply attractor_memo in E1; rewrite mark_hiprio_memo in E1; simpl in E1
  end.
  cbn [mbind option_bind] in H.
  match type of H with
  | context [mbind _ ?m] =>
      destruct m as [s2|] eqn:E2; [|done];
      assert (H12 : memo_le (zsolver.memo s1) (zsolver.memo s2))
  end.
  { destruct (prec_at _ _ =? 0); [injection E2 as <-; apply memo_le_refl|]. by eapply IH. }
  cbn [mbind option_bind] in H.
  match type of H with
  | context [zsolver.partition g ?a ?b ?c ?d ?x] =>
      pose proof (partition_memo a b c d x) as Hp;
      destruct (zsolver.partition g a b c d x) as [s3 won]
  end.
  simpl in Hp. rewrite <- E1. eapply memo_le_trans; [exact H12|]. rewrite <- Hp.
  destruct won.
  - destruct (mode =? 0).
    + by eapply IH.
    + injection H as <-. eapply memo_le_trans; [|apply memoizing_le].
      rewrite fill_hiprio_memo. apply memo_le_refl.
  - match type of H with
    | context [zsolver.attractor g fuel vs ?a ?b ?c ?x] =>
        destruct (zsolver.attractor g fuel vs a b c x) as [s4|] eqn:E4; [|done];
        apply attractor_memo in E4
    end.
    cbn [mbind option_bind] in H.
    match type of H with
    | context [mbind _ ?m] => destruct m as [s5|] eqn:E5; [|done]
    end.
    cbn [mbind option_bind] in H. injection H as <-.
    rewrite <- E4. eapply memo_le_trans; [by eapply IH|]. apply memoizing_le.
Qed.

End MemoGrowth.

Lemma memo_load_seq (m : list Z) (n : nat) :
  ∀ (k : nat) (str : list Z), (k ≤ n)%nat → length str = n →
  ∀ i, zat (fold_left (fun str i => <[default 0%nat (seq 0 n !! i) := zat m i]> str)
              (seq 0 k) str) i =
       if bool_decide (i < k)%nat then zat m i else zat str i.
Proof.
  induction k as [|k IH]; intros str Hk Hl i.
  - cbn [seq fold_left]. by rewrite bool_decide_eq_false_2 by lia.
  - rewrite seq_S, fold_left_app. cbn [fold_left]. rewrite lookup_seq_lt by lia.
    cbn [default]. change (0 + k)%nat with k.
    destruct (decide (i = k)) as [->|Hne].
    + rewrite zat_insert_eq.
      * by rewrite bool_decide_eq_true_2 by lia.
      * clear IH. revert str Hl. generalize (seq 0 k) as l.
        induction l as [|x l IHl]; intros str Hl; simpl; [lia|].
        apply IHl. by rewrite length_insert.
    + rewrite zat_insert_ne by done. rewrite IH by (done || lia).
      destruct (decide (i < k)%nat).
      * by rewrite !bool_decide_eq_true_2 by lia.
      * by rewrite !bool_decide_eq_false_2 by lia.
Qed.

(** The cache is a variable of the process and an invocation of the
    experimental solver never empties it.  Every
    entry present at the start is present at the end, at most extended;
    and with memoisation on, an invocation that finds its top-level key
    (the initial precision pair and the list of all vertices) in the
    cache returns the recorded strategies without one iteration. *)
Theorem memo_outlives_invocation (fuel : nat) (flags : Z) (o o' : Oink) (p p' : Process) :
  ExperimentalSolver_run fuel flags (o, p) = Ok (o', p') →
  memo_le (memo p) (memo p') ∧
  ∀ m, has_flag flags memoize = true →
       memo p !! (initial_precision (n_nodes (game o)),
                  initial_precision (n_nodes (game o)),
                  seq 0 (n_nodes (game o))) = Some m →
       ∃ s, zs_solve fuel flags (game o) p = Some s ∧
            zsolver.iters s = 0 ∧
            zsolver.memo s = memo p ∧
            ∀ i, (i < n_nodes (game o))%nat → zat (zsolver.strategy s) i = zat m i.
Proof.
  intros H. unfold ExperimentalSolver_run in H.
  destruct (zs_solve fuel flags (game o) p) as [s|] eqn:E; [|done].
  destruct (foldM _ _ o) as [o1| | |]; simpl in H; try done.
  injection H as _ <-. simpl. split.
  - unfold zs_solve in E. apply run_memo_le in E. exact E.
  - intros m Hf Hm. exists s. split; [done|].
    unfold zs_solve in E. destruct fuel as [|fuel]; [done|].
    cbn [zs_init zsolver.new_category] in E. cbn [zsolver.run] in E.
    rewrite Hf in E. simpl in E. rewrite Hm in E. injection E as <-.
    simpl. split; [done|]. split; [done|]. intros i Hi.
    rewrite length_seq.
    rewrite (memo_load_seq m (n_nodes (game o)) (n_nodes (game o))); [|done|].
    + by rewrite bool_decide_eq_true_2.
    + by rewrite length_replicate.
Qed.


(** ** The experimental solver and the mask *)

Lemma filter_ext_in (P1 P2 : nat → Prop)
    `{!∀ x, Decision (P1 x), !∀ x, Decision (P2 x)} (l : list nat) :
  (∀ x, x ∈ l → P1 x ↔ P2 x) → filter P1 l = filter P2 l.
Proof.
  induction l as [|a l IH]; intros Hext; [done|].
  rewrite !filter_cons, IH by (intros x Hx; apply Hext; by right).
  destruct (decide (P1 a)) as [Ha|Ha].
  - rewrite decide_True; [done|]. apply Hext; [by left|done].
  - rewrite decide_False; [done|]. intros Hb. apply Ha, Hext; [by left|done].
Qed.

Lemma absorb_fold (zstr : list Z) (l : list nat) :
  ∀ o : Oink,
  NoDup l →
  (∀ v, v ∈ l → (v < length (solved (game o)))%nat ∧ (v < length (disabled o))%nat) →
  (∀ v, v ∈ l → bat (disabled o) v = bat (solved (game o)) v) →
  ∃ o',
    foldM (absorb zstr) l o = Ok o' ∧
    (∀ v, bat (solved (game o')) v = true ↔ bat (solved (game o)) v = true ∨ v ∈ l) ∧
    (∀ v, v ∉ l ∨ bat (solved (game o)) v = true →
          zat (winner (game o')) v = zat (winner (game o)) v ∧
          zat (strategy (game o')) v = zat (strategy (game o)) v ∧
          bat (disabled o') v = bat (disabled o) v) ∧
    todo o' = rev (filter (fun v => bat (solved (game o)) v = false) l) ++ todo o.
Proof.
  induction l as [|i l IH]; intros o Hnd Hlen Hmask.
  - exists o. split; [reflexivity|]. split; [|split; [done|reflexivity]].
    intros v. split; [by left|]. intros [?|Hv]; [done|by apply elem_of_nil in Hv].
  - apply NoDup_cons in Hnd as [Hi Hnd]. cbn [foldM].
    destruct (bat (solved (game o)) i) eqn:Es.
    + assert (Ha : absorb zstr o i = Ok o) by (unfold absorb; by rewrite Es).
      rewrite Ha. cbn [mbind outcome_bind].
      destruct (IH o Hnd) as (o' & Hf & H1 & H2 & H3).
      { intros v Hv. apply Hlen. by right. }
      { intros v Hv. apply Hmask. by right. }
      exists o'. split; [exact Hf|]. split; [|split].
      * intros v. rewrite H1, elem_of_cons. split; [tauto|].
        intros [?|[->|?]]; auto.
      * intros v Hv. apply H2. destruct Hv as [Hv|Hv]; [|by right].
        left. intros Hin. apply Hv. by right.
      * rewrite H3, filter_cons. rewrite decide_False by congruence. done.
    + assert (Hd : bat (disabled o) i = false) by (rewrite Hmask; [done|by left]).
      destruct (Hlen i ltac:(by left)) as [Hls Hld].
      set (win := if 0 <=? zat zstr i then zat (owner (game o)) i
                  else if zat (owner (game o)) i =? 0 then 1 else 0).
      set (str := if 0 <=? zat zstr i then zat zstr i else -1).
      assert (Hsolve : absorb zstr o i = solve i win str o)
        by (unfold absorb, win, str; rewrite Es; by destruct (0 <=? zat zstr i)).
      rewrite Hsolve. unfold solve. rewrite Es, Hd. cbn [orb mbind outcome_bind].
      match goal with
      | |- context [foldM _ l ?x] => set (o1 := x)
      end.
      destruct (IH o1 Hnd) as (o' & Hf & H1 & H2 & H3).
      { intros v Hv. unfold o1. simpl. rewrite !length_insert. apply Hlen. by right. }
      { intros v Hv. unfold o1. simpl. assert (i ≠ v) by (intros ->; done).
        rewrite !bat_insert_ne by done. apply Hmask. by right. }
      exists o'. split; [exact Hf|]. split; [|split].
      * intros v. rewrite H1, elem_of_cons. unfold o1. simpl.
        destruct (decide (i = v)) as [->|Hne].
        -- rewrite bat_insert_eq by done. tauto.
        -- rewrite bat_insert_ne by done. split; [tauto|]. intros [?|[->|?]]; auto.
      * intros v Hv. assert (i ≠ v) as Hne.
        { intros ->. destruct Hv as [Hv|Hv]; [apply Hv; by left|congruence]. }
        destruct (H2 v) as (E1 & E2 & E3).
        { destruct Hv as [Hv|Hv]; [left; intros ?; apply Hv; by right|].
          right. unfold o1. simpl. by rewrite bat_insert_ne. }
        rewrite E1, E2, E3. unfold o1. simpl.
        rewrite !zat_insert_ne, bat_insert_ne by done. done.
      * rewrite H3, filter_cons. rewrite decide_True by done. simpl.
        rewrite <- app_assoc. simpl. f_equal. f_equal.
        apply filter_ext_in. intros v Hv. unfold o1. simpl.
        assert (i ≠ v) by (intros ->; done). by rewrite bat_insert_ne.
Qed.

(** The final loop of [ExperimentalSolver::run] tests [solved], not
    [disabled]: it cannot complete when a vertex of the game is masked
    and not solved, because [Oink::solve] refuses that vertex. *)
Lemma absorb_masked_aborts (zstr : list Z) (i : nat) (l : list nat) :
  ∀ o o' : Oink,
  i ∈ l → bat (solved (game o)) i = false → bat (disabled o) i = true →
  foldM (absorb zstr) l o ≠ Ok o'.
Proof.
  induction l as [|x l IH]; intros o o' Hi Hs Hd H; [by apply elem_of_nil in Hi|].
  cbn [foldM] in H. destruct (absorb zstr o x) as [o1| | |] eqn:E; simpl in H; try done.
  unfold absorb in E. destruct (decide (x = i)) as [->|Hne].
  - rewrite Hs in E. unfold solve in E. rewrite Hs, Hd in E. simpl in E.
    by destruct (0 <=? zat zstr i).
  - apply elem_of_cons in Hi as [->|Hi]; [done|].
    apply (IH o1 o' Hi); [| |exact H].
    + destruct (bat (solved (game o)) x); [by injection E as <-|].
      unfold solve in E. destruct (0 <=? zat zstr x);
        (destruct (_ || _); [done|]); injection E as <-; simpl;
        by rewrite bat_insert_ne.
    + destruct (bat (solved (game o)) x); [by injection E as <-|].
      unfold solve in E. destruct (0 <=? zat zstr x);
        (destruct (_ || _); [done|]); injection E as <-; simpl;
        by rewrite bat_insert_ne.
Qed.

Lemma masked_vertex_aborts (fuel : nat) (flags : Z) (o o' : Oink) (p p' : Process) (i : nat) :
  (i < n_nodes (game o))%nat →
  bat (solved (game o)) i = false → bat (disabled o) i = true →
  ExperimentalSolver_run fuel flags (o, p) ≠ Ok (o', p').
Proof.
  intros Hi Hs Hd H. unfold ExperimentalSolver_run in H.
  destruct (zs_solve fuel flags (game o) p) as [s|]; [|done].
  destruct (foldM _ _ o) as [o1| | |] eqn:E; simpl in H; try done.
  apply (absorb_masked_aborts (zsolver.strategy s) i _ o o1) in E; try done.
  apply elem_of_seq. lia.
Qed.

(** Vertex 2 of [game_side_loop] is decided and masked when the solver
    is constructed after the self-loop reduction, and the solver still
    puts it in its vertex list and writes a strategy for it. *)
Lemma solver_ignores_mask :
  bat (disabled oink_at_solver_entry) 2 = true ∧
  ¬ mask_respected 20 quick_priority oink_at_solver_entry fresh_process.
Proof.
  split; [reflexivity|]. intros H.
  destruct (zs_solve 20 quick_priority (game oink_at_solver_entry) fresh_process)
    as [s|] eqn:E; [|by vm_compute in E].
  specialize (H s E 2%nat eq_refl).
  vm_compute in E. injection E as <-. vm_compute in H. discriminate H.
Qed.


(** * Evaluations on concrete games *)

(** In mode 3 a precision that is positive on both sides is never read
    for a decision. *)
Lemma run_mode3_precision (g : Game) (flags : Z) (fuel : nat) :
  has_flag flags memoize = false →
  ∀ vs cat_base (p q : Z * Z) mprio s,
  0 < fst p → 0 < snd p → 0 < fst q → 0 < snd q →
  zsolver.run g flags fuel vs cat_base p 3 mprio s =
  zsolver.run g flags fuel vs cat_base q 3 mprio s.
Proof.
  intros Hf. induction fuel as [|fuel IH]; intros vs cat_base p q mprio s Hp1 Hp2 Hq1 Hq2;
    [done|].
  cbn [zsolver.run]. rewrite Hf.
  destruct (length vs =? 0)%nat; [done|].
  assert (Hpos : ∀ (r : Z * Z) i, 0 < fst r → 0 < snd r →
                   (prec_at r i <=? 0) = false ∧ (prec_at r i =? 0) = false).
  { intros r i H1 H2. unfold prec_at. destruct (i =? 0); split; lia. }
  match goal with
  | |- context [prec_at p ?i <=? 0] =>
      rewrite (proj1 (Hpos p i Hp1 Hp2)), (proj1 (Hpos q i Hq1 Hq2))
  end.
  cbn [zsolver.new_category]. change ((3 =? 0) || (3 =? 2)) with false. cbn iota.
  match goal with
  | |- context [zsolver.attractor g fuel vs ?a ?b ?c ?x] =>
      destruct (zsolver.attractor g fuel vs a b c x) as [s1|]; [|done]
  end.
  cbn [mbind option_bind].
  match goal with
  | |- context [prec_at p ?i =? 0] =>
      rewrite (proj2 (Hpos p i Hp1 Hp2)), (proj2 (Hpos q i Hq1 Hq2))
  end.
  change (3 =? 3) with true. cbn iota.
  rewrite (IH _ _ p q) by done.
  match goal with
  | |- context [mbind _ ?m] => destruct m as [s2|]; [|done]
  end.
  cbn [mbind option_bind].
  match goal with
  | |- context [zsolver.partition g ?a ?b ?c ?d ?x] =>
      destruct (zsolver.partition g a b c d x) as [s3 won]
  end.
  change (3 =? 0) with false. change (3 =? 1) with false. cbn iota.
  unfold zsolver.memoizing. rewrite Hf.
  destruct won; [done|].
  match goal with
  | |- context [zsolver.attractor g fuel vs ?a ?b ?c ?x] =>
      destruct (zsolver.attractor g fuel vs a b c x) as [s4|]; [|done]
  end.
  cbn [mbind option_bind]. by rewrite (IH _ _ p q).
Qed.

(** C4: with the precision 0 that the driver computes for one vertex,
    mode 3 concedes the frame; with any positive precision it does not. *)
Lemma zielonka_mode_reads_precision :
  initial_precision 1 = 0 ∧
  (zsolver.strategy <$>
     zsolver.run game_single_odd (Z.lor zielonka quick_priority) 10 [0%nat] 0 (0, 0) 3 (-1)
       (zs_init game_single_odd fresh_process).2) = Some [999] ∧
  (zsolver.strategy <$>
     zsolver.run game_single_odd (Z.lor zielonka quick_priority) 10 [0%nat] 0 (1, 1) 3 (-1)
       (zs_init game_single_odd fresh_process).2) = Some [-1] ∧
  (zsolver.strategy <$>
     zs_solve 10 (Z.lor zielonka quick_priority) game_single_odd fresh_process) = Some [999].
Proof. repeat split; vm_compute; reflexivity. Qed.

(** C2: the driver stores the sentinel 999 as the strategy of the vertex,
    and the wrong winner. *)
Lemma sentinel_stored_as_strategy :
  ∃ o' p',
    Oink_run no_externals 10
      (Oink_new game_single_odd (Solvers_id "epq") false false false false false true false,
       fresh_process) = Ok (o', p') ∧
    solved (game o') = [true] ∧
    owner (game o') = [0] ∧
    winner (game o') = [0] ∧
    strategy (game o') = [999] ∧
    Z.to_nat 999 ∉ adj (out (game o')) 0.
Proof.
  eexists. eexists. split; [vm_compute; reflexivity|].
  repeat split; try reflexivity. simpl. unfold adj. simpl.
  intros H. apply list_elem_of_singleton in H. discriminate H.
Qed.

(** C9: in the search from root 2 the vertex 1, disabled by the flush
    after the component found from root 3, is pushed on the stack. *)
Lemma trivial_cycles_push_disabled :
  ∃ s s',
    foldM (tc_root 20) [4; 3]%nat (tc_init oink_late_disabled) = Ok s ∧
    bat (disabled (tc_oink (tc_init oink_late_disabled))) 1 = false ∧
    bat (disabled (tc_oink s)) 1 = true ∧
    bat (disabled (tc_oink s)) 2 = false ∧
    zat (done s) 2 = -1 ∧
    tc_iter 20 2 (zat (priority game_late_disabled) 2)
      (Z.land (zat (priority game_late_disabled) 2) 1) (pre s) 2
      (tc_set_st s (2%nat :: st s)) = Ok s' ∧
    st s' = [1; 2]%nat ∧
    bat (disabled (tc_oink s')) 1 = true.
Proof.
  eexists. eexists. split; [vm_compute; reflexivity|].
  split; [reflexivity|]. split; [reflexivity|]. split; [reflexivity|].
  split; [reflexivity|]. split; [vm_compute; reflexivity|]. split; reflexivity.
Qed.

(** The cache is not empty after a top-level invocation, and the next
    invocation, on another game of the same size, hits the entry and
    returns the strategies of the first game. *)
Lemma memo_survives_invocation :
  ¬ memo_discarded 20 (Z.lor quick_priority memoize)
      (oink_of game_alternation "epqm") fresh_process ∧
  ∃ o1 p1 s2 s2',
    ExperimentalSolver_run 20 (Z.lor quick_priority memoize)
      (oink_of game_alternation "epqm", fresh_process) = Ok (o1, p1) ∧
    memo p1 !! (1, 1, [0; 1]%nat) = Some [1; -1] ∧
    zs_solve 20 (Z.lor quick_priority memoize) game_odd_cycle p1 = Some s2 ∧
    zsolver.iters s2 = 0 ∧ zsolver.strategy s2 = [1; -1] ∧
    zs_solve 20 (Z.lor quick_priority memoize) game_odd_cycle fresh_process = Some s2' ∧
    zsolver.iters s2' = 3 ∧ zsolver.strategy s2' = [-1; 0].
Proof.
  split.
  - intros H.
    destruct (ExperimentalSolver_run 20 (Z.lor quick_priority memoize)
                (oink_of game_alternation "epqm", fresh_process)) as [[o1 p1]| | |] eqn:E;
      try (by vm_compute in E).
    specialize (H o1 p1 E). vm_compute in E. injection E as _ <-.
    apply (f_equal (fun m => m !! (1, 1, [0; 1]%nat))) in H. vm_compute in H. discriminate H.
  - eexists. eexists. eexists. eexists.
    split; [vm_compute; reflexivity|]. split; [vm_compute; reflexivity|].
    split; [vm_compute; reflexivity|]. split; [reflexivity|]. split; [reflexivity|].
    split; [vm_compute; reflexivity|]. split; reflexivity.
Qed.

(** C3: on [game_ladder], with every reduction of the driver off, the
    solver epq runs with the initial precision 4 and gives every vertex
    to player 1, also vertex 3, whose only edge is its self-loop of
    priority 0, and the vertices 2 and 4 that lead to it; ez gives the
    three to player 0, and so does ep, which differs from epq only in the
    flag [quick_priority].  On [game_ladder_cycles] the same happens with
    the default reductions of the driver on, and the strategy stored for
    vertex 3 is the sentinel 999. *)
Lemma ez_epq_disagree :
  initial_precision 16 = 4 ∧
  adj (out game_ladder) 3 = [3%nat] ∧ zat (priority game_ladder) 3 = 0 ∧
  (∃ o p, Oink_run no_externals 100 (oink_of game_ladder "ez", fresh_process) = Ok (o, p) ∧
          winner (game o) = [1; 1; 0; 0; 0; 1; 1; 1; 1; 1; 1; 1; 1; 1; 1; 1]) ∧
  (∃ o p, Oink_run no_externals 100 (oink_of game_ladder "ep", fresh_process) = Ok (o, p) ∧
          winner (game o) = [1; 1; 0; 0; 0; 1; 1; 1; 1; 1; 1; 1; 1; 1; 1; 1]) ∧
  (∃ o p, Oink_run no_externals 100 (oink_of game_ladder "epq", fresh_process) = Ok (o, p) ∧
          winner (game o) = replicate 16 1) ∧
  (∃ o p, Oink_run no_externals 100
            (Oink_new game_ladder_cycles (Solvers_id "ez")
               false false false true true true false, fresh_process) = Ok (o, p) ∧
          winner (game o) =
            [1; 1; 0; 0; 0; 1; 1; 1; 1; 1; 1; 1; 1; 1; 1; 1; 1; 1; 1; 1; 1; 0; 1; 1; 1; 1]) ∧
  (∃ o p, Oink_run no_externals 100
            (Oink_new game_ladder_cycles (Solvers_id "epq")
               false false false true true true false, fresh_process) = Ok (o, p) ∧
          winner (game o) = replicate 26 1 ∧
          zat (owner (game o)) 3 = 1 ∧ zat (strategy (game o)) 3 = 999).
Proof.
  split; [reflexivity|]. split; [reflexivity|]. split; [reflexivity|].
  repeat split; eexists; eexists; (split; [vm_compute; reflexivity|]);
    repeat split; reflexivity.
Qed.

(** C7: from an empty cache, on [game_memo_iters] the solver epq makes 19
    iterations and epqm makes 22: the entry that a frame of mode 2 stored
    for the vertex list [0; 2] under the precision (3,1), with the
    sentinel 999 for vertex 2, is replayed in a frame of mode 0.  On
    [game_memo_strategy] epq leaves vertex 3 on its self-loop and epqm
    sends it to vertex 4. *)
Lemma memo_not_transparent :
  (zsolver.iters <$> zs_solve 100 quick_priority game_memo_iters fresh_process) = Some 19 ∧
  (zsolver.iters <$>
     zs_solve 100 (Z.lor quick_priority memoize) game_memo_iters fresh_process) = Some 22 ∧
  ((fun s => zsolver.memo s !! ((3, 1), [0; 2]%nat)) <$>
     zs_solve 100 (Z.lor quick_priority memoize) game_memo_iters fresh_process)
    = Some (Some [-1; 999]) ∧
  (∃ o p, Oink_run no_externals 100 (oink_of game_memo_strategy "epq", fresh_process)
            = Ok (o, p) ∧
          strategy (game o) = [0; 1; -1; 3; 4; 4; 6; 6; 8; 9]) ∧
  (∃ o p, Oink_run no_externals 100 (oink_of game_memo_strategy "epqm", fresh_process)
            = Ok (o, p) ∧
          strategy (game o) = [0; 1; -1; 4; 4; 4; 6; 6; 8; 9]).
Proof.
  split; [vm_compute; reflexivity|]. split; [vm_compute; reflexivity|].
  split; [vm_compute; reflexivity|].
  split; eexists; eexists; (split; [vm_compute; reflexivity|reflexivity]).
Qed.

(** With the bottom-SCC option the mask is narrowed to the selected
    component, here vertex 2 of [game_side_loop]; the solver still hands
    the masked vertex 0 to [Oink::solve], which aborts. *)
Lemma bottom_scc_mask_aborts :
  Oink_run (mkExternals (fun g => g) (fun g => g) (fun g => g) (fun _ => [2%nat])) 20
    (Oink_new game_side_loop (Solvers_id "epq") false false false false false false true,
     fresh_process) = LOGIC_ERROR.
Proof. vm_compute. reflexivity. Qed.


(** C5: the final loop of [ExperimentalSolver::run] passes to
    [Oink::solve] every vertex that is not solved, masked or not; the
    solver itself runs on the list of all vertices and never reads
    [disabled].  On [game_side_loop] with the bottom-SCC option, whichever
    of the two bottom components {2} and {0,1} is selected, the mask
    hides a vertex that is not solved: the solver writes its strategy
    for it, the loop passes it to [Oink::solve], and the test of
    [disabled] there aborts the run.  With {0,1} selected the loop gets
    through the vertices 0 and 1 and aborts at the masked vertex 2. *)
Lemma solver_passes_masked_vertex :
  Oink_run (select_scc [2%nat]) 20 (oink_narrowing, fresh_process) = LOGIC_ERROR ∧
  Oink_run (select_scc [0; 1]%nat) 20 (oink_narrowing, fresh_process) = LOGIC_ERROR ∧
  solved (game oink_narrowing) = [false; false; false] ∧
  (zsolver.strategy <$> zs_solve 20 quick_priority (game oink_narrowing) fresh_process)
    = Some [-1; 0; 2] ∧
  (∃ o, foldM (absorb [-1; 0; 2]) [0; 1]%nat
          (set_disabled oink_narrowing [false; false; true]) = Ok o ∧
        bat (solved (game o)) 2 = false ∧ bat (disabled o) 2 = true ∧
        absorb [-1; 0; 2] o 2 = solve 2 0 2 o ∧
        solve 2 0 2 o = LOGIC_ERROR) ∧
  ExperimentalSolver_run 20 quick_priority
    (set_disabled oink_narrowing [false; false; true], fresh_process) = LOGIC_ERROR ∧
  ExperimentalSolver_run 20 quick_priority
    (set_disabled oink_narrowing [true; true; false], fresh_process) = LOGIC_ERROR.
Proof.
  split; [vm_compute; reflexivity|]. split; [vm_compute; reflexivity|].
  split; [reflexivity|]. split; [vm_compute; reflexivity|].
  split; [|split; vm_compute; reflexivity].
  eexists. split; [vm_compute; reflexivity|].
  split; [reflexivity|]. split; [reflexivity|]. split; reflexivity.
Qed.

(** C6: the cache is a global that nothing clears, and its key holds the
    precision and the vertex list, not the game.  After a run of epqm on
    [game_alternation], a run on [game_odd_cycle] in the same process
    finds the top-level key, copies the strategies recorded for the
    other game without one iteration, and gives both vertices of the
    odd cycle to player 0.  From a process that has not run the solver,
    and with epq in the same process, both go to player 1, who wins
    them. *)
Lemma stale_cache_wrong_winner :
  ∃ o1 p1,
    Oink_run no_externals 20 (oink_of game_alternation "epqm", fresh_process)
      = Ok (o1, p1) ∧
    memo p1 !! (1, 1, [0; 1]%nat) = Some [1; -1] ∧
    initial_precision (n_nodes game_odd_cycle) = 1 ∧
    (zsolver.iters <$> zs_solve 20 (Z.lor quick_priority memoize) game_odd_cycle p1)
      = Some 0 ∧
    (∃ o2 p2, Oink_run no_externals 20 (oink_of game_odd_cycle "epqm", p1) = Ok (o2, p2) ∧
              winner (game o2) = [0; 0] ∧ strategy (game o2) = [1; -1]) ∧
    (∃ o3 p3, Oink_run no_externals 20 (oink_of game_odd_cycle "epqm", fresh_process)
                = Ok (o3, p3) ∧
              winner (game o3) = [1; 1] ∧ strategy (game o3) = [-1; 0]) ∧
    (∃ o4 p4, Oink_run no_externals 20 (oink_of game_odd_cycle "epq", p1) = Ok (o4, p4) ∧
              winner (game o4) = [1; 1] ∧ strategy (game o4) = [-1; 0]).
Proof.
  eexists. eexists. split; [vm_compute; reflexivity|].
  split; [vm_compute; reflexivity|]. split; [reflexivity|].
  split; [vm_compute; reflexivity|].
  split; [|split]; eexists; eexists;
    (split; [vm_compute; reflexivity|split; reflexivity]).
Qed.


(** * The theorems at concrete inputs *)

Lemma game_alternation_graph : graph_wf game_alternation.
Proof.
  constructor.
  - intros v w H. destruct v as [|[|v]]; vm_compute in H; mem_cases H; simpl; lia.
  - intros v w H. destruct v as [|[|v]]; vm_compute in H; mem_cases H; simpl; lia.
  - intros v w. destruct v as [|[|v]], w as [|[|w]]; reflexivity.
Defined.

Lemma game_alternation_wf : game_wf game_alternation.
Proof.
  constructor; [apply game_alternation_graph|reflexivity|reflexivity|].
  intros v. destruct v as [|[|v]]; vm_compute; auto.
Defined.

Lemma run_solves_every_vertex_witness :
  ∃ o' p',
    Oink_run no_externals 20
      (Oink_new game_alternation (Solvers_id "epq") false false false true true true false,
       fresh_process) = Ok (o', p') ∧
    bat (solved (game o')) 1 = true ∧
    (zat (winner (game o')) 1 = 0 ∨ zat (winner (game o')) 1 = 1) ∧
    ¬ (zat (winner (game o')) 1 = 0 ∧ zat (winner (game o')) 1 = 1).
Proof.
  eexists. eexists. split; [vm_compute; reflexivity|].
  eapply (run_solves_every_vertex no_externals 20 game_alternation (Solvers_id "epq")
            false false false true true true false fresh_process).
  - repeat split; reflexivity.
  - apply game_alternation_wf.
  - intros v. destruct v as [|[|v]]; reflexivity.
  - intros v Hv. destruct v as [|[|v]]; [discriminate|discriminate|simpl in Hv; lia].
  - vm_compute. discriminate.
  - vm_compute. reflexivity.
  - simpl. lia.
Defined.

Lemma attractor_correct_witness :
  ∃ s', zsolver.attractor game_alternation 2 [0; 1]%nat 0 0 1 zs_target_zero = Some s' ∧
        zat (zsolver.vtype s') 1 = 1 ∧ zat (zsolver.strategy s') 1 = -1.
Proof.
  destruct (attractor_correct game_alternation 2 [0; 1]%nat 0 0 1 zs_target_zero)
    as (s' & order & Heq & Hyes & _ & [_ Hord] & Hstr & _).
  - apply game_alternation_graph.
  - apply NoDup_cons. split; [intros H; mem_cases H; discriminate|].
    apply NoDup_cons. split; [intros H; mem_cases H|apply NoDup_nil_2].
  - intros v H. mem_cases H; simpl; lia.
  - reflexivity.
  - reflexivity.
  - apply Forall_nil_2.
  - intros v Hv. destruct v as [|[|v]]; [| |simpl in Hv; lia].
    + split; [intros _; by left|intros _; by right].
    + split; [intros _; right; by left|intros _; by left].
  - simpl. lia.
  - assert (HA : Attr game_alternation [0; 1]%nat 0
                   (fun v => zat (zsolver.vtype zs_target_zero) v = 1) 1).
    { apply Attr_opp.
      - right. by left.
      - discriminate.
      - exists 0%nat. split; by left.
      - intros w Hw _. vm_compute in Hw. mem_cases Hw.
        apply Attr_target; [by left|reflexivity]. }
    exists s'. split; [exact Heq|]. split.
    + apply Hyes; [simpl; lia|exact HA].
    + apply Hord in HA. apply list_elem_of_lookup in HA as [j Hj].
      apply (Hstr j 1%nat Hj); discriminate.
Defined.


(** * The driver never revises a decision *)

Lemma solution_kept_refl (g : Game) : solution_kept g g.
Proof. split; [done|]. by intros v Hv. Qed.

Lemma solution_kept_trans (g1 g2 g3 : Game) :
  solution_kept g1 g2 → solution_kept g2 g3 → solution_kept g1 g3.
Proof.
  intros [Hn12 H12] [Hn23 H23]. split; [congruence|]. intros v Hv.
  destruct (H12 v Hv) as (H1 & H2 & H3).
  destruct (H23 v H1) as (H4 & H5 & H6). split; [done|]. split; congruence.
Qed.

Lemma solution_kept_fields (g g' : Game) :
  n_nodes g' = n_nodes g →
  solved g' = solved g → winner g' = winner g → strategy g' = strategy g →
  solution_kept g g'.
Proof. intros H0 H1 H2 H3. split; [done|]. intros v Hv. by rewrite H1, H2, H3. Qed.

Lemma solution_kept_mark (g g' : Game) (i : nat) (w : Z) :
  bat (solved g) i = false →
  n_nodes g' = n_nodes g →
  solved g' = <[i := true]> (solved g) →
  winner g' = <[i := w]> (winner g) →
  (∀ v, v ≠ i → zat (strategy g') v = zat (strategy g) v) →
  solution_kept g g'.
Proof.
  intros Hi Hn Hs Hw Hstr. split; [done|]. intros v Hv.
  assert (Hne : i ≠ v) by (intros ->; congruence).
  rewrite Hs, Hw, bat_insert_ne, zat_insert_ne by done. split; [done|]. split; [done|].
  apply Hstr. done.
Qed.

Lemma solve_kept (node : nat) (win strat : Z) (o o' : Oink) :
  solve node win strat o = Ok o' → solution_kept (game o) (game o').
Proof.
  unfold solve. intros H.
  destruct (bat (solved (game o)) node) eqn:E; [done|]. simpl in H.
  destruct (bat (disabled o) node); [done|]. injection H as <-. simpl.
  eapply solution_kept_mark; [done|done|done|done|]. simpl. intros v Hv. by rewrite zat_insert_ne.
Qed.

Lemma flush_pred_kept (v : nat) (w : Z) (o : Oink) (i : nat) :
  solution_kept (game o) (game (flush_pred v w o i)).
Proof.
  unfold flush_pred. destruct (bat (solved (game o)) i) eqn:E; [apply solution_kept_refl|].
  destruct (zat (owner (game o)) i =? w).
  - eapply solution_kept_mark; [done|done|done|done|]. simpl. intros x Hx. by rewrite zat_insert_ne.
  - destruct (_ =? 0); [|apply solution_kept_refl].
    by eapply solution_kept_mark.
Qed.

Lemma fold_flush_pred_kept (v : nat) (w : Z) (l : list nat) :
  ∀ o, solution_kept (game o) (game (fold_left (flush_pred v w) l o)).
Proof.
  induction l as [|i l IH]; intros o; [apply solution_kept_refl|]. simpl.
  eapply solution_kept_trans; [apply flush_pred_kept|apply IH].
Qed.

Lemma flush_kept (fuel : nat) :
  ∀ o o', flush fuel o = Ok o' → solution_kept (game o) (game o').
Proof.
  induction fuel as [|fuel IH]; intros o o' H; rewrite flush_eq in H;
    (destruct (todo o) as [|v rest]; [injection H as <-; apply solution_kept_refl|]);
    simpl in H;
    (destruct (zat (outcount o) v =? -1); [injection H as <-; apply solution_kept_refl|]);
    [done|].
  apply IH in H. eapply solution_kept_trans; [|exact H].
  eapply solution_kept_trans; [|apply fold_flush_pred_kept]. apply solution_kept_refl.
Qed.

Lemma foldM_kept {A B : Type} (proj : A → Game) (f : A → B → outcome A) (l : list B) :
  (∀ a x a', f a x = Ok a' → solution_kept (proj a) (proj a')) →
  ∀ a a', foldM f l a = Ok a' → solution_kept (proj a) (proj a').
Proof.
  intros Hf. induction l as [|x l IH]; intros a a' H; simpl in H.
  - injection H as <-. apply solution_kept_refl.
  - destruct (f a x) as [a1| | |] eqn:E; simpl in H; try done.
    eapply solution_kept_trans; [by eapply Hf|by apply IH].
Qed.

Lemma single_pick_kept (i : nat) (parity : Z) (tos : list nat) (o o' : Oink) :
  single_pick i parity tos o = Ok o' → solution_kept (game o) (game o').
Proof.
  induction tos as [|to tos IH]; simpl; intros H.
  - injection H as <-. apply solution_kept_refl.
  - destruct (bat (disabled o) to); [auto|]. by eapply solve_kept.
Qed.

Lemma single_body_kept (parity : Z) (o : Oink) (i : nat) (o' : Oink) :
  single_body parity o i = Ok o' → solution_kept (game o) (game o').
Proof.
  unfold single_body. intros H.
  destruct (bat (disabled o) i); [injection H as <-; apply solution_kept_refl|].
  destruct (_ =? parity); [by eapply single_pick_kept|by eapply solve_kept].
Qed.

Lemma solveSingleParity_kept (fuel : nat) (o o' : Oink) (r : bool) :
  solveSingleParity fuel o = Ok (r, o') → solution_kept (game o) (game o').
Proof.
  unfold solveSingleParity. intros H.
  destruct (single_scan _ _ _ _) as [parity|];
    [|injection H as _ <-; apply solution_kept_refl].
  destruct (_ || _); [|injection H as _ <-; apply solution_kept_refl].
  destruct (single_assign parity _ o) as [o1| | |] eqn:E1; simpl in H; try done.
  destruct (flush fuel o1) as [o2| | |] eqn:E2; simpl in H; try done.
  injection H as _ <-.
  eapply solution_kept_trans; [|by eapply flush_kept].
  unfold single_assign in E1.
  exact (foldM_kept game (single_body parity) _ (single_body_kept parity) o o1 E1).
Qed.

Lemma selfloop_body_kept (acc : Oink * Z) (x : nat) (acc' : Oink * Z) :
  selfloop_body acc x = Ok acc' → solution_kept (game acc.1) (game acc'.1).
Proof.
  destruct acc as [o r]. simpl. intros H.
  destruct (bat (disabled o) x); [injection H as <-; apply solution_kept_refl|].
  destruct (bool_decide _); [|injection H as <-; apply solution_kept_refl].
  destruct (_ =? Z.land _ 1).
  - destruct (solve x _ _ o) as [o1| | |] eqn:E; simpl in H; try done.
    injection H as <-. simpl. by eapply solve_kept.
  - destruct (_ =? 1)%nat.
    + destruct (solve x _ _ o) as [o1| | |] eqn:E; simpl in H; try done.
      injection H as <-. simpl. by eapply solve_kept.
    + simpl in H. injection H as <-. simpl. by apply solution_kept_fields.
Qed.

Lemma solveSelfloops_kept (fuel : nat) (o o' : Oink) (r : Z) :
  solveSelfloops fuel o = Ok (r, o') → solution_kept (game o) (game o').
Proof.
  unfold solveSelfloops. intros H.
  destruct (foldM selfloop_body _ (o, 0)) as [[o1 r1]| | |] eqn:E; simpl in H; try done.
  destruct (flush fuel o1) as [o2| | |] eqn:E2; simpl in H; try done.
  injection H as _ <-.
  eapply solution_kept_trans; [|by eapply flush_kept].
  exact (foldM_kept (fun a : Oink * Z => game a.1) selfloop_body _ selfloop_body_kept
           (o, 0) (o1, r1) E).
Qed.

Lemma tc_back_edge_kept (lw : list Z) (pl min : Z) (cur : nat)
    (acc : Oink * list nat) (from : nat) (acc' : Oink * list nat) :
  tc_back_edge lw pl min cur acc from = Ok acc' → solution_kept (game acc.1) (game acc'.1).
Proof.
  destruct acc as [o q]. simpl. intros H.
  destruct (negb _ || _); [injection H as <-; apply solution_kept_refl|].
  destruct (solve from pl (Z.of_nat cur) o) as [o1| | |] eqn:E; simpl in H; try done.
  injection H as <-. simpl. by eapply solve_kept.
Qed.

Lemma tc_back_kept (fuel : nat) (lw : list Z) (pl min : Z) :
  ∀ (q : list nat) (o o' : Oink),
  tc_back fuel lw pl min q o = Ok o' → solution_kept (game o) (game o').
Proof.
  induction fuel as [|fuel IH]; intros q o o' H.
  - destruct q; simpl in H; [injection H as <-; apply solution_kept_refl|done].
  - destruct q as [|cur q]; simpl in H; [injection H as <-; apply solution_kept_refl|].
    destruct (foldM _ _ (o, q)) as [[o1 q1]| | |] eqn:E; simpl in H; try done.
    eapply solution_kept_trans; [|by eapply IH].
    exact (foldM_kept (fun a : Oink * list nat => game a.1) _ _
             (tc_back_edge_kept lw pl min cur) (o, q) (o1, q1) E).
Qed.

Lemma tc_iter_kept (fuel i : nat) (pr pl bot : Z) (idx : nat) (s s' : tc_state) :
  tc_iter fuel i pr pl bot idx s = Ok s' →
  solution_kept (game (tc_oink s)) (game (tc_oink s')).
Proof.
  intros H. unfold tc_iter in H.
  match type of H with
  | context [mbind _ ?m] => destruct m as [s1| | |] eqn:E1; simpl in H; try done
  end.
  assert (H1 : tc_oink s1 = tc_oink s).
  { destruct (zat (low s) idx <=? bot); [|by injection E1 as <-].
    destruct (_ <? 0) in E1; [done|]. by injection E1 as <-. }
  destruct (tc_edges s1 i pr pl bot _ _) as [[to|] mn].
  { injection H as <-. simpl. rewrite H1. apply solution_kept_refl. }
  destruct (mn <? zat (low s1) idx).
  { injection H as <-. simpl. rewrite H1. apply solution_kept_refl. }
  destruct (tc_collect _ pr pl mn idx (res s1) s1 (-1) (-1) (-1))
    as [[[[s2 a] b] c]|] eqn:E2; [|done].
  apply tc_collect_oink in E2.
  destruct (_ && _).
  { injection H as <-. simpl. rewrite E2, H1. apply solution_kept_refl. }
  destruct (negb _).
  { injection H as <-. simpl. rewrite E2, H1. apply solution_kept_refl. }
  destruct (tc_back fuel (low s2) pl mn _ (tc_oink s2)) as [o1| | |] eqn:E3;
    simpl in H; try done.
  destruct (flush fuel o1) as [o2| | |] eqn:E4; simpl in H; try done.
  injection H as <-. simpl. apply tc_back_kept in E3. apply flush_kept in E4.
  rewrite E2, H1 in E3. by eapply solution_kept_trans.
Qed.

Lemma tc_while_kept (fuel i : nat) (pr pl bot : Z) :
  ∀ s s', tc_while fuel i pr pl bot s = Ok s' →
          solution_kept (game (tc_oink s)) (game (tc_oink s')).
Proof.
  induction fuel as [|fuel IH]; intros s s' H.
  - simpl in H. destruct (st s); [injection H as <-; apply solution_kept_refl|done].
  - simpl in H. destruct (st s) as [|idx rest]; [injection H as <-; apply solution_kept_refl|].
    destruct (tc_iter fuel i pr pl bot idx s) as [s1| | |] eqn:E; simpl in H; try done.
    eapply solution_kept_trans; [by eapply tc_iter_kept|by apply IH].
Qed.

Lemma tc_root_kept (fuel : nat) (s : tc_state) (i : nat) (s' : tc_state) :
  tc_root fuel s i = Ok s' → solution_kept (game (tc_oink s)) (game (tc_oink s')).
Proof.
  intros H. unfold tc_root in H.
  destruct (bat _ i); [injection H as <-; apply solution_kept_refl|].
  destruct (zat (done s) i =? -2); [injection H as <-; apply solution_kept_refl|].
  destruct (negb _); [injection H as <-; apply solution_kept_refl|].
  destruct (zat (done s) i =? _); [injection H as <-; apply solution_kept_refl|].
  by apply tc_while_kept in H.
Qed.

Lemma solveTrivialCycles_kept (fuel : nat) (o o' : Oink) (r : Z) :
  solveTrivialCycles fuel o = Ok (r, o') → solution_kept (game o) (game o').
Proof.
  unfold solveTrivialCycles. intros H.
  destruct (foldM (tc_root fuel) _ (tc_init o)) as [s| | |] eqn:E; simpl in H; try done.
  injection H as _ <-.
  exact (foldM_kept (fun a => game (tc_oink a)) (tc_root fuel) _ (tc_root_kept fuel)
           (tc_init o) s E).
Qed.

Lemma absorb_kept (zstr : list Z) (o : Oink) (i : nat) (o' : Oink) :
  absorb zstr o i = Ok o' → solution_kept (game o) (game o').
Proof.
  unfold absorb. intros H.
  destruct (bat _ i); [injection H as <-; apply solution_kept_refl|].
  destruct (0 <=? zat zstr i); by eapply solve_kept.
Qed.

Lemma ExperimentalSolver_run_kept (fuel : nat) (flags : Z) (o o' : Oink) (p p' : Process) :
  ExperimentalSolver_run fuel flags (o, p) = Ok (o', p') → solution_kept (game o) (game o').
Proof.
  unfold ExperimentalSolver_run. intros H.
  destruct (zs_solve fuel flags (game o) p) as [s|]; [|done].
  destruct (foldM _ _ o) as [o1| | |] eqn:E; simpl in H; try done.
  injection H as <- _.
  exact (foldM_kept game _ _ (absorb_kept (zsolver.strategy s)) o o1 E).
Qed.

Lemma solveLoop_body_kept (ext : Externals) (fuel : nat) (o o' : Oink) (p p' : Process) :
  solveLoop_body ext fuel (o, p) = Ok (o', p') → solution_kept (game o) (game o').
Proof.
  unfold solveLoop_body. intros H.
  match type of H with
  | context [ExperimentalSolver_run _ _ (?x, _)] =>
      assert (Hg : game x = game o) by (by destruct (bottomSCC _));
      generalize dependent x; intros o1 H Hg
  end.
  destruct (Solvers_flags (solver o1)) as [fl|]; [|done].
  destruct (ExperimentalSolver_run fuel fl (o1, p)) as [[o2 p2]| | |] eqn:E;
    simpl in H; try done.
  destruct (flush fuel o2) as [o3| | |] eqn:E3; simpl in H; try done.
  injection H as <- <-. apply ExperimentalSolver_run_kept in E. apply flush_kept in E3.
  rewrite Hg in E. by eapply solution_kept_trans.
Qed.

Lemma solveLoop_kept (ext : Externals) (fuel : nat) :
  ∀ (o o' : Oink) (p p' : Process),
  solveLoop ext fuel (o, p) = Ok (o', p') → solution_kept (game o) (game o').
Proof.
  induction fuel as [|fuel IH]; intros o o' p p' H; rewrite solveLoop_eq in H;
    (destruct (gameSolved (game (o, p).1));
     [injection H as <- <-; apply solution_kept_refl|]); [done|].
  destruct (solveLoop_body ext fuel (o, p)) as [[o1 p1]| | |] eqn:E; simpl in H; try done.
  eapply solution_kept_trans; [by eapply solveLoop_body_kept|by eapply IH].
Qed.

(** X1: [Oink::run] never revises a decision: a vertex that is solved
    when [run] is entered is solved on return, with the winner and the
    strategy it had.  This holds through the remapping of the
    priorities, the three reductions, every solver invocation and every
    flush. *)
Theorem run_keeps_decisions (ext : Externals) (fuel : nat) (o o' : Oink) (p p' : Process) :
  externals_ok ext →
  Oink_run ext fuel (o, p) = Ok (o', p') →
  ∀ v, bat (solved (game o)) v = true →
       bat (solved (game o')) v = true ∧
       zat (winner (game o')) v = zat (winner (game o)) v ∧
       zat (strategy (game o')) v = zat (strategy (game o)) v.
Proof.
  intros (Hinf & Hcomp & Hren) H.
  enough (Hk : solution_kept (game o) (game o')) by apply Hk.
  unfold Oink_run in H.
  match type of H with
  | context [solveSingle ?x] =>
      assert (H1 : solution_kept (game o) (game x));
      [|generalize dependent x; intros o1 H H1]
  end.
  { destruct (inflate o).
    { destruct (Hinf (game o)) as (? & _ & _ & _ & ? & ? & ?). by apply solution_kept_fields. }
    destruct (compress o).
    { destruct (Hcomp (game o)) as (? & _ & _ & _ & ? & ? & ?). by apply solution_kept_fields. }
    destruct (renumber o); [|apply solution_kept_refl].
    destruct (Hren (game o)) as (? & _ & _ & _ & ? & ? & ?). by apply solution_kept_fields. }
  eapply solution_kept_trans; [exact H1|]. clear H1.
  match type of H with
  | context [mbind _ ?m] => destruct m as [[oa|ob]| | |] eqn:E1; simpl in H; try done
  end.
  { injection H as <- _. destruct (solveSingle o1); [|done].
    destruct (solveSingleParity fuel o1) as [[r o2]| | |] eqn:E; simpl in E1; try done.
    destruct r; [|done]. injection E1 as <-. by eapply solveSingleParity_kept. }
  assert (H2 : solution_kept (game o1) (game ob)).
  { destruct (solveSingle o1); [|injection E1 as <-; apply solution_kept_refl].
    destruct (solveSingleParity fuel o1) as [[r o2]| | |] eqn:E; simpl in E1; try done.
    destruct r; [done|]. injection E1 as <-. by eapply solveSingleParity_kept. }
  eapply solution_kept_trans; [exact H2|]. clear H2 E1.
  match type of H with
  | context [mbind _ ?m] => destruct m as [o3| | |] eqn:E3; simpl in H; try done
  end.
  assert (H3 : solution_kept (game ob) (game o3)).
  { destruct (removeLoops ob); [|injection E3 as <-; apply solution_kept_refl].
    destruct (solveSelfloops fuel ob) as [[r3 o3']| | |] eqn:E; simpl in E3; try done.
    injection E3 as <-. by eapply solveSelfloops_kept. }
  eapply solution_kept_trans; [exact H3|]. clear H3 E3.
  match type of H with
  | context [mbind _ ?m] => destruct m as [o4| | |] eqn:E4; simpl in H; try done
  end.
  assert (H4 : solution_kept (game o3) (game o4)).
  { destruct (removeWCWC o3); [|injection E4 as <-; apply solution_kept_refl].
    destruct (solveTrivialCycles fuel o3) as [[r4 o4']| | |] eqn:E; simpl in E4; try done.
    injection E4 as <-. by eapply solveTrivialCycles_kept. }
  eapply solution_kept_trans; [exact H4|]. clear H4 E4.
  destruct (solver o4 =? -1); [injection H as <- _; apply solution_kept_refl|].
  by eapply solveLoop_kept.
Qed.


(** * One turn of the solver loop *)

(** X2: without the bottom-SCC option one turn of the driver's loop
    decides the whole game, so the loop body runs at most once. *)
Theorem solveLoop_single_turn (ext : Externals) (fuel fuel' : nat) (o o' : Oink)
    (p p' : Process) :
  bottomSCC o = false →
  length (solved (game o)) = n_nodes (game o) →
  solveLoop_body ext fuel (o, p) = Ok (o', p') →
  gameSolved (game o') = true ∧ solveLoop ext fuel' (o', p') = Ok (o', p').
Proof.
  intros Hb Hl H.
  enough (Hs : gameSolved (game o') = true).
  { split; [done|]. rewrite solveLoop_eq. simpl. by rewrite Hs. }
  unfold solveLoop_body in H.
  change (bottomSCC (set_disabled o (solved (game o)))) with (bottomSCC o) in H.
  rewrite Hb in H.
  change (solver (set_disabled o (solved (game o)))) with (solver o) in H.
  destruct (Solvers_flags (solver o)) as [fl|]; [|done].
  destruct (ExperimentalSolver_run fuel fl _) as [[o2 p2]| | |] eqn:E; simpl in H; try done.
  destruct (flush fuel o2) as [o3| | |] eqn:E3; simpl in H; try done.
  injection H as <- <-.
  unfold ExperimentalSolver_run in E.
  change (game (set_disabled o (solved (game o)))) with (game o) in E.
  destruct (zs_solve fuel fl (game o) p) as [s|]; [|done].
  destruct (absorb_fold (zsolver.strategy s) (seq 0 (n_nodes (game o)))
              (set_disabled o (solved (game o)))) as (o2' & Hf & Hall & _).
  { apply NoDup_seq. }
  { intros v Hv. apply elem_of_seq in Hv. simpl. lia. }
  { done. }
  rewrite Hf in E. simpl in E. injection E as <- _.
  assert (Hn2 : n_nodes (game o2') = n_nodes (game o)).
  { apply (foldM_kept game _ _ (absorb_kept (zsolver.strategy s))) in Hf. apply Hf. }
  destruct (flush_kept fuel o2' o3 E3) as [Hn3 Hk3].
  unfold gameSolved. apply forallb_forall. intros v Hv.
  apply list_elem_of_In, elem_of_seq in Hv. apply Hk3, Hall. right.
  apply elem_of_seq. lia.
Qed.


(** * A search for cycles without a candidate *)

Lemma foldM_ok {A B : Type} (P : A → Prop) (f : A → B → outcome A) (l : list B) :
  (∀ a x, x ∈ l → P a → ∃ a', f a x = Ok a' ∧ P a') →
  ∀ a, P a → ∃ a', foldM f l a = Ok a' ∧ P a'.
Proof.
  induction l as [|x l IH]; intros Hf a Ha; simpl.
  - by exists a.
  - destruct (Hf a x) as (a1 & -> & Ha1); [by left|done|]. simpl.
    apply IH; [|done]. intros b y Hy. apply Hf. by right.
Qed.

(** X3: when no enabled vertex belongs to the player whose parity its
    priority has, [solveTrivialCycles] starts no search: it returns 0
    and leaves the driver as it was. *)
Theorem solveTrivialCycles_no_candidate (fuel : nat) (o : Oink) :
  (∀ i, (i < n_nodes (game o))%nat → bat (disabled o) i = false →
        zat (owner (game o)) i ≠ Z.land (zat (priority (game o)) i) 1) →
  solveTrivialCycles fuel o = Ok (0, o).
Proof.
  intros Hno. unfold solveTrivialCycles.
  destruct (foldM_ok (fun s => tc_oink s = o ∧ count s = 0) (tc_root fuel)
              (rev (seq 0 (n_nodes (game o)))) ) with (a := tc_init o)
    as (s & -> & Ho & Hc); [|done|simpl; by rewrite Ho, Hc].
  intros s i Hi [Ho Hc]. apply list_elem_of_In, in_rev, list_elem_of_In, elem_of_seq in Hi.
  unfold tc_root. rewrite Ho.
  destruct (bat (disabled o) i) eqn:Ed; [by exists s|].
  destruct (zat (done s) i =? -2); [by exists s|].
  rewrite (proj2 (Z.eqb_neq _ _) (Hno i ltac:(lia) Ed)). simpl.
  eexists. split; [done|]. done.
Qed.

(** * [Oink::flush] returns *)

Lemma filter_mark_length (sl : list bool) (i : nat) (l : list nat) :
  NoDup l → bat sl i = false → (i < length sl)%nat →
  (length (filter (fun v => bat (<[i := true]> sl) v = false) l)
   + (if bool_decide (i ∈ l) then 1 else 0) =
   length (filter (fun v => bat sl v = false) l))%nat.
Proof.
  intros Hnd Hi Hl. induction l as [|x l IH]; [done|].
  apply NoDup_cons in Hnd as [Hx Hnd]. specialize (IH Hnd).
  rewrite !filter_cons. destruct (decide (x = i)) as [->|Hne].
  - rewrite bat_insert_eq by done. rewrite decide_False; [|done].
    rewrite decide_True; [|done]. rewrite bool_decide_eq_true_2 by (by left).
    rewrite (bool_decide_eq_false_2 _ Hx) in IH. simpl. lia.
  - rewrite bat_insert_ne by done.
    assert (Hb : bool_decide (i ∈ x :: l) = bool_decide (i ∈ l)).
    { apply bool_decide_ext. rewrite elem_of_cons.
      split; [intros [Heq|Hin]; [congruence|done]|by right]. }
    rewrite Hb. destruct (decide (bat sl x = false)); simpl; lia.
Qed.

Lemma unsolved_count_mark (g g' : Game) (i : nat) :
  n_nodes g' = n_nodes g → solved g' = <[i := true]> (solved g) →
  bat (solved g) i = false → (i < n_nodes g)%nat → length (solved g) = n_nodes g →
  (unsolved_count g' + 1 = unsolved_count g)%nat.
Proof.
  intros Hn Hs Hi Hlt Hl. unfold unsolved_count. rewrite Hn, Hs.
  pose proof (filter_mark_length (solved g) i (seq 0 (n_nodes g))
                (NoDup_seq _ _) Hi ltac:(lia)) as H.
  rewrite bool_decide_eq_true_2 in H by (apply elem_of_seq; lia). done.
Qed.

Lemma flush_pred_measure (v : nat) (w : Z) (o : Oink) (i : nat) :
  (i < n_nodes (game o))%nat → length (solved (game o)) = n_nodes (game o) →
  flush_shape o (flush_pred v w o i) ∧
  flush_measure (flush_pred v w o i) = flush_measure o.
Proof.
  intros Hi Hl. unfold flush_pred.
  destruct (bat (solved (game o)) i) eqn:E; [done|].
  assert (Hmark : ∀ o1, n_nodes (game o1) = n_nodes (game o) →
                        in_ (game o1) = in_ (game o) →
                        solved (game o1) = solved (game o) → todo o1 = todo o →
                        flush_shape o (flush_mark i w o1) ∧
                        flush_measure (flush_mark i w o1) = flush_measure o).
  { intros o1 H1 H2 H3 H4. split.
    - unfold flush_shape. simpl. rewrite length_insert, H3. done.
    - unfold flush_measure. simpl.
      pose proof (unsolved_count_mark (game o)
        (set_winner (set_solved (game o1) (<[i:=true]> (solved (game o1))))
           (<[i:=w]> (winner (game o1)))) i) as Hc.
      simpl in Hc. rewrite H3 in Hc. specialize (Hc H1 eq_refl E Hi Hl).
      rewrite H3, H4. lia. }
  destruct (_ =? w); [by apply Hmark|].
  destruct (_ =? 0); [by apply Hmark|]. done.
Qed.

Lemma fold_flush_pred_measure (v : nat) (w : Z) (l : list nat) :
  ∀ o, (∀ i, i ∈ l → (i < n_nodes (game o))%nat) →
       length (solved (game o)) = n_nodes (game o) →
       flush_shape o (fold_left (flush_pred v w) l o) ∧
       flush_measure (fold_left (flush_pred v w) l o) = flush_measure o.
Proof.
  induction l as [|i l IH]; intros o Hl Hs; [done|]. simpl.
  destruct (flush_pred_measure v w o i) as ((S1 & S2 & S3) & Hm); [apply Hl; by left|done|].
  destruct (IH (flush_pred v w o i)) as ((T1 & T2 & T3) & Hm').
  - intros j Hj. rewrite S1. apply Hl. by right.
  - by rewrite S3, S1.
  - split; [|by rewrite Hm']. unfold flush_shape. by rewrite T1, T2, T3.
Qed.

Lemma flush_returns (fuel : nat) :
  ∀ o : Oink,
  (∀ v u, u ∈ adj (in_ (game o)) v → (u < n_nodes (game o))%nat) →
  length (solved (game o)) = n_nodes (game o) →
  (length (todo o) + unsolved_count (game o) ≤ fuel)%nat →
  ∃ o', flush fuel o = Ok o' ∧
        (length (todo o') + unsolved_count (game o') ≤
         length (todo o) + unsolved_count (game o))%nat.
Proof.
  induction fuel as [|fuel IH]; intros o Hin Hls Hfuel; rewrite flush_eq;
    (destruct (todo o) as [|v rest] eqn:Et; [exists o; rewrite Et; by split|]);
    cbn zeta; simpl in Hfuel;
    (destruct (zat (outcount (set_todo o rest)) v =? -1);
       [eexists; split; [done|simpl; lia]|]); [lia|].
  match goal with
  | |- context [fold_left ?f ?l ?a] =>
      destruct (fold_flush_pred_measure v
                  (if zat (winner (game o)) v =? 0 then 0 else 1) l a)
        as ((S1 & S2 & S3) & Hm);
      [simpl; intros i Hi; by eapply Hin|done|];
      set (o1 := fold_left f l a) in *
  end.
  change (n_nodes (game o1) = n_nodes (game o)) in S1.
  change (in_ (game o1) = in_ (game o)) in S2.
  change (length (solved (game o1)) = length (solved (game o))) in S3.
  change ((length (todo o1) + unsolved_count (game o1))%nat =
          (length rest + unsolved_count (game o))%nat) in Hm.
  destruct (IH o1) as (o' & Ho' & Hle).
  - intros x u Hu. rewrite S1. rewrite S2 in Hu. by eapply Hin.
  - by rewrite S3, S1.
  - lia.
  - exists o'. split; [done|]. simpl. lia.
Qed.

(** X4: [Oink::flush] returns.  A turn of its loop takes one vertex off
    [todo], and a vertex is pushed only when it becomes solved; so the
    loop makes at most [length todo] plus the number of unsolved vertices
    turns, and that sum does not grow. *)
Theorem flush_terminates (fuel : nat) (o : Oink) :
  (∀ v u, u ∈ adj (in_ (game o)) v → (u < n_nodes (game o))%nat) →
  length (solved (game o)) = n_nodes (game o) →
  (length (todo o) + unsolved_count (game o) ≤ fuel)%nat →
  ∃ o', flush fuel o = Ok o' ∧
        (length (todo o') + unsolved_count (game o') ≤
         length (todo o) + unsolved_count (game o))%nat.
Proof. apply flush_returns. Qed.


(** * Counting self-loops *)

Lemma adj_insert_ne (ls : list (list nat)) (i j : nat) (l : list nat) :
  i ≠ j → adj (<[i := l]> ls) j = adj ls j.
Proof. intros Hne. unfold adj. by rewrite list_lookup_insert_ne. Qed.

Lemma adj_insert_sub (ls : list (list nat)) (i j : nat) (l : list nat) (u : nat) :
  (∀ x, x ∈ l → x ∈ adj ls i) → u ∈ adj (<[i := l]> ls) j → u ∈ adj ls j.
Proof.
  intros Hl Hu. destruct (decide (i = j)) as [->|Hne].
  - destruct (decide (j < length ls)%nat).
    + unfold adj in Hu. rewrite list_lookup_insert_eq in Hu by done. by apply Hl.
    + by rewrite list_insert_ge in Hu by lia.
  - by rewrite adj_insert_ne in Hu.
Qed.

Lemma selfloop_body_inv (o0 o : Oink) (r : Z) (x : nat) (l : list nat) :
  (∀ v, bat (disabled o0) v = false → bat (solved (game o0)) v = false) →
  SelfloopInv o0 (x :: l) o → x ∉ l → (x < n_nodes (game o0))%nat →
  ∃ o', selfloop_body (o, r) x =
          Ok (o', r + (if has_selfloop o0 x then 1 else 0)) ∧
        SelfloopInv o0 l o'.
Proof.
  intros Hmask [I1 I2 I3 I4 I5] Hx Hlt.
  destruct (I1 x ltac:(by left)) as (Hd & Ho & Hs).
  assert (Hrest : SelfloopInv o0 l o).
  { constructor; try done. intros v Hv. apply I1. by right. }
  unfold selfloop_body. rewrite Hd, Ho.
  destruct (bat (disabled o0) x) eqn:Ed.
  { exists o. split; [|done]. unfold has_selfloop. rewrite Ed. simpl.
    by rewrite Z.add_0_r. }
  destruct (decide (x ∈ adj (out (game o0)) x)) as [Hloop|Hloop].
  2:{ rewrite bool_decide_eq_false_2 by done. exists o. split; [|done].
      unfold has_selfloop. rewrite bool_decide_eq_false_2 by done.
      rewrite andb_false_r. by rewrite Z.add_0_r. }
  rewrite bool_decide_eq_true_2 by done.
  assert (Hhas : has_selfloop o0 x = true).
  { unfold has_selfloop. rewrite Ed. by rewrite bool_decide_eq_true_2. }
  rewrite Hhas.
  assert (Hsx : bat (solved (game o)) x = false) by (rewrite Hs; by apply Hmask).
  assert (Hdx : bat (disabled o) x = false) by congruence.
  assert (Hsolve : ∀ win strat, ∃ o',
            solve x win strat o = Ok o' ∧ SelfloopInv o0 l o').
  { intros win strat. unfold solve. rewrite Hsx, Hdx. simpl. eexists. split; [done|].
    constructor; simpl; try done; try (by rewrite length_insert).
    - intros v Hv. assert (x ≠ v) by (by intros ->).
      rewrite !bat_insert_ne by done. apply I1. by right.
    - rewrite <- I5. unfold flush_measure. simpl.
      match goal with
      | |- context [unsolved_count ?g'] =>
          pose proof (unsolved_count_mark (game o) g' x eq_refl eq_refl Hsx
                        ltac:(lia) ltac:(lia)) as Hc
      end. lia. }
  destruct (_ =? Z.land _ 1).
  { destruct (Hsolve (zat (owner (game o)) x) (Z.of_nat x)) as (o' & -> & Ho'). by exists o'. }
  destruct (_ =? 1)%nat.
  { destruct (Hsolve (1 - zat (owner (game o)) x) (-1)) as (o' & -> & Ho'). by exists o'. }
  simpl. eexists. split; [done|]. constructor; simpl; try done.
  - intros v Hv. assert (x ≠ v) by (by intros ->).
    rewrite adj_insert_ne by done. apply I1. by right.
  - intros v u Hu. apply I4. eapply adj_insert_sub; [|exact Hu].
    intros y Hy. by apply list_elem_of_filter in Hy as [_ ?].
Qed.

Lemma selfloop_fold_inv (o0 : Oink) (l : list nat) :
  (∀ v, bat (disabled o0) v = false → bat (solved (game o0)) v = false) →
  NoDup l → (∀ x, x ∈ l → (x < n_nodes (game o0))%nat) →
  ∀ o r, SelfloopInv o0 l o →
         ∃ o', foldM selfloop_body l (o, r) =
                 Ok (o', r + Z.of_nat (length (filter (fun v => has_selfloop o0 v = true) l))) ∧
               SelfloopInv o0 [] o'.
Proof.
  intros Hmask. induction l as [|x l IH]; intros Hnd Hl o r HI.
  - exists o. simpl. by rewrite Z.add_0_r.
  - apply NoDup_cons in Hnd as [Hx Hnd]. cbn [foldM].
    destruct (selfloop_body_inv o0 o r x l Hmask HI Hx (Hl x ltac:(by left)))
      as (o1 & -> & H1).
    simpl.
    destruct (IH Hnd ltac:(intros y Hy; apply Hl; by right) o1
                (r + (if has_selfloop o0 x then 1 else 0)) H1) as (o2 & -> & H2).
    exists o2. split; [|done]. rewrite filter_cons.
    destruct (has_selfloop o0 x) eqn:Eh.
    + rewrite decide_True by done. simpl. do 2 f_equal. lia.
    + rewrite decide_False by done. do 2 f_equal. lia.
Qed.

(** X5: [solveSelfloops] returns, without a [LOGIC_ERROR], the number of
    enabled vertices that have an edge to themselves, provided every
    solved vertex is disabled when it is called. *)
Theorem solveSelfloops_counts (fuel : nat) (o : Oink) :
  (∀ v, bat (disabled o) v = false → bat (solved (game o)) v = false) →
  (∀ v u, u ∈ adj (in_ (game o)) v → (u < n_nodes (game o))%nat) →
  length (solved (game o)) = n_nodes (game o) →
  (length (todo o) + unsolved_count (game o) ≤ fuel)%nat →
  ∃ o', solveSelfloops fuel o =
          Ok (Z.of_nat (length (filter (fun v => has_selfloop o v = true)
                                  (seq 0 (n_nodes (game o))))), o').
Proof.
  intros Hmask Hin Hls Hfuel. unfold solveSelfloops.
  destruct (selfloop_fold_inv o (seq 0 (n_nodes (game o))) Hmask (NoDup_seq _ _)
              ltac:(intros x Hx; apply elem_of_seq in Hx; lia) o 0)
    as (o1 & -> & [_ I2 I3 I4 I5]); [by constructor|].
  simpl. destruct (flush_returns fuel o1) as (o2 & -> & _).
  - intros v u Hu. rewrite I2. eapply Hin. by apply I4.
  - by rewrite I3, I2.
  - unfold flush_measure in I5. lia.
  - by exists o2.
Qed.


(** * Games of a single parity *)

Section ParityWonLemmas.

Variables (g0 : Game) (parity : Z).
Hypothesis Hwf : graph_wf g0.
Hypothesis Hpar : parity = 0 ∨ parity = 1.

Lemma solve_won (i : nat) (strat : Z) (o : Oink) :
  ParityWon g0 parity o → (i < n_nodes g0)%nat → bat (solved (game o)) i = false →
  (zat (owner g0) i = parity → ∃ w, w ∈ adj (out g0) i ∧ strat = Z.of_nat w) →
  ∃ o', solve i parity strat o = Ok o' ∧ ParityWon g0 parity o' ∧
        flush_measure o' = flush_measure o.
Proof.
  intros [P1 P2 P3 P4 P5 P6 P7 P8 P9 P10 P11] Hi Hs Hstrat.
  unfold solve. rewrite Hs, P9, Hs. simpl. eexists. split; [done|]. split.
  2:{ unfold flush_measure. simpl.
      match goal with
      | |- context [unsolved_count ?g'] =>
          pose proof (unsolved_count_mark (game o) g' i eq_refl eq_refl Hs
                        ltac:(lia) ltac:(lia)) as Hc
      end. lia. }
  constructor; simpl; try done; try (by rewrite length_insert).
  - intros v. destruct (decide (v = i)) as [->|Hne].
    + by rewrite !bat_insert_eq by lia.
    + by rewrite !bat_insert_ne.
  - unfold decided. simpl. intros v [->|Hv]%elem_of_cons.
    + by rewrite bat_insert_eq by lia.
    + apply bat_insert_true. by apply P10.
  - unfold decided. simpl. intros v Hv. destruct (decide (v = i)) as [->|Hne].
    + rewrite !zat_insert_eq by lia. split; [done|]. intros Ho.
      rewrite P2, Ho, Z.eqb_refl. destruct (Hstrat Ho) as (w & Hw & ->). by exists w.
    + rewrite bat_insert_ne in Hv by done. rewrite !zat_insert_ne by done. by apply P11.
Qed.

Lemma single_pick_won (i : nat) (tos : list nat) (o : Oink) :
  ParityWon g0 parity o → (i < n_nodes g0)%nat → bat (solved (game o)) i = false →
  (∀ w, w ∈ tos → w ∈ adj (out g0) i) →
  ∃ o', single_pick i parity tos o = Ok o' ∧ ParityWon g0 parity o' ∧
        flush_measure o' = flush_measure o.
Proof.
  intros HP Hi Hs. induction tos as [|to tos IH]; intros Hsub; simpl.
  - by exists o.
  - destruct (bat (disabled o) to); [apply IH; intros w Hw; apply Hsub; by right|].
    apply solve_won; try done. intros _. exists to. split; [apply Hsub; by left|done].
Qed.

Lemma single_body_won (o : Oink) (i : nat) :
  ParityWon g0 parity o → (i < n_nodes g0)%nat →
  ∃ o', single_body parity o i = Ok o' ∧ ParityWon g0 parity o' ∧
        flush_measure o' = flush_measure o.
Proof.
  intros HP Hi. unfold single_body.
  destruct (bat (disabled o) i) eqn:Ed; [by exists o|].
  rewrite (pw_dis _ _ _ HP) in Ed. rewrite (pw_owner _ _ _ HP), (pw_out _ _ _ HP).
  destruct (Z.eqb_spec (zat (owner g0) i) parity) as [Ho|Ho].
  - by apply single_pick_won.
  - apply solve_won; try done.
Qed.

Lemma flush_pred_won (v : nat) (o : Oink) (i : nat) :
  ParityWon g0 parity o → (i < n_nodes g0)%nat → v ∈ adj (out g0) i →
  ParityWon g0 parity (flush_pred v parity o i).
Proof.
  intros HP Hi Hv. unfold flush_pred.
  destruct (bat (solved (game o)) i) eqn:Es; [done|].
  destruct HP as [P1 P2 P3 P4 P5 P6 P7 P8 P9 P10 P11].
  assert (Hmark : ∀ o1 : Oink,
            n_nodes (game o1) = n_nodes g0 → owner (game o1) = owner g0 →
            out (game o1) = out g0 → in_ (game o1) = in_ g0 →
            solved (game o1) = solved (game o) → winner (game o1) = winner (game o) →
            length (strategy (game o1)) = n_nodes g0 →
            disabled o1 = disabled o → todo o1 = todo o →
            (∀ x, x ≠ i → zat (strategy (game o1)) x = zat (strategy (game o)) x) →
            (zat (owner g0) i = parity →
               ∃ w, w ∈ adj (out g0) i ∧ zat (strategy (game o1)) i = Z.of_nat w) →
            ParityWon g0 parity (flush_mark i parity o1)).
  { intros o1 H1 H2 H3 H4 H5 H6 H7 H8 H9 H10 H11.
    constructor; simpl; try done; try (by rewrite length_insert; congruence).
    - intros x. rewrite H5, H8. destruct (decide (x = i)) as [->|Hne].
      + by rewrite !bat_insert_eq by lia.
      + by rewrite !bat_insert_ne.
    - unfold decided. simpl. rewrite H5, H9. intros x [->|Hx]%elem_of_cons.
      + by rewrite bat_insert_eq by lia.
      + apply bat_insert_true. by apply P10.
    - unfold decided. simpl. rewrite H5, H6. intros x Hx.
      destruct (decide (x = i)) as [->|Hne].
      + rewrite zat_insert_eq by lia. split; [done|]. apply H11.
      + rewrite bat_insert_ne in Hx by done. rewrite zat_insert_ne, H10 by done.
        by apply P11. }
  rewrite P2. destruct (Z.eqb_spec (zat (owner g0) i) parity) as [Ho|Ho].
  - apply Hmark; simpl; try done.
    + by rewrite length_insert.
    + intros x Hx. by rewrite zat_insert_ne.
    + intros _. exists v. split; [done|]. by rewrite zat_insert_eq by lia.
  - destruct (_ =? 0).
    + apply Hmark; simpl; try done.
    + constructor; simpl; try done.
Qed.

Lemma fold_flush_pred_won (v : nat) (l : list nat) :
  ∀ o, ParityWon g0 parity o →
       (∀ i, i ∈ l → (i < n_nodes g0)%nat ∧ v ∈ adj (out g0) i) →
       ParityWon g0 parity (fold_left (flush_pred v parity) l o).
Proof.
  induction l as [|i l IH]; intros o HP Hl; [done|]. simpl.
  apply IH; [|intros j Hj; apply Hl; by right].
  destruct (Hl i) as [? ?]; [by left|]. by apply flush_pred_won.
Qed.

Lemma flush_won (fuel : nat) :
  ∀ o, ParityWon g0 parity o → (flush_measure o ≤ fuel)%nat →
       ∃ o', flush fuel o = Ok o' ∧ ParityWon g0 parity o'.
Proof.
  induction fuel as [|fuel IH]; intros o HP Hfuel; rewrite flush_eq;
    (destruct (todo o) as [|v rest] eqn:Et; [by exists o|]);
    cbn zeta; unfold flush_measure in Hfuel; rewrite Et in Hfuel; simpl in Hfuel;
    (assert (HP1 : ∀ oc, ParityWon g0 parity (set_outcount (set_todo o rest) oc));
     [intros oc; destruct HP; constructor; simpl; try done;
      intros x Hx; apply pw_todo0; rewrite Et; by right|]);
    (destruct (zat (outcount (set_todo o rest)) v =? -1);
       [eexists; split; [done|]; destruct (HP1 (outcount o)); by constructor|]);
    [lia|].
  assert (Hv : decided o v) by (apply (pw_todo _ _ _ HP); rewrite Et; by left).
  destruct (pw_win _ _ _ HP v Hv) as [Hw _].
  assert (Hconv : (if zat (winner (game o)) v =? 0 then 0 else 1) = parity)
    by (rewrite Hw; by destruct Hpar as [-> | ->]).
  change (∃ o', flush fuel
                  (fold_left (flush_pred v (if zat (winner (game o)) v =? 0 then 0 else 1))
                     (adj (in_ (game o)) v)
                     (set_outcount (set_todo o rest) (<[v := -1]> (outcount o)))) = Ok o' ∧
                ParityWon g0 parity o').
  rewrite Hconv.
  specialize (HP1 (<[v := -1]> (outcount o))).
  assert (Hin : ∀ i, i ∈ adj (in_ (game o)) v → (i < n_nodes g0)%nat ∧ v ∈ adj (out g0) i).
  { intros i Hi. rewrite (pw_in _ _ _ HP) in Hi. split; [by eapply gw_in_range|].
    by apply in_out. }
  apply IH.
  - by apply fold_flush_pred_won.
  - destruct (fold_flush_pred_measure v parity (adj (in_ (game o)) v)
                (set_outcount (set_todo o rest) (<[v := -1]> (outcount o)))) as [_ Hm].
    + simpl. intros i Hi. rewrite (pw_n _ _ _ HP). by apply Hin.
    + simpl. by rewrite (pw_lsolved _ _ _ HP), (pw_n _ _ _ HP).
    + rewrite Hm. unfold flush_measure. simpl. lia.
Qed.

End ParityWonLemmas.

Lemma unsolved_count_all (g : Game) :
  (∀ v, bat (solved g) v = false) → unsolved_count g = n_nodes g.
Proof.
  intros Hun. unfold unsolved_count.
  assert (H : ∀ l : list nat, filter (fun v => bat (solved g) v = false) l = l).
  { induction l as [|x l IH]; [done|]. rewrite filter_cons, IH.
    by rewrite decide_True. }
  by rewrite H, length_seq.
Qed.

Lemma single_parity_total (fuel : nat) (g : Game) (sv : Z)
    (b1 b2 b3 b4 b5 b6 b7 : bool) (parity : Z) :
  game_wf g → length (strategy g) = n_nodes g → unsolved_game g → total_game g →
  (0 < n_nodes g)%nat →
  (∀ v, (v < n_nodes g)%nat → parity_of g v = parity) →
  (n_nodes g ≤ fuel)%nat →
  ∃ o', solveSingleParity fuel (Oink_new g sv b1 b2 b3 b4 b5 b6 b7) = Ok (true, o') ∧
        ∀ v, (v < n_nodes g)%nat →
             bat (solved (game o')) v = true ∧
             zat (winner (game o')) v = parity ∧
             (zat (owner g) v = parity →
                ∃ w, w ∈ adj (out g) v ∧ zat (strategy (game o')) v = Z.of_nat w).
Proof.
  intros Hwf Hlstr Hun Htot Hn Hall Hfuel.
  set (o := Oink_new g sv b1 b2 b3 b4 b5 b6 b7).
  assert (Hpar : parity = 0 ∨ parity = 1).
  { rewrite <- (Hall 0%nat Hn). apply land1_cases. }
  assert (Hen : ∀ i, (i < n_nodes g)%nat → unmasked (disabled o) i).
  { intros i Hi. unfold unmasked, o. simpl. apply bat_replicate_false. }
  assert (Hscan : single_scan (game o) (disabled o) (seq 0 (n_nodes (game o))) (-1)
                  = Some parity).
  { pose proof (single_scan_spec (game o) (disabled o) (seq 0 (n_nodes (game o)))) as Hs.
    assert (H0 : (0%nat : nat) ∈ seq 0 (n_nodes (game o))) by (apply elem_of_seq; simpl; lia).
    destruct (single_scan _ _ _ _) as [q|].
    - destruct Hs as [[_ Hnone]|(_ & (i & Hi & Hei) & Hq)].
      + exfalso. apply (Hnone 0%nat H0). by apply Hen.
      + f_equal. rewrite <- (Hq i Hi Hei). apply Hall. apply elem_of_seq in Hi. simpl in Hi. lia.
    - destruct Hs as (i & j & Hi & Hj & _ & _ & Hne). exfalso. apply Hne.
      apply elem_of_seq in Hi, Hj. simpl in Hi, Hj. rewrite !Hall by lia. done. }
  assert (HP0 : ParityWon g parity o ∧ flush_measure o = n_nodes g).
  { split.
    - destruct Hwf as [Hg Hls Hlw How]. constructor; simpl; try done.
      + by rewrite length_replicate.
      + intros v. by rewrite bat_replicate_false, Hun.
      + intros v Hv. by apply elem_of_nil in Hv.
      + intros v Hv. unfold decided in Hv. simpl in Hv. by rewrite Hun in Hv.
    - unfold flush_measure. simpl. by apply unsolved_count_all. }
  destruct (foldM_ok (fun a => ParityWon g parity a ∧ flush_measure a = n_nodes g)
              (single_body parity) (seq 0 (n_nodes g))) with (a := o)
    as (o1 & E1 & HP1 & Hm1); [|done|].
  { intros a i Hi [HPa Hma]. apply elem_of_seq in Hi.
    destruct (single_body_won g parity a i HPa) as (a' & Ha' & HPa' & Hma'); [lia|].
    exists a'. split; [done|]. split; [done|]. by rewrite Hma'. }
  destruct (flush_won g parity (gwf_graph _ Hwf) Hpar fuel o1 HP1) as (o2 & E2 & HP2);
    [lia|].
  assert (Heq : solveSingleParity fuel o = Ok (true, o2)).
  { unfold solveSingleParity. rewrite Hscan.
    assert (Hq : (parity =? 0) || (parity =? 1) = true) by (destruct Hpar as [-> | ->]; done).
    rewrite Hq. unfold single_assign. change (n_nodes (game o)) with (n_nodes g).
    rewrite E1. simpl. rewrite E2. done. }
  exists o2. split; [exact Heq|]. intros v Hv.
  assert (Hs : bat (solved (game o2)) v = true).
  { apply (single_parity_solves fuel o o2); try done; simpl.
    - by rewrite length_map, length_seq.
    - intros a. destruct (decide (a < n_nodes g)%nat) as [Ha|Ha].
      + rewrite zat_map_seq by done. lia.
      + rewrite zat_ge; [done|]. rewrite length_map, length_seq. lia. }
  split; [done|]. by apply (pw_win _ _ _ HP2).
Qed.

(** X6: on an input game whose priorities all have the same parity,
    [solveSingleParity] returns true, [run] returns without constructing
    a solver, and every vertex is decided for the player of that parity;
    a vertex of that player gets one of its edges as strategy. *)
Theorem single_parity_wins (ext : Externals) (fuel : nat) (g : Game) (sv : Z)
    (b5 b6 b7 : bool) (p : Process) (parity : Z) :
  game_wf g → length (strategy g) = n_nodes g → unsolved_game g → total_game g →
  (0 < n_nodes g)%nat →
  (∀ v, (v < n_nodes g)%nat → parity_of g v = parity) →
  (n_nodes g ≤ fuel)%nat →
  ∃ o', solveSingleParity fuel (Oink_new g sv false false false true b5 b6 b7)
          = Ok (true, o') ∧
        Oink_run ext fuel (Oink_new g sv false false false true b5 b6 b7, p) = Ok (o', p) ∧
        ∀ v, (v < n_nodes g)%nat →
             bat (solved (game o')) v = true ∧
             zat (winner (game o')) v = parity ∧
             (zat (owner g) v = parity →
                ∃ w, w ∈ adj (out g) v ∧ zat (strategy (game o')) v = Z.of_nat w).
Proof.
  intros Hwf Hlstr Hun Htot Hn Hall Hfuel.
  destruct (single_parity_total fuel g sv false false false true b5 b6 b7 parity)
    as (o' & Heq & Hres); try done.
  exists o'. split; [exact Heq|]. split; [|exact Hres].
  set (o := Oink_new g sv false false false true b5 b6 b7) in *.
  unfold Oink_run.
  change (inflate o) with false. change (compress o) with false.
  change (renumber o) with false. change (solveSingle o) with true.
  cbv iota. rewrite Heq. reflexivity.
Qed.


(** * The frame of [zsolver::run] *)

Lemma Frame_refl (vs : list nat) (s : zsolver.state) : Frame vs s s.
Proof. by constructor. Qed.

Lemma Frame_trans (vs : list nat) (s1 s2 s3 : zsolver.state) :
  Frame vs s1 s2 → Frame vs s2 s3 → Frame vs s1 s3.
Proof.
  intros [A1 A2 A3] [B1 B2 B3]. constructor.
  - intros w Hw. by rewrite B1, A1.
  - intros w Hw. by rewrite B2, A2.
  - auto.
Qed.

Lemma Frame_weaken (vs vs' : list nat) (s s' : zsolver.state) :
  (∀ x, x ∈ vs → x ∈ vs') → Frame vs s s' → Frame vs' s s'.
Proof.
  intros Hsub [A1 A2 A3]. constructor; [| |done].
  - intros w Hw. apply A1. intros Hin. by apply Hw, Hsub.
  - intros w Hw. apply A2. intros Hin. by apply Hw, Hsub.
Qed.

Lemma Frame_fields (vs : list nat) (s s' : zsolver.state) :
  zsolver.vtype s' = zsolver.vtype s → zsolver.strategy s' = zsolver.strategy s →
  zsolver.degs s' = zsolver.degs s → Frame vs s s'.
Proof.
  intros H1 H2 H3. constructor.
  - intros w _. by rewrite H1.
  - intros w _. by rewrite H2.
  - unfold degs_idle. by rewrite H3.
Qed.

(** A write to the label or to the strategy of a vertex of [vs]. *)
Lemma Frame_write (vs : list nat) (s s' : zsolver.state) (x : nat) :
  x ∈ vs →
  (∀ w, w ≠ x → zat (zsolver.vtype s') w = zat (zsolver.vtype s) w) →
  (∀ w, w ≠ x → zat (zsolver.strategy s') w = zat (zsolver.strategy s) w) →
  zsolver.degs s' = zsolver.degs s → Frame vs s s'.
Proof.
  intros Hx H1 H2 H3. constructor.
  - intros w Hw. apply H1. by intros ->.
  - intros w Hw. apply H2. by intros ->.
  - unfold degs_idle. by rewrite H3.
Qed.

Lemma fold_Frame (vs : list nat) (f : zsolver.state → nat → zsolver.state) (l : list nat) :
  (∀ x, x ∈ l → x ∈ vs) →
  (∀ s x, x ∈ vs → Frame vs s (f s x)) →
  ∀ s, Frame vs s (fold_left f l s).
Proof.
  intros Hl Hf. induction l as [|x l IH]; intros s; [apply Frame_refl|]. cbn [fold_left].
  eapply Frame_trans; [apply Hf, Hl; by left|]. apply IH. intros y Hy. apply Hl. by right.
Qed.

Lemma fold_Frame_pair {Q : Type} (vs : list nat)
    (f : zsolver.state * Q → nat → zsolver.state * Q) (l : list nat) :
  (∀ x, x ∈ l → x ∈ vs) →
  (∀ s q x, x ∈ vs → Frame vs s (f (s, q) x).1) →
  ∀ s q, Frame vs s (fold_left f l (s, q)).1.
Proof.
  intros Hl Hf. induction l as [|x l IH]; intros s q; [apply Frame_refl|]. cbn [fold_left].
  specialize (Hf s q x (Hl x ltac:(by left))). destruct (f (s, q) x) as [s1 q1].
  eapply Frame_trans; [exact Hf|]. apply IH. intros y Hy. apply Hl. by right.
Qed.

Section FrameLemmas.
Variables (g : Game) (flags : Z).

Lemma zat_resize_idle (n : nat) (d : list Z) :
  (∀ w, zat d w ≤ 0) → ∀ w, zat (resize n (-1) d) w ≤ 0.
Proof.
  intros Hd w. unfold zat. destruct (decide (w < n)%nat) as [Hw|Hw].
  - destruct (decide (w < length d)%nat) as [Hl|Hl].
    + rewrite lookup_resize by done. apply Hd.
    + rewrite lookup_resize_new by lia. simpl. lia.
  - rewrite lookup_ge_None_2; [simpl; lia|]. rewrite length_resize. lia.
Qed.

Lemma zat_insert_le (d : list Z) (x : nat) (v : Z) (w : nat) :
  v ≤ 0 → zat d w ≤ 0 → zat (<[x := v]> d) w ≤ 0.
Proof.
  intros Hv Hw. destruct (decide (x = w)) as [->|Hne].
  - destruct (decide (w < length d)%nat).
    + by rewrite zat_insert_eq.
    + by rewrite list_insert_ge by lia.
  - by rewrite zat_insert_ne.
Qed.

Lemma attr_seed_outside (vs : list nat) (s0 : zsolver.state) (whose cat_no cat_yes : Z)
    (l : list nat) :
  (∀ x, x ∈ l → x ∈ vs) →
  ∀ acc, outside_kept vs s0 acc.1 →
         outside_kept vs s0 (fold_left (zsolver.attr_seed g whose cat_no cat_yes) l acc).1.
Proof.
  induction l as [|v l IH]; intros Hl acc Hacc; [done|]. cbn [fold_left].
  apply IH; [intros y Hy; apply Hl; by right|].
  assert (Hv : v ∈ vs) by (apply Hl; by left).
  destruct acc as [s q]. unfold zsolver.attr_seed. zs_simpl.
  destruct (_ =? cat_yes); [done|].
  destruct (_ =? whose); zs_simpl; intros w Hw; destruct (Hacc w Hw) as (? & ? & ?);
    zs_simpl; (rewrite zat_insert_ne by (by intros ->)); done.
Qed.

Lemma attr_edge_outside (vs : list nat) (s0 : zsolver.state) (whose cat_yes : Z) (v : nat)
    (l : list nat) :
  ∀ acc, outside_kept vs s0 acc.1 →
         outside_kept vs s0 (fold_left (zsolver.attr_edge g whose cat_yes v) l acc).1.
Proof.
  induction l as [|x l IH]; intros acc Hacc; [done|]. cbn [fold_left]. apply IH.
  destruct acc as [s q]. unfold zsolver.attr_edge. zs_simpl.
  destruct (decide (x ∈ vs)) as [Hx|Hx].
  - destruct (_ =? 0); zs_simpl; intros w Hw; destruct (Hacc w Hw) as (? & ? & ?);
      zs_simpl; rewrite ?zat_insert_ne by (by intros ->); done.
  - destruct (Hacc x Hx) as (Hd & _ & _).
    destruct (Z.eqb_spec (zat (zsolver.degs s) x - 1) 0) as [|_]; [lia|].
    zs_simpl. intros w Hw. destruct (Hacc w Hw) as (? & ? & ?).
    zs_simpl. split; [|done]. apply zat_insert_le; [lia|done].
Qed.

Lemma attr_loop_outside (vs : list nat) (s0 : zsolver.state) (fuel : nat)
    (whose cat_yes : Z) :
  ∀ pending s s', outside_kept vs s0 s →
                  zsolver.attr_loop g fuel whose cat_yes pending s = Some s' →
                  outside_kept vs s0 s'.
Proof.
  induction fuel as [|fuel IH]; intros pending s s' Hs H.
  - destruct pending; simpl in H; [by injection H as <-|done].
  - destruct pending as [|v pending]; simpl in H; [by injection H as <-|].
    pose proof (attr_edge_outside vs s0 whose cat_yes v (adj (in_ g) v) (s, []) Hs) as Hm.
    destruct (fold_left _ _ (s, [])) as [s1 q1]. by eapply IH.
Qed.

Lemma reset_idle (vs : list nat) :
  ∀ d w, (w ∈ vs ∨ zat d w ≤ 0) →
         zat (fold_left (fun d v => <[v := -1]> d) vs d) w ≤ 0.
Proof.
  induction vs as [|v vs IH]; intros d w Hw; cbn [fold_left].
  - destruct Hw as [Hw|Hw]; [by apply elem_of_nil in Hw|done].
  - destruct (decide (w = v)) as [->|Hne].
    + apply IH. right. destruct (decide (v < length d)%nat).
      * rewrite zat_insert_eq by done. lia.
      * rewrite list_insert_ge by lia. rewrite zat_ge by lia. lia.
    + apply IH. destruct Hw as [Hw|Hw].
      * left. by apply elem_of_cons in Hw as [?|?].
      * right. by rewrite zat_insert_ne.
Qed.

Lemma attractor_Frame (fuel : nat) (vs : list nat) (whose cat_no cat_yes : Z)
    (s s' : zsolver.state) :
  degs_idle s →
  zsolver.attractor g fuel vs whose cat_no cat_yes s = Some s' →
  Frame vs s s' ∧ degs_idle s'.
Proof.
  intros Hidle H. unfold zsolver.attractor in H.
  assert (H0 : outside_kept vs s
                 (zsolver.set_degs s (resize (n_nodes g) (-1) (zsolver.degs s)),
                  @nil nat).1).
  { intros w _. simpl. split; [|done]. by apply zat_resize_idle. }
  pose proof (attr_seed_outside vs s whose cat_no cat_yes vs ltac:(done) _ H0) as H1.
  destruct (fold_left _ vs _) as [s1 q1]. simpl in H1.
  destruct (zsolver.attr_loop g fuel whose cat_yes q1 s1) as [s2|] eqn:E; [|done].
  simpl in H. injection H as <-.
  pose proof (attr_loop_outside vs s fuel whose cat_yes q1 s1 s2 H1 E) as H2.
  assert (Hd : degs_idle
                 (zsolver.set_degs s2
                    (fold_left (fun d v => <[v := -1]> d) vs (zsolver.degs s2)))).
  { intros w. simpl. apply reset_idle. destruct (decide (w ∈ vs)); [by left|right].
    by destruct (H2 w). }
  split; [|done]. constructor; simpl; [| |done].
  - intros w Hw. by destruct (H2 w Hw) as (_ & ? & _).
  - intros w Hw. by destruct (H2 w Hw) as (_ & _ & ?).
Qed.

Lemma memo_load_Frame (vs : list nat) (m : list Z) (s : zsolver.state) :
  Frame vs s (zsolver.memo_load vs m s).
Proof.
  unfold zsolver.memo_load.
  enough (H : ∀ l str, (∀ i, i ∈ l → (i < length vs)%nat) →
            ∀ w, w ∉ vs →
              zat (fold_left (fun str i => <[default 0%nat (vs !! i) := zat m i]> str) l str) w
              = zat str w).
  { constructor; simpl; [done| |done]. intros w Hw. apply H; [|done].
    intros i Hi. apply elem_of_seq in Hi. lia. }
  induction l as [|i l IH]; intros str Hl w Hw; [done|]. cbn [fold_left].
  rewrite IH; [|intros j Hj; apply Hl; by right|done].
  destruct (lookup_lt_is_Some_2 vs i (Hl i ltac:(by left))) as [v Hv]. rewrite Hv. simpl.
  apply zat_insert_ne. intros ->. apply Hw. by eapply list_elem_of_lookup_2.
Qed.

Lemma concede_Frame (vs : list nat) (a b c : Z) (s : zsolver.state) :
  Frame vs s (zsolver.concede g vs a b c s).
Proof.
  unfold zsolver.concede.
  enough (H : ∀ l str, (∀ x, x ∈ l → x ∈ vs) → ∀ w, w ∉ vs →
            zat (fold_left (fun str v => <[v := if zat (owner g) v =? a then b else c]> str)
                   l str) w = zat str w).
  { constructor; simpl; [done| |done]. intros w Hw. by apply H. }
  induction l as [|x l IH]; intros str Hl w Hw; [done|]. cbn [fold_left].
  rewrite IH; [|intros j Hj; apply Hl; by right|done].
  apply zat_insert_ne. intros ->. apply Hw, Hl. by left.
Qed.

Lemma mark_hiprio_Frame (vs : list nat) (a b : Z) (s : zsolver.state) :
  Frame vs s (zsolver.mark_hiprio g vs a b s).
Proof.
  unfold zsolver.mark_hiprio. apply fold_Frame; [done|]. intros s1 x Hx.
  destruct (_ =? a); [|apply Frame_refl].
  apply (Frame_write vs _ _ x); simpl; try done; intros w Hw; by rewrite zat_insert_ne.
Qed.

Lemma partition_Frame (vs sub : list nat) (a b c : Z) (s : zsolver.state) :
  (∀ x, x ∈ sub → x ∈ vs) → Frame vs s (zsolver.partition g sub a b c s).1.
Proof.
  intros Hsub. unfold zsolver.partition. apply fold_Frame_pair; [done|]. intros s1 q x Hx.
  destruct (if zat (owner g) x =? a then _ else _); simpl;
    apply (Frame_write vs _ _ x); simpl; try done; intros w Hw; by rewrite zat_insert_ne.
Qed.

Lemma fill_hiprio_Frame (vs : list nat) (a b c : Z) (s : zsolver.state) :
  Frame vs s (zsolver.fill_hiprio g vs a b c s).
Proof.
  unfold zsolver.fill_hiprio. apply fold_Frame; [done|]. intros s1 x Hx.
  destruct (_ =? a); [|apply Frame_refl]. destruct (_ =? b).
  - generalize (adj (out g) x). intros l. revert s1.
    induction l as [|e l IH]; intros s1; [apply Frame_refl|]. cbn [fold_left].
    eapply Frame_trans; [|apply IH]. destruct (_ =? c); [|apply Frame_refl].
    apply (Frame_write vs _ _ x); simpl; try done. intros w Hw. by rewrite zat_insert_ne.
  - apply (Frame_write vs _ _ x); simpl; try done. intros w Hw. by rewrite zat_insert_ne.
Qed.

Lemma memoizing_Frame (vs : list nat) (precision : Z * Z) (s : zsolver.state) :
  Frame vs s (zsolver.memoizing flags precision vs s).
Proof. unfold zsolver.memoizing. destruct (has_flag _ _); by apply Frame_fields. Qed.

Lemma run_Frame (fuel : nat) :
  ∀ vs cat_base precision mode mprio s s',
  degs_idle s →
  zsolver.run g flags fuel vs cat_base precision mode mprio s = Some s' →
  Frame vs s s' ∧ degs_idle s'.
Proof.
  assert (Hfr : ∀ vs s s', degs_idle s → Frame vs s s' → Frame vs s s' ∧ degs_idle s').
  { intros vs s s' Hi HF. split; [done|]. by apply (fr_degs _ _ _ HF). }
  induction fuel as [|fuel IH]; intros vs cat_base precision mode mprio s s' Hidle H; [done|].
  cbn [zsolver.run] in H.
  destruct (if has_flag flags memoize then zsolver.memo s !! (precision, vs) else None) as [m|].
  { injection H as <-. apply Hfr; [done|]. apply memo_load_Frame. }
  destruct (length vs =? 0)%nat.
  { injection H as <-. apply Hfr; [done|]. by apply Frame_fields. }
  destruct (prec_at precision _ <=? 0).
  { injection H as <-. apply Hfr; [done|].
    eapply Frame_trans; [|apply concede_Frame]. by apply Frame_fields. }
  cbn [zsolver.new_category] in H.
  match type of H with
  | context [zsolver.attractor g fuel vs ?a ?b ?c (zsolver.mark_hiprio g vs ?p ?q ?x)] =>
      assert (F0 : Frame vs s (zsolver.mark_hiprio g vs p q x))
        by (eapply Frame_trans; [|apply mark_hiprio_Frame]; by apply Frame_fields);
      destruct (zsolver.attractor g fuel vs a b c (zsolver.mark_hiprio g vs p q x))
        as [s1|] eqn:E1; [|done];
      apply attractor_Frame in E1 as [F1 I1]; [|by apply (fr_degs _ _ _ F0)]
  end.
  cbn [mbind option_bind] in H.
  pose proof (Frame_trans _ _ _ _ F0 F1) as F01. clear F0 F1.
  match type of H with
  | context [mbind _ ?x] =>
      destruct x as [s2|] eqn:E2; [|done];
      assert (F2 : Frame vs s1 s2 ∧ degs_idle s2)
  end.
  { destruct (prec_at _ _ =? 0).
    - injection E2 as <-. apply Hfr; [done|]. apply concede_Frame.
    - apply IH in E2 as [F2 I2]; [|done]. split; [|done].
      eapply Frame_weaken; [|exact F2]. intros x Hx. by apply list_elem_of_filter in Hx as [_ ?]. }
  destruct F2 as [F2 I2]. pose proof (Frame_trans _ _ _ _ F01 F2) as F02. clear F01 F2 E2.
  cbn [mbind option_bind zsolver.new_category] in H.
  match type of H with
  | context [zsolver.partition g ?a ?b ?c ?d ?x] =>
      pose proof (partition_Frame vs a b c d x
                    ltac:(intros y Hy; by apply list_elem_of_filter in Hy as [_ ?])) as F3;
      assert (F3' : Frame vs s2 x) by (by apply Frame_fields);
      destruct (zsolver.partition g a b c d x) as [s3 won]
  end.
  simpl in F3. pose proof (Frame_trans _ _ _ _ F3' F3) as F23. clear F3 F3'.
  pose proof (Frame_trans _ _ _ _ F02 F23) as F03.
  pose proof (fr_degs _ _ _ F23 I2) as I3. clear F02 F23.
  destruct won.
  - destruct (mode =? 0).
    + apply IH in H as [F4 I4]; [|done]. split; [|done]. by eapply Frame_trans.
    + injection H as <-. apply Hfr; [done|].
      eapply Frame_trans; [exact F03|].
      eapply Frame_trans; [apply fill_hiprio_Frame|apply memoizing_Frame].
  - match type of H with
    | context [zsolver.attractor g fuel vs ?a ?b ?c ?x] =>
        destruct (zsolver.attractor g fuel vs a b c x) as [s4|] eqn:E4; [|done];
        apply attractor_Frame in E4 as [F4 I4]; [|done]
    end.
    cbn [mbind option_bind] in H.
    match type of H with
    | context [mbind _ ?x] => destruct x as [s5|] eqn:E5; [|done]
    end.
    cbn [mbind option_bind] in H. injection H as <-.
    apply IH in E5 as [F5 I5]; [|done].
    apply Hfr; [done|].
    eapply Frame_trans; [exact F03|]. eapply Frame_trans; [exact F4|].
    eapply Frame_trans; [|apply memoizing_Frame].
    eapply Frame_weaken; [|exact F5]. intros x Hx. by apply list_elem_of_filter in Hx as [_ ?].
Qed.

End FrameLemmas.

(** X7: the frame condition that the source states for [zsolver::run]:
    called with no positive entry in [degs], it leaves the label and
    the strategy of every vertex outside [vs] as they were, in every
    mode and with or without the cache, and leaves no positive entry in
    [degs]. *)
Theorem run_leaves_outside (g : Game) (flags : Z) (fuel : nat) (vs : list nat)
    (cat_base : Z) (precision : Z * Z) (mode mprio : Z) (s s' : zsolver.state) :
  (∀ w, zat (zsolver.degs s) w ≤ 0) →
  zsolver.run g flags fuel vs cat_base precision mode mprio s = Some s' →
  (∀ w, w ∉ vs →
        zat (zsolver.vtype s') w = zat (zsolver.vtype s) w ∧
        zat (zsolver.strategy s') w = zat (zsolver.strategy s) w) ∧
  (∀ w, zat (zsolver.degs s') w ≤ 0).
Proof.
  intros Hidle H. destruct (run_Frame g flags fuel _ _ _ _ _ _ _ Hidle H) as [[F1 F2 _] Hi].
  split; [|exact Hi]. intros w Hw. split; auto.
Qed.


(** * The cache and the precision where they are not used *)

Section MemoUnused.
Variables (g : Game) (flags : Z) (m : gmap (Z * Z * list nat) (list Z)).

Local Abbreviation put s := (zsolver.set_memo s m).
Local Abbreviation putf := (fun s => zsolver.set_memo s m).

Lemma fold_put_pair {Q : Type} (f : zsolver.state * Q → nat → zsolver.state * Q) :
  (∀ s q v, f (put s, q) v = (put (f (s, q) v).1, (f (s, q) v).2)) →
  ∀ l s q, fold_left f l (put s, q) =
           (put (fold_left f l (s, q)).1, (fold_left f l (s, q)).2).
Proof.
  intros Hf. induction l as [|v l IH]; intros s q; [done|]. cbn [fold_left].
  rewrite Hf. destruct (f (s, q) v) as [s1 q1]. apply IH.
Qed.

Lemma fold_put (f : zsolver.state → nat → zsolver.state) :
  (∀ s v, f (put s) v = put (f s v)) →
  ∀ l s, fold_left f l (put s) = put (fold_left f l s).
Proof.
  intros Hf. induction l as [|v l IH]; intros s; [done|]. cbn [fold_left].
  rewrite Hf. apply IH.
Qed.

Lemma attr_seed_put (whose cat_no cat_yes : Z) (l : list nat) :
  ∀ (s : zsolver.state) (q : list nat),
  fold_left (zsolver.attr_seed g whose cat_no cat_yes) l (put s, q) =
  (put (fold_left (zsolver.attr_seed g whose cat_no cat_yes) l (s, q)).1,
   (fold_left (zsolver.attr_seed g whose cat_no cat_yes) l (s, q)).2).
Proof.
  apply fold_put_pair. intros s q v. unfold zsolver.attr_seed.
  cbn [zsolver.vtype zsolver.set_memo].
  destruct (_ =? cat_yes); [done|]. by destruct (_ =? whose).
Qed.

Lemma attr_edge_put (whose cat_yes : Z) (v : nat) (l : list nat) :
  ∀ (s : zsolver.state) (q : list nat),
  fold_left (zsolver.attr_edge g whose cat_yes v) l (put s, q) =
  (put (fold_left (zsolver.attr_edge g whose cat_yes v) l (s, q)).1,
   (fold_left (zsolver.attr_edge g whose cat_yes v) l (s, q)).2).
Proof.
  apply fold_put_pair. intros s q w. unfold zsolver.attr_edge.
  cbn [zsolver.degs zsolver.set_memo]. by destruct (_ =? 0).
Qed.

Lemma attr_loop_put (fuel : nat) (whose cat_yes : Z) :
  ∀ pending s,
  zsolver.attr_loop g fuel whose cat_yes pending (put s) =
  putf <$> zsolver.attr_loop g fuel whose cat_yes pending s.
Proof.
  induction fuel as [|fuel IH]; intros pending s.
  - by destruct pending.
  - destruct pending as [|v pending]; [done|]. cbn [zsolver.attr_loop].
    rewrite attr_edge_put. destruct (fold_left _ _ (s, [])) as [s1 q1]. apply IH.
Qed.

Lemma attractor_put (fuel : nat) (vs : list nat) (whose cat_no cat_yes : Z)
    (s : zsolver.state) :
  zsolver.attractor g fuel vs whose cat_no cat_yes (put s) =
  putf <$> zsolver.attractor g fuel vs whose cat_no cat_yes s.
Proof.
  unfold zsolver.attractor.
  change (zsolver.set_degs (put s) (resize (n_nodes g) (-1) (zsolver.degs (put s))))
    with (put (zsolver.set_degs s (resize (n_nodes g) (-1) (zsolver.degs s)))).
  rewrite attr_seed_put. destruct (fold_left _ vs _) as [s1 q1]. cbn [fst snd].
  rewrite attr_loop_put. by destruct (zsolver.attr_loop g fuel whose cat_yes q1 s1).
Qed.

Lemma mark_hiprio_put (vs : list nat) (a b : Z) :
  ∀ s, zsolver.mark_hiprio g vs a b (put s) = put (zsolver.mark_hiprio g vs a b s).
Proof.
  unfold zsolver.mark_hiprio. apply fold_put. intros s v. by destruct (_ =? a).
Qed.

Lemma partition_put (sub : list nat) (a b c : Z) (s : zsolver.state) :
  zsolver.partition g sub a b c (put s) =
  (put (zsolver.partition g sub a b c s).1, (zsolver.partition g sub a b c s).2).
Proof.
  unfold zsolver.partition. apply fold_put_pair. intros s1 w v.
  cbn [zsolver.strategy zsolver.set_memo].
  by destruct (if zat (owner g) v =? a then _ else _).
Qed.

Lemma fill_hiprio_put (vs : list nat) (a b c : Z) :
  ∀ s, zsolver.fill_hiprio g vs a b c (put s) = put (zsolver.fill_hiprio g vs a b c s).
Proof.
  unfold zsolver.fill_hiprio. apply fold_put. intros s v.
  destruct (_ =? a); [|done]. destruct (_ =? b); [|done].
  apply fold_put. intros s1 e. cbn [zsolver.vtype zsolver.set_memo]. by destruct (_ =? c).
Qed.

Lemma run_put (Hf : has_flag flags memoize = false) (fuel : nat) :
  ∀ vs cat_base precision mode mprio s,
  zsolver.run g flags fuel vs cat_base precision mode mprio (put s) =
  putf <$> zsolver.run g flags fuel vs cat_base precision mode mprio s.
Proof.
  induction fuel as [|fuel IH]; intros vs cat_base precision mode mprio s; [done|].
  cbn [zsolver.run]. rewrite Hf.
  destruct (length vs =? 0)%nat; [done|].
  destruct (prec_at precision _ <=? 0); [done|].
  cbn [zsolver.new_category].
  change (zsolver.set_last_category
            (zsolver.set_iters (put s) (zsolver.iters (put s) + 1))
            (zsolver.last_category (zsolver.set_iters (put s) (zsolver.iters (put s) + 1)) + 1))
    with (put (zsolver.set_last_category
            (zsolver.set_iters s (zsolver.iters s + 1))
            (zsolver.last_category (zsolver.set_iters s (zsolver.iters s + 1)) + 1))).
  rewrite mark_hiprio_put, attractor_put.
  change (zsolver.last_category (zsolver.set_iters (put s) (zsolver.iters (put s) + 1)))
    with (zsolver.last_category (zsolver.set_iters s (zsolver.iters s + 1))).
  match goal with
  | |- context [zsolver.attractor g fuel vs ?a ?b ?c ?x] =>
      destruct (zsolver.attractor g fuel vs a b c x) as [s1|]; [|done]
  end.
  cbn [fmap option_fmap option_map mbind option_bind].
  change (zsolver.vtype (put s1)) with (zsolver.vtype s1).
  assert (Hsub : ∀ sp md,
    (if prec_at sp (Z.lxor (Z.land
         (if mprio <? 0 then fold_left (fun m v => Z.max m (zat (priority g) v)) vs mprio
          else mprio) 1) 1) =? 0
     then Some (zsolver.concede g vs (Z.land
         (if mprio <? 0 then fold_left (fun m v => Z.max m (zat (priority g) v)) vs mprio
          else mprio) 1) 999 (-1) (put s1))
     else zsolver.run g flags fuel (filter (fun v => zat (zsolver.vtype s1) v = cat_base) vs)
            cat_base sp md (mprio - 1) (put s1)) =
    putf <$>
    (if prec_at sp (Z.lxor (Z.land
         (if mprio <? 0 then fold_left (fun m v => Z.max m (zat (priority g) v)) vs mprio
          else mprio) 1) 1) =? 0
     then Some (zsolver.concede g vs (Z.land
         (if mprio <? 0 then fold_left (fun m v => Z.max m (zat (priority g) v)) vs mprio
          else mprio) 1) 999 (-1) s1)
     else zsolver.run g flags fuel (filter (fun v => zat (zsolver.vtype s1) v = cat_base) vs)
            cat_base sp md (mprio - 1) s1)).
  { intros sp md. destruct (_ =? 0); [done|]. apply IH. }
  rewrite Hsub.
  match goal with
  | |- context [fmap _ ?x] => destruct x as [s2|]; [|done]
  end.
  cbn [fmap option_fmap option_map mbind option_bind zsolver.new_category].
  change (zsolver.last_category (put s2)) with (zsolver.last_category s2).
  change (zsolver.set_last_category (put s2) (zsolver.last_category s2 + 1))
    with (put (zsolver.set_last_category s2 (zsolver.last_category s2 + 1))).
  rewrite partition_put.
  match goal with
  | |- context [zsolver.partition g ?a ?b ?c ?d ?x] =>
      destruct (zsolver.partition g a b c d x) as [s3 won]
  end.
  cbn [fst snd]. unfold zsolver.memoizing. rewrite Hf.
  destruct won.
  - destruct (mode =? 0); [apply IH|]. by rewrite fill_hiprio_put.
  - rewrite attractor_put.
    match goal with
    | |- context [zsolver.attractor g fuel vs ?a ?b ?c ?x] =>
        destruct (zsolver.attractor g fuel vs a b c x) as [s4|]; [|done]
    end.
    cbn [fmap option_fmap option_map mbind option_bind].
    change (zsolver.vtype (put s4)) with (zsolver.vtype s4).
    rewrite IH.
    match goal with
    | |- context [fmap _ ?x] => destruct x as [s5|]; [|done]
    end.
    done.
Qed.

End MemoUnused.

(** X8: a solver without the [memoize] flag neither reads nor writes the
    cache: started with another cache it computes the same state and
    hands that cache on as it received it. *)
Theorem unmemoized_ignores_cache (fuel : nat) (flags : Z) (g : Game) (c : Z)
    (m m' : gmap (Z * Z * list nat) (list Z)) :
  has_flag flags memoize = false →
  zs_solve fuel flags g (mkProcess c m') =
  (fun s => zsolver.set_memo s m') <$> zs_solve fuel flags g (mkProcess c m).
Proof.
  intros Hf. unfold zs_solve, zs_init. cbn [zsolver.new_category last_category memo].
  match goal with
  | |- zsolver.run g flags fuel ?vs ?cb ?p ?md ?mp ?x = _ <$> zsolver.run _ _ _ _ _ _ _ _ ?y =>
      change x with (zsolver.set_memo y m')
  end.
  by apply run_put.
Qed.


(** X9: in mode 3 without memoisation the precision is read only in the
    test for a value that is not positive: two precisions that are
    positive on both sides give the same result. *)
Theorem mode3_precision_irrelevant (g : Game) (flags : Z) (fuel : nat) (vs : list nat)
    (cat_base : Z) (p q : Z * Z) (mprio : Z) (s : zsolver.state) :
  has_flag flags memoize = false →
  0 < fst p → 0 < snd p → 0 < fst q → 0 < snd q →
  zsolver.run g flags fuel vs cat_base p 3 mprio s =
  zsolver.run g flags fuel vs cat_base q 3 mprio s.
Proof. intros Hf Hp1 Hp2 Hq1 Hq2. by apply run_mode3_precision. Qed.


(** * The initial precision *)

Lemma prec_loop_spec (n : Z) (fuel : nat) :
  ∀ prec, 0 ≤ prec → n ≤ Z.of_nat fuel + 2 ^ prec →
          (prec = 0 ∨ 2 ^ (prec - 1) < n) →
          let p := prec_loop fuel n prec in
          prec ≤ p ∧ n ≤ 2 ^ p ∧ (p = 0 ∨ 2 ^ (p - 1) < n).
Proof.
  induction fuel as [|fuel IH]; intros prec Hp Hf Hlow; cbn [prec_loop].
  - cbv zeta. split; [lia|]. split; [lia|done].
  - rewrite Z.shiftl_1_l. destruct (Z.ltb_spec (2 ^ prec) n) as [Hlt|Hge].
    + assert (H2 : 2 ^ (prec + 1) = 2 * 2 ^ prec) by (rewrite Z.pow_add_r by lia; lia).
      assert (0 < 2 ^ prec) by (apply Z.pow_pos_nonneg; lia).
      destruct (IH (prec + 1)) as (H1 & H3 & H4).
      * lia.
      * lia.
      * right. by replace (prec + 1 - 1) with prec by lia.
      * cbv zeta. split; [lia|done].
    + cbv zeta. split; [lia|]. split; [lia|done].
Qed.

Lemma initial_precision_bounds (n : nat) :
  let p := initial_precision n in
  0 ≤ p ∧ Z.of_nat n ≤ 2 ^ p ∧ (p = 0 ∨ 2 ^ (p - 1) < Z.of_nat n).
Proof.
  unfold initial_precision.
  destruct (prec_loop_spec (Z.of_nat n) n 0) as (H1 & H2 & H3); [lia| |by left|done].
  simpl. lia.
Qed.

(** X10: for a game of at most 2^30 vertices the precision that
    [ExperimentalSolver::run] computes is the least [p] with
    [n_nodes ≤ 2^p]; it is at most 30, so [1 << prec] stays in range. *)
Theorem initial_precision_least (n : nat) :
  Z.of_nat n ≤ 2 ^ 30 →
  0 ≤ initial_precision n ≤ 30 ∧
  Z.of_nat n ≤ 2 ^ initial_precision n ∧
  ∀ q, 0 ≤ q → Z.of_nat n ≤ 2 ^ q → initial_precision n ≤ q.
Proof.
  intros Hn. destruct (initial_precision_bounds n) as (H0 & H1 & H2).
  assert (Hleast : ∀ q, 0 ≤ q → Z.of_nat n ≤ 2 ^ q → initial_precision n ≤ q).
  { intros q Hq Hle. destruct H2 as [->|H2]; [done|].
    destruct (Z.le_gt_cases (initial_precision n) q) as [|Hgt]; [done|]. exfalso.
    assert (2 ^ q ≤ 2 ^ (initial_precision n - 1)) by (apply Z.pow_le_mono_r; lia). lia. }
  split; [|split; [done|done]]. split; [done|]. by apply Hleast.
Qed.

(** * The registry *)

Lemma Solvers_id_from_spec (l : list (string * Z * option Z)) (lbl : string) :
  ∀ id,
  match list_find (λ e, e.1.1 = lbl) l with
  | Some (k, _) => Solvers_id_from l lbl id = id + Z.of_nat k
  | None => Solvers_id_from l lbl id = -1
  end.
Proof.
  induction l as [|[[s par] f] l IH]; intros id; [done|].
  cbn [Solvers_id_from list_find]. simpl.
  destruct (decide (s = lbl)) as [->|Hne]; simpl.
  - lia.
  - specialize (IH (id + 1)). destruct (list_find _ l) as [[k e]|]; simpl; [|done].
    rewrite IH. lia.
Qed.

(** X11: [Solvers::id] returns the position of the first entry that
    carries the label, and -1 exactly when no entry carries it. *)
Theorem Solvers_id_first_match (l : list (string * Z * option Z)) (lbl : string) :
  (Solvers_id_from l lbl 0 = -1 ↔ ∀ e, e ∈ l → e.1.1 ≠ lbl) ∧
  (∀ k : nat, Solvers_id_from l lbl 0 = Z.of_nat k ↔
     ∃ e, l !! k = Some e ∧ e.1.1 = lbl ∧
          ∀ j e', (j < k)%nat → l !! j = Some e' → e'.1.1 ≠ lbl).
Proof.
  pose proof (Solvers_id_from_spec l lbl 0) as H.
  destruct (list_find (λ e, e.1.1 = lbl) l) as [[k e]|] eqn:E.
  - apply list_find_Some in E as (Hk & He & Hlt). rewrite H. split.
    + split; [lia|]. intros Hall. exfalso. apply (Hall e); [|done].
      by eapply list_elem_of_lookup_2.
    + intros k'. split.
      * intros Heq. assert (k' = k) as -> by lia. exists e. split; [done|].
        split; [done|]. intros j e' Hj He'. by eapply Hlt.
      * intros (e' & Hk' & He' & Hlt'). f_equal.
        destruct (Nat.lt_total k k') as [Hc|[Hc|Hc]]; [|lia|].
        -- exfalso. by apply (Hlt' k e Hc Hk).
        -- exfalso. by apply (Hlt k' e' Hk' Hc).
  - apply list_find_None in E. rewrite H. split.
    + split; [|done]. intros _ e He. rewrite Forall_forall in E. by apply E.
    + intros k. split; [lia|]. intros (e & Hk & He & _). exfalso.
      rewrite Forall_forall in E. apply (E e); [|done]. by eapply list_elem_of_lookup_2.
Qed.

(** X12: in the table built by [Solvers::Solvers] the labels are
    pairwise distinct: the id of the label of entry [k] is [k], and the
    flags found under that id are those of the entry. *)
Theorem Solvers_label_round_trip (k : nat) (e : string * Z * option Z) :
  Solvers !! k = Some e →
  Solvers_id e.1.1 = Z.of_nat k ∧ Solvers_flags (Solvers_id e.1.1) = e.2.
Proof.
  intros H.
  do 23 (destruct k as [|k]; [injection H as <-; split; reflexivity|]).
  discriminate H.
Qed.


(** * The further theorems at concrete inputs *)

Lemma run_keeps_decisions_witness :
  bat (solved (game oink_at_solver_entry)) 2 = true ∧
  ∃ o' p',
    Oink_run no_externals 20 (oink_at_solver_entry, fresh_process) = Ok (o', p') ∧
    bat (solved (game o')) 2 = true ∧
    zat (winner (game o')) 2 = zat (winner (game oink_at_solver_entry)) 2 ∧
    zat (strategy (game o')) 2 = zat (strategy (game oink_at_solver_entry)) 2.
Proof.
  split; [reflexivity|]. eexists. eexists. split; [vm_compute; reflexivity|].
  eapply (run_keeps_decisions no_externals 20 oink_at_solver_entry _ fresh_process).
  - repeat split; reflexivity.
  - vm_compute. reflexivity.
  - reflexivity.
Defined.

Lemma solveLoop_single_turn_witness :
  ∃ o' p',
    solveLoop_body no_externals 20 (oink_of game_alternation "epq", fresh_process)
      = Ok (o', p') ∧
    gameSolved (game o') = true ∧
    solveLoop no_externals 0 (o', p') = Ok (o', p').
Proof.
  eexists. eexists. split; [vm_compute; reflexivity|].
  eapply (solveLoop_single_turn no_externals 20 0 (oink_of game_alternation "epq") _
            fresh_process).
  - reflexivity.
  - reflexivity.
  - vm_compute. reflexivity.
Defined.

Lemma solveTrivialCycles_no_candidate_witness :
  solveTrivialCycles 0 (oink_of game_opposed "epq") = Ok (0, oink_of game_opposed "epq").
Proof.
  apply (solveTrivialCycles_no_candidate 0 (oink_of game_opposed "epq")).
  intros i Hi _. destruct i as [|[|i]]; [vm_compute; discriminate|vm_compute; discriminate|].
  simpl in Hi. lia.
Defined.

Lemma flush_terminates_witness :
  todo oink_pending = [0%nat] ∧
  ∃ o', flush 2 oink_pending = Ok o' ∧
        (length (todo o') + unsolved_count (game o') ≤
         length (todo oink_pending) + unsolved_count (game oink_pending))%nat.
Proof.
  split; [reflexivity|]. apply (flush_terminates 2 oink_pending).
  - intros v u Hu. destruct v as [|[|v]]; vm_compute in Hu; mem_cases Hu; simpl; lia.
  - reflexivity.
  - vm_compute. lia.
Defined.

Lemma solveSelfloops_counts_witness :
  ∃ o', solveSelfloops 3 (oink_of game_side_loop "epq") = Ok (1, o').
Proof.
  apply (solveSelfloops_counts 3 (oink_of game_side_loop "epq")).
  - intros v _. destruct v as [|[|[|v]]]; reflexivity.
  - intros v u Hu. destruct v as [|[|[|v]]]; vm_compute in Hu; mem_cases Hu; simpl; lia.
  - reflexivity.
  - vm_compute. lia.
Defined.

Lemma game_odd_cycle_wf : game_wf game_odd_cycle.
Proof.
  constructor; [constructor|reflexivity|reflexivity|].
  - intros v w H. destruct v as [|[|v]]; vm_compute in H; mem_cases H; simpl; lia.
  - intros v w H. destruct v as [|[|v]]; vm_compute in H; mem_cases H; simpl; lia.
  - intros v w. destruct v as [|[|v]], w as [|[|w]]; reflexivity.
  - intros v. destruct v as [|[|v]]; vm_compute; auto.
Defined.

Lemma single_parity_wins_witness :
  ∃ o', Oink_run no_externals 2
          (Oink_new game_odd_cycle (Solvers_id "epq") false false false true true true false,
           fresh_process) = Ok (o', fresh_process) ∧
        zat (winner (game o')) 0 = 1 ∧ zat (winner (game o')) 1 = 1.
Proof.
  destruct (single_parity_wins no_externals 2 game_odd_cycle (Solvers_id "epq")
              true true false fresh_process 1) as (o' & _ & Hrun & Hres).
  - apply game_odd_cycle_wf.
  - reflexivity.
  - intros v. destruct v as [|[|v]]; reflexivity.
  - intros v Hv. destruct v as [|[|v]]; [discriminate|discriminate|simpl in Hv; lia].
  - simpl. lia.
  - intros v Hv. destruct v as [|[|v]]; [reflexivity|reflexivity|simpl in Hv; lia].
  - simpl. lia.
  - exists o'. split; [exact Hrun|]. split.
    + apply (Hres 0%nat). simpl. lia.
    + apply (Hres 1%nat). simpl. lia.
Defined.

Lemma run_leaves_outside_witness :
  ∃ s', zsolver.run game_alternation quick_priority 10 [0%nat] 0 (1, 1) 0 (-1) zs_outside
          = Some s' ∧
        zat (zsolver.vtype s') 1 = 5 ∧ zat (zsolver.strategy s') 1 = 8.
Proof.
  destruct (zsolver.run game_alternation quick_priority 10 [0%nat] 0 (1, 1) 0 (-1) zs_outside)
    as [s'|] eqn:E; [|vm_compute in E; discriminate E].
  exists s'. split; [reflexivity|].
  destruct (run_leaves_outside game_alternation quick_priority 10 [0%nat] 0 (1, 1) 0 (-1)
              zs_outside s') as [Hout _].
  - intros w. destruct w; vm_compute; discriminate.
  - exact E.
  - apply (Hout 1%nat). intros H. mem_cases H. discriminate H.
Defined.

Lemma unmemoized_ignores_cache_witness :
  zs_solve 20 quick_priority game_alternation
    (mkProcess 0 (memo alternation_after_epqm.2)) =
  (fun s => zsolver.set_memo s (memo alternation_after_epqm.2)) <$>
    zs_solve 20 quick_priority game_alternation (mkProcess 0 ∅).
Proof. apply (unmemoized_ignores_cache 20 quick_priority game_alternation 0 ∅). reflexivity. Defined.

Lemma mode3_precision_irrelevant_witness :
  zsolver.run game_alternation (Z.lor zielonka quick_priority) 10 [0; 1]%nat 0 (1, 1) 3 (-1)
    (zs_init game_alternation fresh_process).2 =
  zsolver.run game_alternation (Z.lor zielonka quick_priority) 10 [0; 1]%nat 0 (7, 2) 3 (-1)
    (zs_init game_alternation fresh_process).2.
Proof.
  apply (mode3_precision_irrelevant game_alternation (Z.lor zielonka quick_priority) 10
           [0; 1]%nat 0 (1, 1) (7, 2) (-1)); [reflexivity|simpl; lia..].
Defined.

Lemma initial_precision_least_witness :
  initial_precision 5 = 3 ∧
  0 ≤ initial_precision 5 ≤ 30 ∧ Z.of_nat 5 ≤ 2 ^ initial_precision 5 ∧
  initial_precision 5 ≤ 7.
Proof.
  split; [reflexivity|].
  destruct (initial_precision_least 5) as (H1 & H2 & H3); [vm_compute; discriminate|].
  split; [exact H1|]. split; [exact H2|]. apply H3; [lia|vm_compute; discriminate].
Defined.

Lemma Solvers_label_round_trip_witness :
  Solvers_id "epqm" = 5 ∧ Solvers_flags (Solvers_id "epqm") = Some (Z.lor quick_priority memoize).
Proof.
  apply (Solvers_label_round_trip 5 ("epqm"%string, 1, Some (Z.lor quick_priority memoize))).
  reflexivity.
Defined.
